(** * The dotmesh operator: one reconcile pass, verified

    A shallow embedding of [cmd/operator/main.go] of dotmesh: the
    configuration resolver ([provideDefault], [newDotmeshController]) and
    the reconcile pass ([process]) with its four steps: node labelling,
    pod classification, rate-limited deletion and pod creation.

    Conventions of the embedding.
    - Go [map[string]string] is a [gmap string string]; a map that the code
      writes to is an [option] of one, [None] being Go's nil map (reading a
      nil map yields the zero value, writing to it panics).
    - Go [map[string]struct{}] is a [gset string].
    - Go [int] is [Z]; every count below is bounded by the length of a
      list, so no wrap-around can occur.
    - [range] over a Go map visits the keys in an unspecified order; the
      pass takes the order as a parameter ([RangeOrder]).
    - Calls to the cluster API are recorded in a trace, together with what
      they returned; [glog.Error] lines are recorded too.  Informational
      log lines have no influence on the control flow and are left out. *)

From Stdlib Require Import ZArith Floats.SpecFloat Ascii.
From stdpp Require Import base gmap sets list strings.

Local Open Scope Z_scope.
#[local] Set Warnings "-clear-no-such-hyp".

(** ** Kubernetes objects, as far as the operator reads or writes them *)

Module ObjectMeta.
Record t := mk {
  Name : string;
  Namespace : string;
  Labels : option (gmap string string);
  Annotations : option (gmap string string) }.
End ObjectMeta.

Module Node.
Record t := mk { ObjectMeta : ObjectMeta.t }.
End Node.

Module Toleration.
Record t := mk { Effect : string; Operator : string }.
End Toleration.

Module SecurityContext.
Record t := mk { Privileged : option bool }.
End SecurityContext.

Module ContainerPort.
Record t := mk { Name : string; ContainerPort : Z; Protocol : string }.
End ContainerPort.

Module VolumeMount.
Record t := mk { Name : string; MountPath : string }.
End VolumeMount.

Module ObjectFieldSelector.
Record t := mk { APIVersion : string; FieldPath : string }.
End ObjectFieldSelector.

Module EnvVarSource.
Record t := mk { FieldRef : option ObjectFieldSelector.t }.
End EnvVarSource.

Module EnvVar.
Record t := mk {
  Name : string;
  Value : string;
  ValueFrom : option EnvVarSource.t }.
End EnvVar.

Module intstr.
Inductive IntOrString := FromInt (val : Z) | FromString (val : string).
End intstr.

Module HTTPGetAction.
Record t := mk { Path : string; Port : intstr.IntOrString }.
End HTTPGetAction.

Module Handler.
Record t := mk { HTTPGet : option HTTPGetAction.t }.
End Handler.

Module Probe.
Record t := mk { Handler : Handler.t; InitialDelaySeconds : Z }.
End Probe.

Module ResourceRequirements.
(* a [resource.Quantity] is kept as the string it was parsed from *)
Record t := mk { Requests : gmap string string }.
End ResourceRequirements.

Module Container.
Record t := mk {
  Name : string;
  Image : string;
  Command : list string;
  SecurityContext : option SecurityContext.t;
  Ports : list ContainerPort.t;
  VolumeMounts : list VolumeMount.t;
  Env : list EnvVar.t;
  ImagePullPolicy : string;
  LivenessProbe : option Probe.t;
  Resources : ResourceRequirements.t }.
End Container.

Module VolumeSource.
Record t := mk {
  HostPath : option string;   (* HostPathVolumeSource{Path} *)
  EmptyDir : option unit;     (* EmptyDirVolumeSource{} *)
  Secret : option string }.   (* SecretVolumeSource{SecretName} *)
End VolumeSource.

Module Volume.
Record t := mk { Name : string; VolumeSource : VolumeSource.t }.
End Volume.

Module PodSpec.
Record t := mk {
  HostPID : bool;
  NodeSelector : gmap string string;   (* only ever read: nil reads as empty *)
  Tolerations : list Toleration.t;
  InitContainers : list Container.t;
  Containers : list Container.t;
  RestartPolicy : string;
  ServiceAccountName : string;
  Volumes : list Volume.t;
  NodeName : string }.
End PodSpec.

Module PodStatus.
Record t := mk { Phase : string; Message : string; Reason : string }.
End PodStatus.

Module Pod.
Record t := mk {
  ObjectMeta : ObjectMeta.t;
  Spec : PodSpec.t;
  Status : PodStatus.t }.
End Pod.

Module ConfigMap.
Record t := mk { Data : option (gmap string string) }.
End ConfigMap.

(** Constants of package [v1] and [meta_v1] that the operator names. *)
Module v1.
Definition PodPending := "Pending".
Definition PodRunning := "Running".
Definition PodFailed := "Failed".
Definition TaintEffectNoSchedule := "NoSchedule".
Definition TolerationOpExists := "Exists".
Definition ProtocolTCP := "TCP".
Definition PullAlways := "Always".
Definition RestartPolicyNever := "Never".
Definition ResourceCPU := "cpu".
End v1.

Module meta_v1.
Definition DeletePropagationBackground := "Background".
End meta_v1.

(** ** Constants of the operator *)

Definition DOTMESH_NAMESPACE := "dotmesh".
Definition DOTMESH_CONFIG_MAP := "configuration".
Definition DOTMESH_NODE_LABEL := "dotmesh.io/node".
Definition DOTMESH_POD_ROLE_LABEL := "dotmesh.io/role".
Definition DOTMESH_ROLE_SERVER := "dotmesh-server".

Definition CONFIG_NODE_SELECTOR := "nodeSelector".
Definition CONFIG_UPGRADES_URL := "upgradesUrl".
Definition CONFIG_UPGRADES_INTERVAL_SECONDS := "upgradesIntervalSeconds".
Definition CONFIG_FLEXVOLUME_DRIVER_DIR := "flexvolumeDriverDir".
Definition CONFIG_POOL_NAME := "poolName".
Definition CONFIG_LOG_ADDRESS := "logAddress".
Definition CONFIG_MODE := "storageMode".
Definition CONFIG_MODE_LOCAL := "local".
Definition CONFIG_LOCAL_POOL_SIZE_PER_NODE := "local.poolSizePerNode".
Definition CONFIG_LOCAL_POOL_LOCATION := "local.poolLocation".

(** ** Results, API calls and the trace of a pass *)

(** A Go [error] value is kept as its message. *)
Definition error := string.

(** How a Go function ends: it returns a value, returns a non-nil error,
    or panics. *)
Inductive res (A : Type) :=
  | Ret (a : A)
  | Fail (e : error)
  | Panic (msg : string).
Arguments Ret {A} a.
Arguments Fail {A} e.
Arguments Panic {A} msg.

(** The cluster-mutating calls of the operator. *)
Inductive call :=
  | Nodes_Update (n : Node.t)
  | Pods_Delete (ns name : string) (PropagationPolicy : option string)
  | Pods_Create (ns : string) (p : Pod.t).

Inductive event :=
  | ApiCall (c : call) (err : option error)   (* the call and what it returned *)
  | LogError (e : error).                     (* glog.Error(err) *)

(** A computation of the operator: it extends the trace and ends as [res]
    says. *)
Definition M (A : Type) : Type := list event → list event * res A.

Definition M_ret {A} (a : A) : M A := λ tr, (tr, Ret a).

Definition M_bind {A B} (m : M A) (f : A → M B) : M B := λ tr,
  match m tr with
  | (tr', Ret a) => f a tr'
  | (tr', Fail e) => (tr', Fail e)
  | (tr', Panic msg) => (tr', Panic msg)
  end.

Declare Scope op_scope.
Delimit Scope op_scope with op.
Notation "x <- m ;; k" := (M_bind m (λ x, k))
  (at level 100, m at next level, right associativity) : op_scope.
Notation "m ;; k" := (M_bind m (λ _, k))
  (at level 100, right associativity) : op_scope.

(** [return err] of a Go function returning [error], and a panic. *)
Definition M_fail {A} (e : error) : M A := λ tr, (tr, Fail e).
Definition M_panic {A} (msg : string) : M A := λ tr, (tr, Panic msg).

Definition M_lift {A} (r : res A) : M A := λ tr, (tr, r).

Definition emit (ev : event) : M unit := λ tr, (tr ++ [ev], Ret tt).

(** [kubernetes.Interface], as the operator uses it.  The answer to a
    mutating call may depend on everything that happened before it. *)
Module kubernetes.
Record Interface := mk {
  ConfigMaps_Get : string → string → res ConfigMap.t;
  Mutate : list event → call → option error }.
End kubernetes.

(** Issue a mutating call: ask the cluster, record call and answer. *)
Definition api (client : kubernetes.Interface) (c : call) : M (option error) :=
  λ tr, let err := kubernetes.Mutate client tr c in
        (tr ++ [ApiCall c err], Ret err).

Definition glog_Error (e : error) : M unit := emit (LogError e).

(** ** Go maps and Go's [range] *)

(** [v, ok := m[k]] and [m[k]] on a map that may be nil. *)
Definition go_lookup (m : option (gmap string string)) (k : string) : option string :=
  match m with
  | None => None
  | Some d => d !! k
  end.

Definition go_index (m : option (gmap string string)) (k : string) : string :=
  default "" (go_lookup m k).

(** [m[k] = v]: a nil map panics. *)
Definition go_assign (m : option (gmap string string)) (k v : string)
  : res (option (gmap string string)) :=
  match m with
  | None => Panic "assignment to entry in nil map"
  | Some d => Ret (Some (<[k := v]> d))
  end.

(** The orders in which the two [range] loops over maps of [process] visit
    the keys: any enumeration without repetition. *)
Record RangeOrder := mkRangeOrder {
  rangeToKill : gset string → list string;
  rangeUndotted : gset string → list string;
  rangeToKill_perm : ∀ s, rangeToKill s ≡ₚ elements s;
  rangeUndotted_perm : ∀ s, rangeUndotted s ≡ₚ elements s }.

(** ** float32, for [clusterMinimumPopulation] *)

Module float32.
Definition prec : Z := 24.
Definition emax : Z := 128.

(** [float32(n)] for an integer [n]: rounded to nearest, ties to even. *)
Definition of_int (n : Z) : spec_float := binary_normalize prec emax n 0 false.

Definition mul : spec_float → spec_float → spec_float := SFmul prec emax.

(** [int(f)]: the fraction is discarded (truncation towards zero).  The
    result for NaN and the infinities is implementation-defined in Go;
    they do not arise from a product of two small numbers. *)
Definition to_int (f : spec_float) : Z :=
  match f with
  | S754_finite s m e => cond_Zopp s (Z.shiftl (Zpos m) e)
  | _ => 0
  end.
End float32.

(** The untyped constant 0.75 = 3 * 2^-2, converted to float32 by the
    multiplication it appears in. *)
Definition CLUSTER_MINIMUM_RATIO : spec_float :=
  binary_normalize float32.prec float32.emax 3 (-2) false.

(** [int(CLUSTER_MINIMUM_RATIO * float32(len(validNodes)))] *)
Definition clusterMinimumPopulation (lenValidNodes : Z) : Z :=
  float32.to_int (float32.mul CLUSTER_MINIMUM_RATIO (float32.of_int lenValidNodes)).

(** ** The configuration resolver *)

Definition provideDefault (m : option (gmap string string)) (key deflt : string)
  : res (option (gmap string string)) :=
  match go_lookup m key with
  | None => go_assign m key deflt
  | Some _ => Ret m
  end.

(** The calls of [provideDefault] in [newDotmeshController], in order. *)
Definition defaults : list (string * string) :=
  [ (CONFIG_NODE_SELECTOR, "");
    (CONFIG_UPGRADES_URL, "https://checkpoint.dotmesh.com/");
    (CONFIG_UPGRADES_INTERVAL_SECONDS, "14400");
    (CONFIG_FLEXVOLUME_DRIVER_DIR, "/usr/libexec/kubernetes/kubelet-plugins/volume/exec");
    (CONFIG_POOL_NAME, "pool");
    (CONFIG_LOG_ADDRESS, "");
    (CONFIG_MODE, CONFIG_MODE_LOCAL);
    (CONFIG_LOCAL_POOL_SIZE_PER_NODE, "10G");
    (CONFIG_LOCAL_POOL_LOCATION, "/var/lib/dotmesh") ].

Fixpoint provideDefaults (m : option (gmap string string)) (kvs : list (string * string))
  : res (option (gmap string string)) :=
  match kvs with
  | [] => Ret m
  | (key, deflt) :: kvs' =>
      match provideDefault m key deflt with
      | Ret m' => provideDefaults m' kvs'
      | Fail e => Fail e
      | Panic msg => Panic msg
      end
  end.

(** The controller.  The two listers stand for what the informer caches
    hold when the pass lists them; the informers themselves, and the dirty
    flag that triggers a pass, are not part of this development. *)
Record dotmeshController := mkController {
  client : kubernetes.Interface;
  nodeLister : res (list Node.t);
  podLister : res (list Pod.t);
  config : ConfigMap.t }.

Definition newDotmeshController (client : kubernetes.Interface)
    (nodeIndexer : res (list Node.t)) (podIndexer : res (list Pod.t))
  : res dotmeshController :=
  let fillIn (config0 : ConfigMap.t) :=
    match provideDefaults (ConfigMap.Data config0) defaults with
    | Ret data => Ret (mkController client nodeIndexer podIndexer (ConfigMap.mk data))
    | Fail e => Fail e
    | Panic msg => Panic msg
    end in
  match kubernetes.ConfigMaps_Get client DOTMESH_NAMESPACE DOTMESH_CONFIG_MAP with
  | Fail _ => fillIn (ConfigMap.mk (Some ∅))   (* &v1.ConfigMap{Data: map[string]string{}} *)
  | Ret config => fillIn config                 (* config.DeepCopy() *)
  | Panic msg => Panic msg
  end.

(** ** The reconcile pass *)

Section process.

(** [DOTMESH_IMAGE] is a package variable set at link time. *)
Variable DOTMESH_IMAGE : string.

Local Open Scope op_scope.

(** *** Step A: label the nodes, collect the node identities *)

Definition setLabels (node : Node.t) (labels : option (gmap string string)) : Node.t :=
  let meta := Node.ObjectMeta node in
  Node.mk (ObjectMeta.mk (ObjectMeta.Name meta) (ObjectMeta.Namespace meta)
                         labels (ObjectMeta.Annotations meta)).

(** The first loop over [nodes].  The update goes to the cluster for a deep
    copy [n2]; the listed [node] itself is left as the cache had it. *)
Fixpoint labelNodes (c : dotmeshController) (nodes : list Node.t) : M unit :=
  match nodes with
  | [] => M_ret tt
  | node :: nodes' =>
      let nodeName := ObjectMeta.Name (Node.ObjectMeta node) in
      let labelName := go_lookup (ObjectMeta.Labels (Node.ObjectMeta node)) DOTMESH_NODE_LABEL in
      if bool_decide (labelName = Some nodeName)
      then labelNodes c nodes'
      else
        labels2 <- M_lift (go_assign (ObjectMeta.Labels (Node.ObjectMeta node))
                                     DOTMESH_NODE_LABEL nodeName) ;;
        let n2 := setLabels node labels2 in
        err <- api (client c) (Nodes_Update n2) ;;
        match err with
        | Some e => M_fail e
        | None => labelNodes c nodes'
        end
  end.

(** The second loop over [nodes]: [validNodes] and the initial
    [undottedNodes], both read from the labels of the listed nodes. *)
Definition nodeLabel (node : Node.t) : string :=
  go_index (ObjectMeta.Labels (Node.ObjectMeta node)) DOTMESH_NODE_LABEL.

Definition observeNodes (nodes : list Node.t) : gset string :=
  foldl (λ validNodes node, {[ nodeLabel node ]} ∪ validNodes) ∅ nodes.

(** *** Step B: classify the pods *)

Record podsState := mkPodsState {
  dotmeshesToKill : gset string;         (* pod names that need to die *)
  dotmeshIsRunning : gmap string bool;   (* pod name -> is in the Running phase *)
  runningPodCount : Z;
  undottedNodes : gset string;           (* node ids without a good pod *)
  suspendedNodes : gset string }.        (* node ids where no pod may be started *)

Definition initialPodsState (validNodes : gset string) : podsState :=
  mkPodsState ∅ ∅ 0 validNodes ∅.

Definition kill (podName : string) (st : podsState) : podsState :=
  mkPodsState ({[ podName ]} ∪ dotmeshesToKill st) (dotmeshIsRunning st)
              (runningPodCount st) (undottedNodes st) (suspendedNodes st).

Definition suspend (boundNode : string) (st : podsState) : podsState :=
  mkPodsState (dotmeshesToKill st) (dotmeshIsRunning st)
              (runningPodCount st) (undottedNodes st) ({[ boundNode ]} ∪ suspendedNodes st).

Definition strikeOut (boundNode : string) (st : podsState) : podsState :=
  mkPodsState (dotmeshesToKill st) (dotmeshIsRunning st)
              (runningPodCount st) (undottedNodes st ∖ {[ boundNode ]}) (suspendedNodes st).

Definition recordPhase (podName status : string) (st : podsState) : podsState :=
  mkPodsState (dotmeshesToKill st)
              (<[ podName := bool_decide (status = v1.PodRunning) ]> (dotmeshIsRunning st))
              (if bool_decide (status = v1.PodRunning)
               then runningPodCount st + 1 else runningPodCount st)
              (undottedNodes st) (suspendedNodes st).

(** One iteration of the loop over [dotmeshes]; each [continue] of the
    source is a branch that returns. *)
Definition observePod (validNodes : gset string) (st : podsState) (dotmesh : Pod.t)
  : podsState :=
  let podName := ObjectMeta.Name (Pod.ObjectMeta dotmesh) in
  let status := PodStatus.Phase (Pod.Status dotmesh) in
  let st := recordPhase podName status st in
  match PodSpec.NodeSelector (Pod.Spec dotmesh) !! DOTMESH_NODE_LABEL with
  | None => kill podName st
  | Some boundNode =>
      match PodSpec.Containers (Pod.Spec dotmesh) with
      | [container] =>
          let image := Container.Image container in
          if bool_decide (image ≠ DOTMESH_IMAGE)
          then suspend boundNode (kill podName st)
          else
            let runningNode := PodSpec.NodeName (Pod.Spec dotmesh) in
            if bool_decide (runningNode ≠ "") && bool_decide (runningNode ≠ boundNode)
            then suspend boundNode (kill podName st)
            else if bool_decide (boundNode ∉ validNodes)
            then kill podName st
            else if bool_decide (status = v1.PodFailed)
            then suspend boundNode (kill podName st)
            else strikeOut boundNode st
      | _ => suspend boundNode (kill podName st)   (* len(Containers) != 1 *)
      end
  end.

Definition observePods (validNodes : gset string) (dotmeshes : list Pod.t) : podsState :=
  foldl (observePod validNodes) (initialPodsState validNodes) dotmeshes.

(** *** Step C: delete, sparing running pods at the minimum population *)

Definition isRunning (st : podsState) (dotmeshName : string) : bool :=
  default false (dotmeshIsRunning st !! dotmeshName).

(** The loop over [dotmeshesToKill], in the order [names]; it returns the
    final [clusterPopulation]. *)
Fixpoint deletePods (c : dotmeshController) (st : podsState)
    (clusterMinimumPopulation : Z) (names : list string) (clusterPopulation : Z) : M Z :=
  match names with
  | [] => M_ret clusterPopulation
  | dotmeshName :: names' =>
      if negb (isRunning st dotmeshName) || (clusterMinimumPopulation <? clusterPopulation)
      then
        err <- api (client c) (Pods_Delete DOTMESH_NAMESPACE dotmeshName
                                 (Some meta_v1.DeletePropagationBackground)) ;;
        match err with
        | Some e => glog_Error e
        | None => M_ret tt
        end ;;
        deletePods c st clusterMinimumPopulation names'
          (if isRunning st dotmeshName then clusterPopulation - 1 else clusterPopulation)
      else
        deletePods c st clusterMinimumPopulation names' clusterPopulation
  end.

(** *** Step D: create the missing pods *)

Definition configValue (c : dotmeshController) (key : string) : string :=
  go_index (ConfigMap.Data (config c)) key.

Definition hostPath (path : string) : VolumeSource.t :=
  VolumeSource.mk (Some path) None None.

Definition envValue (name value : string) : EnvVar.t := EnvVar.mk name value None.

(** The pod literal [newDotmesh] of the creation loop. *)
Definition newDotmesh (c : dotmeshController) (node : string) : Pod.t :=
  let privileged := true in
  Pod.mk
    (ObjectMeta.mk ("dotmesh-" +:+ node) "dotmesh"
       (Some {[ DOTMESH_POD_ROLE_LABEL := DOTMESH_ROLE_SERVER ]})
       (Some ∅))
    (PodSpec.mk
       true
       {[ DOTMESH_NODE_LABEL := node ]}
       [ Toleration.mk v1.TaintEffectNoSchedule v1.TolerationOpExists ]
       []
       [ Container.mk
           "dotmesh-outer"
           DOTMESH_IMAGE
           [ "/require_zfs.sh"; "dotmesh-server" ]
           (Some (SecurityContext.mk (Some privileged)))
           [ ContainerPort.mk "dotmesh-api" 32607 v1.ProtocolTCP ]
           [ VolumeMount.mk "docker-sock" "/var/run/docker.sock";
             VolumeMount.mk "run-docker" "/run/docker";
             VolumeMount.mk "var-lib" "/var/lib";
             VolumeMount.mk "system-lib" "/system-lib/lib";
             VolumeMount.mk "dotmesh-kernel-modules" "/bundled-lib";
             VolumeMount.mk "dotmesh-secret" "/secret";
             VolumeMount.mk "test-pools-dir" "/dotmesh-test-pools" ]
           [ EnvVar.mk "HOSTNAME" ""
               (Some (EnvVarSource.mk (Some (ObjectFieldSelector.mk "v1" "spec.nodeName"))));
             envValue "DOTMESH_ETCD_ENDPOINT"
               "http://dotmesh-etcd-cluster-client.dotmesh.svc.cluster.local:2379";
             envValue "DOTMESH_DOCKER_IMAGE" DOTMESH_IMAGE;
             envValue "PATH"
               "/bundled-lib/sbin:/usr/local/sbin:/usr/local/bin:/usr/sbin:/usr/bin:/sbin:/bin";
             envValue "LD_LIBRARY_PATH" "/bundled-lib/lib:/bundled-lib/usr/lib/";
             envValue "ALLOW_PUBLIC_REGISTRATION" "1";
             envValue "INITIAL_ADMIN_PASSWORD_FILE" "/secret/dotmesh-admin-password.txt";
             envValue "INITIAL_ADMIN_API_KEY_FILE" "/secret/dotmesh-api-key.txt";
             envValue "USE_POOL_NAME" (configValue c CONFIG_POOL_NAME);
             envValue "USE_POOL_DIR" (configValue c CONFIG_LOCAL_POOL_LOCATION);
             envValue "POOL_SIZE" (configValue c CONFIG_LOCAL_POOL_SIZE_PER_NODE);
             envValue "LOG_ADDR" (configValue c CONFIG_LOG_ADDRESS);
             envValue "DOTMESH_UPGRADES_URL" (configValue c CONFIG_UPGRADES_URL);
             envValue "DOTMESH_UPGRADES_INTERVAL_SECONDS"
               (configValue c CONFIG_UPGRADES_INTERVAL_SECONDS);
             envValue "FLEXVOLUME_DRIVER_DIR" (configValue c CONFIG_FLEXVOLUME_DRIVER_DIR) ]
           v1.PullAlways
           (Some (Probe.mk
                    (Handler.mk (Some (HTTPGetAction.mk "/status" (intstr.FromInt 32607))))
                    30))
           (ResourceRequirements.mk {[ v1.ResourceCPU := "10m" ]}) ]
       v1.RestartPolicyNever
       "dotmesh"
       [ Volume.mk "test-pools-dir" (hostPath "/dotmesh-test-pools");
         Volume.mk "run-docker" (hostPath "/var/run/docker");
         Volume.mk "docker-sock" (hostPath "/var/run/docker.sock");
         Volume.mk "var-lib" (hostPath "/var/lib");
         Volume.mk "system-lib" (hostPath "/lib");
         Volume.mk "dotmesh-kernel-modules" (VolumeSource.mk None (Some tt) None);
         Volume.mk "dotmesh-secret" (VolumeSource.mk None None (Some "dotmesh")) ]
       "")
    (PodStatus.mk "" "" "").

(** The loop over [undottedNodes], in the order [nodes]. *)
Fixpoint createPods (c : dotmeshController) (st : podsState) (nodes : list string) : M unit :=
  match nodes with
  | [] => M_ret tt
  | node :: nodes' =>
      if bool_decide (node ∈ suspendedNodes st)
      then createPods c st nodes'
      else
        err <- api (client c) (Pods_Create DOTMESH_NAMESPACE (newDotmesh c node)) ;;
        match err with
        | Some e => glog_Error e
        | None => M_ret tt
        end ;;
        createPods c st nodes'
  end.

(** *** The pass *)

Definition process (ord : RangeOrder) (c : dotmeshController) : M unit :=
  nodes <- M_lift (nodeLister c) ;;
  labelNodes c nodes ;;
  let validNodes := observeNodes nodes in
  dotmeshes <- M_lift (podLister c) ;;
  let st := observePods validNodes dotmeshes in
  let clusterMinimumPopulation := clusterMinimumPopulation (Z.of_nat (size validNodes)) in
  let clusterPopulation := runningPodCount st in
  deletePods c st clusterMinimumPopulation (rangeToKill ord (dotmeshesToKill st))
             clusterPopulation ;;
  createPods c st (rangeUndotted ord (undottedNodes st)).

(** A pass started on the empty trace. *)
Definition run (ord : RangeOrder) (c : dotmeshController) : list event * res unit :=
  process ord c [].

End process.

(** ** Reading a trace *)

Definition callOf (ev : event) : option call :=
  match ev with
  | ApiCall c _ => Some c
  | LogError _ => None
  end.

(** The API calls of a trace, in the order they were issued. *)
Definition calls (tr : list event) : list call := omap callOf tr.

Definition deletePod (dotmeshName : string) : call :=
  Pods_Delete DOTMESH_NAMESPACE dotmeshName (Some meta_v1.DeletePropagationBackground).

(** The names of the pods a trace deletes, the pods it creates and the
    nodes it updates, in the order of the calls. *)
Definition deletedName (c : call) : option string :=
  match c with Pods_Delete _ dotmeshName _ => Some dotmeshName | _ => None end.

Definition createdPod (c : call) : option Pod.t :=
  match c with Pods_Create _ pod => Some pod | _ => None end.

Definition updatedNode (c : call) : option Node.t :=
  match c with Nodes_Update n2 => Some n2 | _ => None end.

Definition deletedNames (tr : list event) : list string := omap deletedName (calls tr).
Definition createdPods (tr : list event) : list Pod.t := omap createdPod (calls tr).
Definition updatedNodes (tr : list event) : list Node.t := omap updatedNode (calls tr).

(** Every failed call of the trace is followed at once by the
    [glog.Error] of its error. *)
Fixpoint errorsLogged (tr : list event) : bool :=
  match tr with
  | [] => true
  | ApiCall _ None :: tr' => errorsLogged tr'
  | ApiCall _ (Some e) :: tr' =>
      match tr' with
      | LogError e' :: _ => bool_decide (e = e') && errorsLogged tr'
      | _ => false
      end
  | LogError _ :: tr' => errorsLogged tr'
  end.

(** No call of the trace failed. *)
Definition allSucceeded (tr : list event) : Prop :=
  ∀ c e, ApiCall c (Some e) ∉ tr.

(** The decisions of the deletion loop, without the calls: the names it
    deletes, in order.  ([deletePods_calls] shows that these are the calls
    of [deletePods], whatever the cluster answers.) *)
Fixpoint doomed (st : podsState) (clusterMinimumPopulation : Z)
    (names : list string) (clusterPopulation : Z) : list string :=
  match names with
  | [] => []
  | dotmeshName :: names' =>
      if negb (isRunning st dotmeshName) || (clusterMinimumPopulation <? clusterPopulation)
      then dotmeshName ::
           doomed st clusterMinimumPopulation names'
             (if isRunning st dotmeshName then clusterPopulation - 1 else clusterPopulation)
      else doomed st clusterMinimumPopulation names' clusterPopulation
  end.

(** How many of the names the pass recorded as Running. *)
Definition runningIn (st : podsState) (names : list string) : Z :=
  Z.of_nat (length (List.filter (isRunning st) names)).

(** The node has its identity label, with its own name as value. *)
Definition labelledOk (node : Node.t) : Prop :=
  go_lookup (ObjectMeta.Labels (Node.ObjectMeta node)) DOTMESH_NODE_LABEL
  = Some (ObjectMeta.Name (Node.ObjectMeta node)).

(** A pod that passes every check of the classification loop, bound to
    [boundNode]. *)
Definition healthyOn (DOTMESH_IMAGE : string) (validNodes : gset string)
    (dotmesh : Pod.t) (boundNode : string) : Prop :=
  PodSpec.NodeSelector (Pod.Spec dotmesh) !! DOTMESH_NODE_LABEL = Some boundNode
  ∧ (∃ container, PodSpec.Containers (Pod.Spec dotmesh) = [container]
                  ∧ Container.Image container = DOTMESH_IMAGE)
  ∧ (PodSpec.NodeName (Pod.Spec dotmesh) = ""
     ∨ PodSpec.NodeName (Pod.Spec dotmesh) = boundNode)
  ∧ boundNode ∈ validNodes
  ∧ PodStatus.Phase (Pod.Status dotmesh) ≠ v1.PodFailed.

(** The value of an environment variable of a container: the first entry
    of that name. *)
Fixpoint envOf (env : list EnvVar.t) (name : string) : option string :=
  match env with
  | [] => None
  | e :: env' => if bool_decide (EnvVar.Name e = name) then Some (EnvVar.Value e)
                 else envOf env' name
  end.

(** The environment variables that [newDotmesh] takes from the
    configuration, each with the key it reads. *)
Definition configEnv : list (string * string) :=
  [ ("USE_POOL_NAME", CONFIG_POOL_NAME);
    ("USE_POOL_DIR", CONFIG_LOCAL_POOL_LOCATION);
    ("POOL_SIZE", CONFIG_LOCAL_POOL_SIZE_PER_NODE);
    ("LOG_ADDR", CONFIG_LOG_ADDRESS);
    ("DOTMESH_UPGRADES_URL", CONFIG_UPGRADES_URL);
    ("DOTMESH_UPGRADES_INTERVAL_SECONDS", CONFIG_UPGRADES_INTERVAL_SECONDS);
    ("FLEXVOLUME_DRIVER_DIR", CONFIG_FLEXVOLUME_DRIVER_DIR) ].

(** What the constructor starts from: the fetched map, or the empty map
    when the fetch failed. *)
Definition fetchedData (client : kubernetes.Interface) : option (gmap string string) :=
  match kubernetes.ConfigMaps_Get client DOTMESH_NAMESPACE DOTMESH_CONFIG_MAP with
  | Ret config => ConfigMap.Data config
  | Fail _ => Some ∅
  | Panic _ => None
  end.

Definition succeeded (ev : event) : bool :=
  match ev with ApiCall _ (Some _) => false | _ => true end.

(** ** The cluster between two passes

    The caches as they are once the watches have delivered the effects of
    a pass's own successful calls, and nothing else: an updated node
    replaces the node of that name, a deleted pod is gone, a created pod is
    there, not yet scheduled, in the Pending phase. *)

Definition withPhase (dotmesh : Pod.t) (phase : string) : Pod.t :=
  Pod.mk (Pod.ObjectMeta dotmesh) (Pod.Spec dotmesh)
         (PodStatus.mk phase (PodStatus.Message (Pod.Status dotmesh))
                       (PodStatus.Reason (Pod.Status dotmesh))).

Definition replaceNode (n2 : Node.t) (nodes : list Node.t) : list Node.t :=
  map (λ node, if bool_decide (ObjectMeta.Name (Node.ObjectMeta node)
                               = ObjectMeta.Name (Node.ObjectMeta n2))
               then n2 else node) nodes.

Definition removePod (dotmeshName : string) (pods : list Pod.t) : list Pod.t :=
  List.filter (λ pod, bool_decide (ObjectMeta.Name (Pod.ObjectMeta pod) ≠ dotmeshName)) pods.

Definition echoEvent (caches : list Node.t * list Pod.t) (ev : event)
  : list Node.t * list Pod.t :=
  match ev with
  | ApiCall (Nodes_Update n2) None => (replaceNode n2 caches.1, caches.2)
  | ApiCall (Pods_Delete _ dotmeshName _) None => (caches.1, removePod dotmeshName caches.2)
  | ApiCall (Pods_Create _ pod) None => (caches.1, caches.2 ++ [withPhase pod v1.PodPending])
  | _ => caches
  end.

Definition echo (tr : list event) (caches : list Node.t * list Pod.t)
  : list Node.t * list Pod.t :=
  foldl echoEvent caches tr.

Definition withCaches (c : dotmeshController) (caches : list Node.t * list Pod.t)
  : dotmeshController :=
  mkController (client c) (Ret caches.1) (Ret caches.2) (config c).

(** ** Concrete clusters, for examples *)

(** The keys of a Go map in sorted order: one of the orders of [range]. *)
Definition sortedOrder : RangeOrder :=
  mkRangeOrder elements elements (λ s, reflexivity _) (λ s, reflexivity _).

(** A cluster in which every mutating call succeeds and there is no
    ConfigMap. *)
Definition reliable : kubernetes.Interface :=
  kubernetes.mk (λ _ _, Fail "configmap dotmesh/configuration not found") (λ _ _, None).

(** A reliable cluster whose ConfigMap exists and has no data: the
    [Data] map of the fetched object is nil. *)
Definition emptyConfigMapCluster : kubernetes.Interface :=
  kubernetes.mk (λ _ _, Ret (ConfigMap.mk None)) (λ _ _, None).

(** A node that carries its identity label, and one as a kubelet
    registers it, without the label. *)
Definition labelledNode (name : string) : Node.t :=
  Node.mk (ObjectMeta.mk name "" (Some {[ DOTMESH_NODE_LABEL := name ]}) None).

Definition unlabelledNode (name : string) : Node.t :=
  Node.mk (ObjectMeta.mk name "" (Some {[ "kubernetes.io/hostname" := name ]}) None).

(** The node as the labelling loop sends it to the cluster. *)
Definition relabelled (node : Node.t) : Node.t :=
  setLabels node
    (Some (<[ DOTMESH_NODE_LABEL := ObjectMeta.Name (Node.ObjectMeta node) ]>
             (default ∅ (ObjectMeta.Labels (Node.ObjectMeta node))))).

(** The configuration with every default. *)
Definition defaultConfig : ConfigMap.t := ConfigMap.mk (Some (list_to_map defaults)).

(** A controller over a reliable cluster with the given caches. *)
Definition cluster (nodes : list Node.t) (dotmeshes : list Pod.t) : dotmeshController :=
  mkController reliable (Ret nodes) (Ret dotmeshes) defaultConfig.

(** A pod as some operator built it from [image] for [node], observed in
    the Running phase. *)
Definition runningPod (image node : string) : Pod.t :=
  withPhase (newDotmesh image (cluster [] []) node) v1.PodRunning.

(** ** The worker and its dirty flag

    The flag [updatesNeeded] is kept apart from the record
    [dotmeshController] above.  It is read and written only under
    [updatesNeededLock], so each access is one step; the flag is the state
    passed along. *)

(** [scheduleUpdate], the handler of every watch event: set the flag. *)
Definition scheduleUpdate (updatesNeeded : bool) : bool := true.

(** [runWorker]: read and clear the flag; when it was set, run a pass and
    log the error it returns, otherwise sleep for a second, which leaves
    no event.  The result is the flag after the tick, and what the tick
    does. *)
Definition runWorker (DOTMESH_IMAGE : string) (ord : RangeOrder) (c : dotmeshController)
    (updatesNeeded : bool) : bool * M unit :=
  let needed := updatesNeeded in
  (false,
   if needed
   then λ tr, match process DOTMESH_IMAGE ord c tr with
              | (tr', Fail e) => glog_Error e tr'
              | outcome => outcome
              end
   else M_ret tt).

(** ** The client library, [pkg/client/api.go] *)

(** [strings.Split(s, sep)] for a separator of one byte: the pieces of [s]
    between the separators, one more piece than there are separators. *)
Fixpoint strings_Split (s : string) (sep : Ascii.ascii) : list string :=
  match s with
  | EmptyString => [EmptyString]
  | String ch s' =>
      if Ascii.eqb ch sep then EmptyString :: strings_Split s' sep
      else match strings_Split s' sep with
           | part :: parts => String ch part :: parts
           | [] => [String ch EmptyString]
           end
  end.

(** [strings.Count(s, sep)] for a separator of one byte. *)
Fixpoint strings_Count (s : string) (sep : Ascii.ascii) : nat :=
  match s with
  | EmptyString => 0
  | String ch s' => (if Ascii.eqb ch sep then 1 else 0) + strings_Count s' sep
  end.

Definition ParseNamespacedVolumeWithDefault (name defaultNamespace : string)
  : res (string * string) :=
  let parts := strings_Split name "/"%char in
  match parts with
  | [] => Ret ("", "")                          (* case 0: name was empty *)
  | [_] => Ret (defaultNamespace, name)         (* case 1: unqualified *)
  | [namespace; volume] => Ret (namespace, volume)   (* case 2: qualified *)
  | _ => Fail ("Volume names must be of the form NAMESPACE/VOLUME or just VOLUME: '"
               +:+ name +:+ "'")
  end.

Definition ParseNamespacedVolume (name : string) : res (string * string) :=
  ParseNamespacedVolumeWithDefault name "admin".

(** [time.Duration(try) * delay]: a product of 64-bit integers. *)
Definition int64 (z : Z) : Z := (z + 2 ^ 63) mod 2 ^ 64 - 2 ^ 63.

(** [retryUntilSucceeds].  The closure [f] acts on a state and returns
    an error or nil; the result is the state after the last call, the
    durations slept, in order, and the error returned.  [loop] is the
    [for] statement from [try] on, with [remaining = retries - try]
    iterations to go. *)
Section retry.

Context {State : Type}.
Variable f : State → State * option error.
Variable delay : Z.

Fixpoint retryLoop (remaining : nat) (try : Z) (err : option error) (s : State)
  : State * list Z * option error :=
  match remaining with
  | O => (s, [], err)
  | S remaining' =>
      let '(s', err') := f s in
      match err' with
      | Some e =>
          let '(s'', sleeps, r) := retryLoop remaining' (try + 1) (Some e) s' in
          (s'', int64 (try * delay) :: sleeps, r)
      | None => (s', [], None)
      end
  end.

Definition retryUntilSucceeds (retries : Z) (s : State) : State * list Z * option error :=
  retryLoop (Z.to_nat retries) 0 None s.

(** The state after [k] calls of [f], and what call number [k] (from 0)
    returns. *)
Fixpoint stateAfter (k : nat) (s : State) : State :=
  match k with
  | O => s
  | S k' => (f (stateAfter k' s)).1
  end.

Definition answer (k : nat) (s : State) : option error := (f (stateAfter k s)).2.

End retry.

(** ** Predicates for the statements about the pass *)

#[global] Instance labelledOk_dec (node : Node.t) : Decision (labelledOk node).
Proof. unfold labelledOk. apply _. Defined.

(** A pod bound to [boundNode] that fails one of the checks after which
    the classification loop suspends the node. *)
Definition suspends (DOTMESH_IMAGE : string) (validNodes : gset string)
    (dotmesh : Pod.t) (boundNode : string) : Prop :=
  PodSpec.NodeSelector (Pod.Spec dotmesh) !! DOTMESH_NODE_LABEL = Some boundNode
  ∧ ((∀ container, PodSpec.Containers (Pod.Spec dotmesh) ≠ [container])
     ∨ (∃ container, PodSpec.Containers (Pod.Spec dotmesh) = [container]
                     ∧ Container.Image container ≠ DOTMESH_IMAGE)
     ∨ (PodSpec.NodeName (Pod.Spec dotmesh) ≠ ""
        ∧ PodSpec.NodeName (Pod.Spec dotmesh) ≠ boundNode)
     ∨ (boundNode ∈ validNodes
        ∧ PodStatus.Phase (Pod.Status dotmesh) = v1.PodFailed)).

(** ** What the informers list and watch *)

Module ListOptions.
Record t := mk {
  LabelSelector : string;
  FieldSelector : string;
  ResourceVersion : string }.
End ListOptions.

(** The options [lo2] that [ListFunc] and [WatchFunc] of the node informer
    pass on: a copy of [lo], with the configured selector when it is not
    empty. *)
Definition nodeListOptions (c : dotmeshController) (lo : ListOptions.t) : ListOptions.t :=
  if bool_decide (configValue c CONFIG_NODE_SELECTOR ≠ "")
  then ListOptions.mk (configValue c CONFIG_NODE_SELECTOR)
                      (ListOptions.FieldSelector lo) (ListOptions.ResourceVersion lo)
  else lo.

(** The namespace and the options [dmLo] of the pod informer. *)
Definition podListOptions (lo : ListOptions.t) : string * ListOptions.t :=
  (DOTMESH_NAMESPACE,
   ListOptions.mk (DOTMESH_POD_ROLE_LABEL +:+ "=" +:+ DOTMESH_ROLE_SERVER)
                  (ListOptions.FieldSelector lo) (ListOptions.ResourceVersion lo)).

(** A selector that is one equality, [key=value], and labels that have
    that value under that key. *)
Definition selectedBy (selector : string) (labels : option (gmap string string)) : Prop :=
  ∃ key value, selector = key +:+ "=" +:+ value ∧ go_lookup labels key = Some value.

(** ** Clusters that refuse calls, for examples *)

(** A cluster without a ConfigMap that answers [e] to the mutating calls
    that [refused] selects, and accepts the others. *)
Definition refusing (refused : call → bool) (e : error) : kubernetes.Interface :=
  kubernetes.mk (λ _ _, Fail "configmap dotmesh/configuration not found")
                (λ _ call, if refused call then Some e else None).

Definition isNodesUpdate (c : call) : bool :=
  match c with Nodes_Update _ => true | _ => false end.

(** * Properties *)

(** ** float32: the minimum population is a floor *)

Section float32_facts.

Lemma digits2_pos_size p : digits2_pos p = Pos.size p.
Proof. induction p; simpl; congruence. Qed.

Lemma Zdigits2_log2 z : 0 < z → Zdigits2 z = Z.log2 z + 1.
Proof.
  destruct z as [|p|p]; try lia. intros _. simpl. rewrite digits2_pos_size.
  destruct p; simpl; lia.
Qed.

Lemma pow2_xO p : 2 ^ Z.pos p~0 = 2 ^ Z.pos p * 2 ^ Z.pos p.
Proof. rewrite <- Z.pow_add_r by lia. f_equal. lia. Qed.

Lemma pow2_xI p : 2 ^ Z.pos p~1 = 2 ^ Z.pos p * 2 ^ Z.pos p * 2.
Proof.
  replace (Z.pos p~1) with (Z.pos p + Z.pos p + 1) by lia.
  rewrite !Z.pow_add_r by lia. done.
Qed.

Lemma iter_pos_shr_1_exact p m :
  SpecFloat.iter_pos shr_1 p (Build_shr_record (m * 2 ^ Zpos p) false false)
  = Build_shr_record m false false.
Proof.
  assert (H1 : ∀ z, shr_1 (Build_shr_record (z * 2) false false)
                    = Build_shr_record z false false).
  { intros z. rewrite Z.mul_comm. by destruct z. }
  revert m. induction p as [p IH|p IH|]; intros m; cbn [SpecFloat.iter_pos].
  - rewrite pow2_xI, !Z.mul_assoc, H1, IH, IH. done.
  - rewrite pow2_xO, !Z.mul_assoc, IH, IH. done.
  - apply H1.
Qed.

Lemma binary_round_aux_exact (q : positive) (sh e : Z) :
  0 ≤ sh →
  sh = Z.max 0 (fexp 24 128 (Zdigits2 (Zpos q * 2 ^ sh) + e) - e) →
  e + sh ≤ 104 →
  binary_round_aux 24 128 false (Zpos q * 2 ^ sh) e loc_Exact
  = S754_finite false q (e + sh).
Proof.
  intros Hsh Heq Hmax.
  assert (Hpow : 0 < 2 ^ sh) by (apply Z.pow_pos_nonneg; lia).
  assert (Hd : Zdigits2 (Zpos q * 2 ^ sh) = Zdigits2 (Zpos q) + sh).
  { rewrite !Zdigits2_log2, Z.log2_mul_pow2 by lia. lia. }
  unfold binary_round_aux, shr_fexp. cbn [shr_record_of_loc].
  remember (fexp 24 128 (Zdigits2 (Zpos q * 2 ^ sh) + e) - e) as n eqn:Hn in *.
  assert (Hfst : shr (Build_shr_record (Zpos q * 2 ^ sh) false false) e n
                 = (Build_shr_record (Zpos q) false false, e + sh)).
  { unfold shr. destruct n as [|p|p].
    - replace sh with 0 by (clear -Heq; lia). simpl. f_equal; [f_equal|]; lia.
    - replace sh with (Z.pos p) by (clear -Heq; lia). by rewrite iter_pos_shr_1_exact.
    - replace sh with 0 by (clear -Heq; lia). simpl. f_equal; [f_equal|]; lia. }
  rewrite Hfst. cbn [round_nearest_even shr_m loc_of_shr_record shr_record_of_loc].
  remember (fexp 24 128 (Zdigits2 (Zpos q) + (e + sh)) - (e + sh)) as n' eqn:Hn'.
  assert (Hnn : n' = n - sh).
  { rewrite Hn', Hn, Hd.
    replace (Zdigits2 (Z.pos q) + (e + sh)) with (Zdigits2 (Z.pos q) + sh + e) by lia.
    lia. }
  assert (Hsnd : shr (Build_shr_record (Zpos q) false false) (e + sh) n'
                 = (Build_shr_record (Zpos q) false false, e + sh)).
  { unfold shr. destruct n' as [|p|p]; [done| |done]. lia. }
  rewrite Hsnd. cbn [shr_m].
  destruct (Z.leb_spec (e + sh) (128 - 24)); [done|lia].
Qed.

Lemma Zpos_iter_xO p k : Zpos (Pos.iter xO p k) = Zpos p * 2 ^ Zpos k.
Proof.
  rewrite (Pos.iter_swap_gen _ _ Zpos xO (Z.mul 2)) by done.
  change (Pos.iter (Z.mul 2) (Z.pos p) k) with (Z.shiftl (Z.pos p) (Z.pos k)).
  by rewrite Z.shiftl_mul_pow2.
Qed.

Lemma fexp32 e : -125 ≤ e → fexp 24 128 e = e - 24.
Proof. unfold fexp, emin. lia. Qed.

(** [float32(n)] is exact for a small positive [n]: the mantissa is [n]
    shifted up to 24 bits. *)
Lemma of_int_exact n :
  0 < n < 2 ^ 22 →
  ∃ k, 2 ≤ k ≤ 23
       ∧ float32.of_int n = S754_finite false (Z.to_pos (n * 2 ^ k)) (- k).
Proof.
  intros Hn. destruct n as [|p|p]; [lia| |lia].
  pose proof (Z.log2_spec (Z.pos p) ltac:(lia)) as Hlog.
  pose proof (Z.log2_nonneg (Z.pos p)) as Hlog0.
  assert (Hlt : Z.log2 (Z.pos p) < 22).
  { apply Z.log2_lt_pow2; lia. }
  set (k := 23 - Z.log2 (Z.pos p)).
  exists k. split; [lia|].
  unfold float32.of_int, binary_normalize, binary_round, float32.prec, float32.emax.
  change (Z.pos (digits2_pos p)) with (Zdigits2 (Z.pos p)).
  rewrite Zdigits2_log2, fexp32 by lia. unfold shl_align.
  destruct (Z.log2 (Z.pos p) + 1 + 0 - 24 - 0) as [|d|d] eqn:Hd; [lia|lia|].
  assert (Hk : Z.pos d = k) by lia.
  assert (Hq : Z.pos (Pos.iter xO p d) = Z.pos p * 2 ^ k).
  { by rewrite Zpos_iter_xO, Hk. }
  replace (Z.pos (Pos.iter xO p d)) with (Z.pos (Pos.iter xO p d) * 2 ^ 0) by lia.
  rewrite binary_round_aux_exact; [|lia| |lia].
  - f_equal; [|lia]. rewrite <- Hq. done.
  - rewrite Z.pow_0_r, Z.mul_1_r, Hq, Zdigits2_log2, Z.log2_mul_pow2 by lia.
    rewrite fexp32 by lia. lia.
Qed.

Lemma CLUSTER_MINIMUM_RATIO_eq :
  CLUSTER_MINIMUM_RATIO = S754_finite false 12582912 (-24).
Proof. reflexivity. Qed.

(** In a cluster of fewer than [2^22] nodes the float32 product is exact,
    and the minimum population is [floor (0.75 * n)]. *)
Lemma clusterMinimumPopulation_floor n :
  0 ≤ n < 2 ^ 22 → clusterMinimumPopulation n = 3 * n / 4.
Proof.
  intros Hn. destruct (decide (n = 0)) as [->|Hn0]; [done|].
  destruct (of_int_exact n) as (k & Hk & Hof); [lia|].
  unfold clusterMinimumPopulation. rewrite Hof, CLUSTER_MINIMUM_RATIO_eq.
  unfold float32.mul, SFmul. cbn [xorb].
  assert (Hpk : 0 < 2 ^ k) by (apply Z.pow_pos_nonneg; lia).
  pose proof (Z.log2_spec (3 * n) ltac:(lia)) as Hlog.
  pose proof (Z.log2_nonneg (3 * n)) as Hlog0.
  assert (Hlt : Z.log2 (3 * n) < 24).
  { apply Z.log2_lt_pow2; lia. }
  assert (Hge : 1 ≤ Z.log2 (3 * n)).
  { apply Z.log2_le_pow2; lia. }
  set (L := Z.log2 (3 * n)) in *.
  set (j := 23 - L).
  set (sh := L + k - 1).
  assert (Hpj : 0 < 2 ^ j) by (apply Z.pow_pos_nonneg; lia).
  assert (HP : Z.pos (12582912 * Z.to_pos (n * 2 ^ k))
               = Z.pos (Z.to_pos (3 * n * 2 ^ j)) * 2 ^ sh).
  { rewrite Pos2Z.inj_mul, !Z2Pos.id by lia.
    rewrite <- Z.mul_assoc, <- Z.pow_add_r by lia.
    replace (j + sh) with (22 + k) by lia.
    rewrite Z.pow_add_r by lia. change (2 ^ 22) with 4194304. lia. }
  rewrite HP, binary_round_aux_exact; [|lia| |lia].
  - cbn [float32.to_int cond_Zopp]. rewrite Z2Pos.id by lia.
    replace (-24 + - k + sh) with (- (j + 2)) by lia.
    rewrite Z.shiftl_opp_r, Z.shiftr_div_pow2 by lia.
    rewrite Z.pow_add_r by lia. change (2 ^ 2) with 4.
    rewrite (Z.mul_comm (2 ^ j) 4). apply Z.div_mul_cancel_r; lia.
  - rewrite Z2Pos.id by lia.
    rewrite Zdigits2_log2, Z.log2_mul_pow2, Z.log2_mul_pow2 by lia.
    fold L. rewrite fexp32 by lia. lia.
Qed.

End float32_facts.

(** ** The classification loop *)

Section classification.

Variable DOTMESH_IMAGE : string.
Variable validNodes : gset string.

Implicit Types (st : podsState) (dotmesh : Pod.t) (dotmeshes : list Pod.t).

Abbreviation podName dotmesh := (ObjectMeta.Name (Pod.ObjectMeta dotmesh)).
Abbreviation phase dotmesh := (PodStatus.Phase (Pod.Status dotmesh)).
Abbreviation boundTo dotmesh :=
  (PodSpec.NodeSelector (Pod.Spec dotmesh) !! DOTMESH_NODE_LABEL).

(** Each pod either passes every check, and its node is struck out of
    [undottedNodes], or it is marked to kill, with or without suspending
    the node it is bound to. *)
Lemma observePod_cases st dotmesh :
  let st1 := recordPhase (podName dotmesh) (phase dotmesh) st in
  (∃ boundNode, healthyOn DOTMESH_IMAGE validNodes dotmesh boundNode
                ∧ observePod DOTMESH_IMAGE validNodes st dotmesh = strikeOut boundNode st1)
  ∨ ((∀ boundNode, ¬ healthyOn DOTMESH_IMAGE validNodes dotmesh boundNode)
     ∧ (observePod DOTMESH_IMAGE validNodes st dotmesh = kill (podName dotmesh) st1
        ∨ ∃ boundNode, boundTo dotmesh = Some boundNode
            ∧ observePod DOTMESH_IMAGE validNodes st dotmesh
              = suspend boundNode (kill (podName dotmesh) st1))).
Proof.
  intros st1. unfold observePod, healthyOn. fold st1.
  destruct (boundTo dotmesh) as [boundNode|] eqn:Hsel; [|naive_solver].
  destruct (PodSpec.Containers (Pod.Spec dotmesh)) as [|container [|c2 cs]] eqn:Hcs;
    [naive_solver| |naive_solver].
  repeat case_bool_decide; simpl; try naive_solver.
  all: left; exists boundNode; split; [|done]; split_and!; eauto;
    destruct (decide (PodSpec.NodeName (Pod.Spec dotmesh) = ""));
    destruct (decide (PodSpec.NodeName (Pod.Spec dotmesh) = boundNode)); naive_solver.
Qed.

Lemma observePod_toKill_mono st dotmesh :
  dotmeshesToKill st ⊆ dotmeshesToKill (observePod DOTMESH_IMAGE validNodes st dotmesh).
Proof.
  destruct (observePod_cases st dotmesh) as [(b & _ & ->)|(_ & [->|(b & _ & ->)])];
    simpl; set_solver.
Qed.

Lemma observePod_undotted_mono st dotmesh :
  undottedNodes (observePod DOTMESH_IMAGE validNodes st dotmesh) ⊆ undottedNodes st.
Proof.
  destruct (observePod_cases st dotmesh) as [(b & _ & ->)|(_ & [->|(b & _ & ->)])];
    simpl; set_solver.
Qed.

(** A step changes [suspendedNodes] only by adding the node the pod is
    bound to, and only when it marks that pod to kill. *)
Lemma observePod_suspended st dotmesh :
  suspendedNodes (observePod DOTMESH_IMAGE validNodes st dotmesh) = suspendedNodes st
  ∨ ∃ boundNode,
      boundTo dotmesh = Some boundNode
      ∧ suspendedNodes (observePod DOTMESH_IMAGE validNodes st dotmesh)
        = {[ boundNode ]} ∪ suspendedNodes st
      ∧ podName dotmesh ∈ dotmeshesToKill (observePod DOTMESH_IMAGE validNodes st dotmesh).
Proof.
  destruct (observePod_cases st dotmesh) as [(b & _ & ->)|(_ & [->|(b & Hb & ->)])];
    simpl; [by left..|].
  right. exists b. split_and!; [done..|set_solver].
Qed.

(** The result of a step on a pod that fails a check has the pod marked;
    on a healthy pod the marks are unchanged. *)
Lemma observePod_toKill st dotmesh :
  ((∃ boundNode, healthyOn DOTMESH_IMAGE validNodes dotmesh boundNode)
   ∧ dotmeshesToKill (observePod DOTMESH_IMAGE validNodes st dotmesh) = dotmeshesToKill st)
  ∨ ((∀ boundNode, ¬ healthyOn DOTMESH_IMAGE validNodes dotmesh boundNode)
     ∧ dotmeshesToKill (observePod DOTMESH_IMAGE validNodes st dotmesh)
       = {[ podName dotmesh ]} ∪ dotmeshesToKill st).
Proof.
  destruct (observePod_cases st dotmesh) as [(b & Hh & ->)|(Hh & [->|(b & _ & ->)])];
    simpl; eauto.
Qed.

(** Induction over the loop: the pods seen so far and the state reached. *)
Lemma observePods_ind (P : list Pod.t → podsState → Prop) :
  P [] (initialPodsState validNodes) →
  (∀ seen st dotmesh,
     P seen st → P (seen ++ [dotmesh]) (observePod DOTMESH_IMAGE validNodes st dotmesh)) →
  ∀ dotmeshes, P dotmeshes (observePods DOTMESH_IMAGE validNodes dotmeshes).
Proof.
  intros Hnil Hstep dotmeshes. unfold observePods.
  induction dotmeshes as [|dotmesh seen IH] using rev_ind; [done|].
  rewrite foldl_app. simpl. by apply Hstep.
Qed.

(** Exactly the names of the pods that fail a check are marked. *)
Lemma observePods_toKill dotmeshes dotmeshName :
  dotmeshName ∈ dotmeshesToKill (observePods DOTMESH_IMAGE validNodes dotmeshes)
  ↔ ∃ dotmesh, dotmesh ∈ dotmeshes ∧ podName dotmesh = dotmeshName
               ∧ ∀ boundNode, ¬ healthyOn DOTMESH_IMAGE validNodes dotmesh boundNode.
Proof.
  revert dotmeshName.
  apply (observePods_ind (λ dotmeshes st, ∀ dotmeshName,
    dotmeshName ∈ dotmeshesToKill st
    ↔ ∃ dotmesh, dotmesh ∈ dotmeshes ∧ podName dotmesh = dotmeshName
                 ∧ ∀ boundNode, ¬ healthyOn DOTMESH_IMAGE validNodes dotmesh boundNode)).
  - simpl. set_solver.
  - intros seen st dotmesh IH dotmeshName. setoid_rewrite elem_of_app. setoid_rewrite list_elem_of_singleton.
    destruct (observePod_toKill st dotmesh) as [(Hh & ->)|(Hh & ->)];
      [rewrite IH|rewrite elem_of_union, IH, elem_of_singleton]; naive_solver.
Qed.

(** Every suspended node is the bound node of a pod marked to kill. *)
Lemma observePods_suspended dotmeshes boundNode :
  boundNode ∈ suspendedNodes (observePods DOTMESH_IMAGE validNodes dotmeshes) →
  ∃ dotmesh, dotmesh ∈ dotmeshes ∧ boundTo dotmesh = Some boundNode
             ∧ podName dotmesh
               ∈ dotmeshesToKill (observePods DOTMESH_IMAGE validNodes dotmeshes).
Proof.
  apply (observePods_ind (λ dotmeshes st,
    boundNode ∈ suspendedNodes st →
    ∃ dotmesh, dotmesh ∈ dotmeshes ∧ boundTo dotmesh = Some boundNode
               ∧ podName dotmesh ∈ dotmeshesToKill st)).
  - simpl. set_solver.
  - intros seen st dotmesh IH Hin. pose proof (observePod_toKill_mono st dotmesh) as Hmono.
    destruct (observePod_suspended st dotmesh) as [Heq|(b & Hb & Heq & Hk)];
      rewrite Heq in Hin.
    + destruct (IH Hin) as (p & ? & ? & ?). exists p. set_solver.
    + apply elem_of_union in Hin as [->%elem_of_singleton|Hin].
      * exists dotmesh. set_solver.
      * destruct (IH Hin) as (p & ? & ? & ?). exists p. set_solver.
Qed.

(** The nodes left in [undottedNodes] are the valid nodes to which no
    healthy pod is bound. *)
Lemma observePods_undotted dotmeshes node :
  node ∈ undottedNodes (observePods DOTMESH_IMAGE validNodes dotmeshes)
  ↔ node ∈ validNodes
    ∧ ∀ dotmesh, dotmesh ∈ dotmeshes → ¬ healthyOn DOTMESH_IMAGE validNodes dotmesh node.
Proof.
  apply (observePods_ind (λ dotmeshes st,
    node ∈ undottedNodes st
    ↔ node ∈ validNodes
      ∧ ∀ dotmesh, dotmesh ∈ dotmeshes
                   → ¬ healthyOn DOTMESH_IMAGE validNodes dotmesh node)).
  - simpl. set_solver.
  - intros seen st dotmesh IH.
    setoid_rewrite elem_of_app. setoid_rewrite list_elem_of_singleton.
    destruct (observePod_cases st dotmesh) as [(b & Hh & ->)|(Hh & [->|(b & _ & ->)])];
      simpl; [|naive_solver..].
    rewrite elem_of_difference, elem_of_singleton, IH.
    split.
    + intros ((Hv & Hs) & Hne). split; [done|]. intros p [Hp| ->]; [by apply Hs|].
      intros Hh'. destruct Hh as (Hb & _), Hh' as (Hb' & _). congruence.
    + intros (Hv & Hs). split_and!; [done|naive_solver|]. intros ->. naive_solver.
Qed.

Lemma observePods_runningPodCount dotmeshes :
  0 ≤ runningPodCount (observePods DOTMESH_IMAGE validNodes dotmeshes).
Proof.
  apply (observePods_ind (λ _ st, 0 ≤ runningPodCount st)); [done|].
  intros seen st dotmesh IH.
  destruct (observePod_cases st dotmesh) as [(b & Hh & ->)|(Hh & [->|(b & _ & ->)])];
    simpl; case_bool_decide; lia.
Qed.

End classification.

(** ** The deletion decisions *)

Section deletion.

Variable st : podsState.
Variable minimum : Z.

Lemma runningIn_nil : runningIn st [] = 0.
Proof. done. Qed.

Lemma runningIn_cons dotmeshName names :
  runningIn st (dotmeshName :: names)
  = (if isRunning st dotmeshName then 1 else 0) + runningIn st names.
Proof. unfold runningIn. simpl. destruct (isRunning st dotmeshName); simpl; lia. Qed.

Lemma runningIn_app names1 names2 :
  runningIn st (names1 ++ names2) = runningIn st names1 + runningIn st names2.
Proof. unfold runningIn. rewrite List.filter_app, length_app. lia. Qed.

Lemma runningIn_nonneg names : 0 ≤ runningIn st names.
Proof. unfold runningIn. lia. Qed.

(** Only names of the list are deleted. *)
Lemma doomed_subset names population dotmeshName :
  dotmeshName ∈ doomed st minimum names population → dotmeshName ∈ names.
Proof.
  revert population. induction names as [|name names IH]; intros population; simpl.
  - set_solver.
  - destruct (negb (isRunning st name) || (minimum <? population)); set_solver.
Qed.

(** A pod that is not Running is deleted, whatever the population. *)
Lemma doomed_not_running names population dotmeshName :
  dotmeshName ∈ names → isRunning st dotmeshName = false →
  dotmeshName ∈ doomed st minimum names population.
Proof.
  revert population. induction names as [|name names IH]; intros population Hin Hr.
  - set_solver.
  - simpl. apply elem_of_cons in Hin as [<-|Hin].
    + rewrite Hr. simpl. set_solver.
    + destruct (negb (isRunning st name) || (minimum <? population)); set_solver.
Qed.

(** A Running pod is deleted only while the population, less the Running
    pods deleted before it, exceeds the minimum. *)
Lemma doomed_running_above names population before dotmeshName after :
  doomed st minimum names population = before ++ dotmeshName :: after →
  isRunning st dotmeshName = true →
  minimum < population - runningIn st before.
Proof.
  revert population before.
  induction names as [|name names IH]; intros population before Heq Hr; simpl in Heq.
  - by destruct before.
  - destruct (isRunning st name) eqn:Hname; simpl in Heq.
    + destruct (minimum <? population) eqn:Hlt; [|by eapply IH].
      apply Z.ltb_lt in Hlt.
      destruct before as [|b before]; simpl in Heq.
      * rewrite runningIn_nil. lia.
      * injection Heq as <- Heq. rewrite runningIn_cons, Hname.
        specialize (IH _ _ Heq Hr). lia.
    + destruct before as [|b before]; simpl in Heq.
      * injection Heq as <- Heq. congruence.
      * injection Heq as <- Heq. rewrite runningIn_cons, Hname.
        specialize (IH _ _ Heq Hr). lia.
Qed.

(** The rate limit: the Running pods deleted are at most the excess of
    the population over the minimum. *)
Lemma doomed_bound names population :
  runningIn st (doomed st minimum names population) ≤ Z.max 0 (population - minimum).
Proof.
  revert population. induction names as [|name names IH]; intros population; simpl.
  - rewrite runningIn_nil. lia.
  - destruct (isRunning st name) eqn:Hname; simpl.
    + destruct (minimum <? population) eqn:Hlt.
      * apply Z.ltb_lt in Hlt. rewrite runningIn_cons, Hname.
        specialize (IH (population - 1)). lia.
      * apply IH.
    + rewrite runningIn_cons, Hname. apply IH.
Qed.

(** A Running pod is spared only when the population has come down to
    the minimum. *)
Lemma doomed_spared names population dotmeshName :
  dotmeshName ∈ names → isRunning st dotmeshName = true →
  dotmeshName ∉ doomed st minimum names population →
  population - runningIn st (doomed st minimum names population) ≤ minimum.
Proof.
  revert population. induction names as [|name names IH]; intros population Hin Hr Hnot.
  - set_solver.
  - simpl in *. destruct (isRunning st name) eqn:Hname; simpl in *.
    + destruct (minimum <? population) eqn:Hlt.
      * rewrite runningIn_cons, Hname.
        apply not_elem_of_cons in Hnot as [Hne Hnot].
        apply elem_of_cons in Hin as [->|Hin]; [done|].
        specialize (IH (population - 1) Hin Hr Hnot). lia.
      * apply Z.ltb_ge in Hlt.
        pose proof (runningIn_nonneg (doomed st minimum names population)). lia.
    + rewrite runningIn_cons, Hname.
      apply not_elem_of_cons in Hnot as [Hne Hnot].
      apply elem_of_cons in Hin as [->|Hin]; [done|].
      specialize (IH population Hin Hr Hnot). lia.
Qed.

End deletion.

(** ** The loops that issue calls *)

Section loops.

Variable DOTMESH_IMAGE : string.
Variable c : dotmeshController.

Lemma calls_app tr1 tr2 : calls (tr1 ++ tr2) = calls tr1 ++ calls tr2.
Proof. apply omap_app. Qed.

Lemma deletedNames_app tr1 tr2 :
  deletedNames (tr1 ++ tr2) = deletedNames tr1 ++ deletedNames tr2.
Proof. unfold deletedNames. by rewrite calls_app, omap_app. Qed.

Lemma createdPods_app tr1 tr2 :
  createdPods (tr1 ++ tr2) = createdPods tr1 ++ createdPods tr2.
Proof. unfold createdPods. by rewrite calls_app, omap_app. Qed.

Lemma updatedNodes_app tr1 tr2 :
  updatedNodes (tr1 ++ tr2) = updatedNodes tr1 ++ updatedNodes tr2.
Proof. unfold updatedNodes. by rewrite calls_app, omap_app. Qed.

Lemma omap_map_Some {A B} (f : B → option A) (g : A → B) (l : list A) :
  (∀ x, f (g x) = Some x) → omap f (map g l) = l.
Proof.
  intros Hfg. induction l as [|x l IH]; [done|].
  csimpl. rewrite Hfg. by f_equal.
Qed.

Lemma omap_map_None {A B C} (f : B → option C) (g : A → B) (l : list A) :
  (∀ x, f (g x) = None) → omap f (map g l) = [].
Proof.
  intros Hfg. induction l as [|x l IH]; [done|].
  csimpl. by rewrite Hfg.
Qed.

Lemma errorsLogged_app tr1 tr2 :
  errorsLogged tr1 = true → errorsLogged tr2 = true → errorsLogged (tr1 ++ tr2) = true.
Proof.
  intros H1 H2. induction tr1 as [|ev tr1 IH]; [done|].
  destruct ev as [call [e|]|e]; simpl in *; [|by auto..].
  destruct tr1 as [|[|e'] tr1]; simpl in *; try done.
  apply andb_prop in H1 as [-> H1]. simpl. by apply IH.
Qed.

Lemma errorsLogged_tail ev tr : errorsLogged (ev :: tr) = true → errorsLogged tr = true.
Proof.
  destruct ev as [call [e|]|e]; simpl; [|done..].
  destruct tr as [|[|e'] tr]; try done. by intros [_ ?]%andb_prop.
Qed.

(** What [errorsLogged] says, spelt out. *)
Lemma errorsLogged_split tr before call e after :
  errorsLogged tr = true →
  tr = before ++ ApiCall call (Some e) :: after →
  ∃ after', after = LogError e :: after'.
Proof.
  revert tr. induction before as [|ev before IH]; intros tr Hlog ->; simpl in *.
  - destruct after as [|[|e'] after]; try done.
    apply andb_prop in Hlog as [->%bool_decide_eq_true _]. eauto.
  - apply errorsLogged_tail in Hlog. by eapply IH.
Qed.

Lemma allSucceeded_errorsLogged tr : allSucceeded tr → errorsLogged tr = true.
Proof.
  intros Hok. induction tr as [|ev tr IH]; [done|].
  assert (allSucceeded tr) by (intros call e ?; eapply Hok; by right).
  destruct ev as [call [e|]|e]; simpl; [|by auto..].
  destruct (Hok call e). by left.
Qed.

Lemma elem_of_calls tr call err : ApiCall call err ∈ tr → call ∈ calls tr.
Proof. intros Hin. apply list_elem_of_omap. by exists (ApiCall call err). Qed.

Lemma allSucceeded_app tr1 tr2 :
  allSucceeded (tr1 ++ tr2) ↔ allSucceeded tr1 ∧ allSucceeded tr2.
Proof. unfold allSucceeded. setoid_rewrite elem_of_app. naive_solver. Qed.

(** The deletion loop always runs to its end; it deletes the [doomed]
    names, whatever the cluster answers, and logs every failure. *)
Lemma deletePods_spec st minimum names population tr0 :
  ∃ evs,
    deletePods c st minimum names population tr0
    = (tr0 ++ evs, Ret (population - runningIn st (doomed st minimum names population)))
    ∧ calls evs = map deletePod (doomed st minimum names population)
    ∧ errorsLogged evs = true.
Proof.
  revert population tr0.
  induction names as [|name names IH]; intros population tr0; simpl.
  - exists []. rewrite app_nil_r, runningIn_nil, Z.sub_0_r. done.
  - destruct (negb (isRunning st name) || (minimum <? population)) eqn:Hdel.
    + unfold M_bind at 1. unfold M_bind at 1. unfold api at 1.
      set (call := Pods_Delete _ _ _).
      destruct (kubernetes.Mutate (client c) tr0 call) as [e|] eqn:Herr; simpl.
      * edestruct IH as (evs & -> & Hcalls & Hlog).
        exists (ApiCall call (Some e) :: LogError e :: evs). split_and!.
        -- rewrite runningIn_cons. f_equal.
           { by rewrite <- !app_assoc. }
           f_equal. destruct (isRunning st name); lia.
        -- simpl. by rewrite <- Hcalls.
        -- simpl. rewrite bool_decide_true by done. done.
      * edestruct IH as (evs & -> & Hcalls & Hlog).
        exists (ApiCall call None :: evs). split_and!.
        -- rewrite runningIn_cons. f_equal.
           { by rewrite <- !app_assoc. }
           f_equal. destruct (isRunning st name); lia.
        -- simpl. by rewrite <- Hcalls.
        -- done.
    + apply IH.
Qed.

(** The creation loop always runs to its end; it creates a pod for each
    node that is not suspended, and logs every failure. *)
Lemma createPods_spec st nodes tr0 :
  ∃ evs,
    createPods DOTMESH_IMAGE c st nodes tr0 = (tr0 ++ evs, Ret tt)
    ∧ calls evs
      = map (λ node, Pods_Create DOTMESH_NAMESPACE (newDotmesh DOTMESH_IMAGE c node))
            (filter (λ node, node ∉ suspendedNodes st) nodes)
    ∧ errorsLogged evs = true.
Proof.
  revert tr0. induction nodes as [|node nodes IH]; intros tr0; simpl.
  - exists []. by rewrite app_nil_r.
  - rewrite filter_cons. case_bool_decide as Hs.
    + rewrite decide_False by tauto. apply IH.
    + rewrite decide_True by done.
      unfold M_bind at 1. unfold M_bind at 1. unfold api at 1.
      set (call := Pods_Create _ _).
      destruct (kubernetes.Mutate (client c) tr0 call) as [e|] eqn:Herr; simpl.
      * edestruct IH as (evs & -> & Hcalls & Hlog).
        exists (ApiCall call (Some e) :: LogError e :: evs). split_and!.
        -- by rewrite <- !app_assoc.
        -- simpl. by rewrite <- Hcalls.
        -- simpl. rewrite bool_decide_true by done. done.
      * edestruct IH as (evs & -> & Hcalls & Hlog).
        exists (ApiCall call None :: evs). split_and!.
        -- by rewrite <- !app_assoc.
        -- simpl. by rewrite <- Hcalls.
        -- done.
Qed.

(** The labelling loop issues node updates only.  It ends at the first
    update that fails, with that error; it panics at a node without its
    label whose label map is nil. *)
Lemma labelNodes_spec nodes tr0 :
  ∃ evs r,
    labelNodes c nodes tr0 = (tr0 ++ evs, r)
    ∧ calls evs = map Nodes_Update (updatedNodes evs)
    ∧ match r with
      | Ret _ => allSucceeded evs
      | Fail e => ∃ evs' n2, evs = evs' ++ [ApiCall (Nodes_Update n2) (Some e)]
                             ∧ allSucceeded evs'
      | Panic _ => allSucceeded evs
      end.
Proof.
  assert (Hnil : allSucceeded []) by (intros ? ? ?%elem_of_nil; done).
  assert (Hcons : ∀ call evs, allSucceeded evs → allSucceeded (ApiCall call None :: evs)).
  { intros call evs Hevs c0 e [?|?]%elem_of_cons; [done|]. by eapply Hevs. }
  revert tr0. induction nodes as [|node nodes IH]; intros tr0; simpl.
  - exists [], (Ret tt). by rewrite app_nil_r.
  - case_bool_decide as Hok; [apply IH|].
    unfold M_bind at 1, M_lift, go_assign.
    destruct (ObjectMeta.Labels (Node.ObjectMeta node)) as [labels|].
    2:{ exists [], (Panic "assignment to entry in nil map"). by rewrite app_nil_r. }
    unfold M_bind at 1, api at 1.
    set (call := Nodes_Update _).
    destruct (kubernetes.Mutate (client c) tr0 call) as [e|] eqn:Herr.
    + exists [ApiCall call (Some e)], (Fail e). split_and!; [done..|].
      exists [], (setLabels node
        (Some (<[DOTMESH_NODE_LABEL:=ObjectMeta.Name (Node.ObjectMeta node)]> labels))).
      done.
    + edestruct IH as (evs & r & -> & Hcalls & Hr).
      exists (ApiCall call None :: evs), r. split_and!.
      * by rewrite <- !app_assoc.
      * unfold updatedNodes in *. subst call. csimpl. by f_equal.
      * destruct r as [[]|e|msg]; [by apply Hcons| |by apply Hcons].
        destruct Hr as (evs' & n2 & -> & Hevs').
        exists (ApiCall call None :: evs'), n2. split; [done|by apply Hcons].
Qed.

(** When every listed node carries its label, no update is issued. *)
Lemma labelNodes_labelled nodes tr0 :
  Forall labelledOk nodes → labelNodes c nodes tr0 = (tr0, Ret tt).
Proof.
  induction 1 as [|node nodes Hok _ IH]; simpl; [done|].
  by rewrite bool_decide_true.
Qed.

(** The shape of a pass: the labelling loop, and when it has come to its
    end, the deletions and then the creations, with [Ret] as the result
    whatever these calls answered. *)
Lemma process_spec ord nodes dotmeshes :
  nodeLister c = Ret nodes → podLister c = Ret dotmeshes →
  let validNodes := observeNodes nodes in
  let st := observePods DOTMESH_IMAGE validNodes dotmeshes in
  let minimum := clusterMinimumPopulation (Z.of_nat (size validNodes)) in
  ∃ evA rA,
    labelNodes c nodes [] = (evA, rA)
    ∧ calls evA = map Nodes_Update (updatedNodes evA)
    ∧ match rA with
      | Ret _ => allSucceeded evA
      | Fail e => ∃ evs' n2, evA = evs' ++ [ApiCall (Nodes_Update n2) (Some e)]
                             ∧ allSucceeded evs'
      | Panic _ => allSucceeded evA
      end
    ∧ match rA with
      | Ret _ =>
          ∃ evC evD,
            run DOTMESH_IMAGE ord c = (evA ++ evC ++ evD, Ret tt)
            ∧ calls evC
              = map deletePod (doomed st minimum (rangeToKill ord (dotmeshesToKill st))
                                      (runningPodCount st))
            ∧ calls evD
              = map (λ node, Pods_Create DOTMESH_NAMESPACE (newDotmesh DOTMESH_IMAGE c node))
                    (filter (λ node, node ∉ suspendedNodes st)
                            (rangeUndotted ord (undottedNodes st)))
            ∧ errorsLogged (evC ++ evD) = true
      | Fail e => run DOTMESH_IMAGE ord c = (evA, Fail e)
      | Panic msg => run DOTMESH_IMAGE ord c = (evA, Panic msg)
      end.
Proof.
  intros Hnodes Hpods validNodes st minimum.
  destruct (labelNodes_spec nodes []) as (evA & rA & HA & HcA & HrA). simpl in HA.
  exists evA, rA. split_and!; [done..|].
  unfold run, process. rewrite Hnodes, Hpods.
  unfold M_bind, M_lift. rewrite HA.
  destruct rA as [[]|e|msg]; [|done..].
  fold validNodes. fold st. fold minimum.
  edestruct (deletePods_spec st minimum (rangeToKill ord (dotmeshesToKill st))
               (runningPodCount st) evA) as (evC & -> & HcC & HlC).
  edestruct (createPods_spec st (rangeUndotted ord (undottedNodes st)) (evA ++ evC))
    as (evD & -> & HcD & HlD).
  exists evC, evD. rewrite <- app_assoc. split_and!; [done..|].
  by apply errorsLogged_app.
Qed.

(** What a pass deletes and creates: the [doomed] names and a pod for
    every undotted node that is not suspended when the labelling loop came
    to its end, and nothing otherwise. *)
Lemma run_summary ord nodes dotmeshes :
  nodeLister c = Ret nodes → podLister c = Ret dotmeshes →
  let validNodes := observeNodes nodes in
  let st := observePods DOTMESH_IMAGE validNodes dotmeshes in
  let minimum := clusterMinimumPopulation (Z.of_nat (size validNodes)) in
  let tr := (run DOTMESH_IMAGE ord c).1 in
  let r := (run DOTMESH_IMAGE ord c).2 in
  (r = Ret tt
   ∧ deletedNames tr
     = doomed st minimum (rangeToKill ord (dotmeshesToKill st)) (runningPodCount st)
   ∧ createdPods tr
     = map (newDotmesh DOTMESH_IMAGE c)
           (filter (λ node, node ∉ suspendedNodes st)
                   (rangeUndotted ord (undottedNodes st))))
  ∨ (r ≠ Ret tt ∧ deletedNames tr = [] ∧ createdPods tr = []).
Proof.
  intros Hnodes Hpods validNodes st minimum tr r.
  destruct (process_spec ord nodes dotmeshes Hnodes Hpods)
    as (evA & rA & HA & HcA & _ & Hrun).
  assert (HdA : deletedNames evA = []).
  { unfold deletedNames. rewrite HcA. by apply omap_map_None. }
  assert (HkA : createdPods evA = []).
  { unfold createdPods. rewrite HcA. by apply omap_map_None. }
  subst tr r. destruct rA as [[]|e|msg].
  - left. destruct Hrun as (evC & evD & -> & HcC & HcD & _). simpl.
    rewrite !deletedNames_app, !createdPods_app, HdA, HkA. simpl.
    unfold deletedNames, createdPods. rewrite HcC, HcD. split_and!; [done|..].
    + rewrite (omap_map_None deletedName (λ node, Pods_Create _ _)) by done.
      rewrite app_nil_r. by apply omap_map_Some.
    + rewrite (omap_map_None createdPod deletePod) by done. simpl.
      rewrite <- (map_map (newDotmesh DOTMESH_IMAGE c) (Pods_Create DOTMESH_NAMESPACE)).
      by apply omap_map_Some.
  - right. by rewrite Hrun.
  - right. by rewrite Hrun.
Qed.

End loops.

(** ** The configuration resolver *)

Section resolver.

Implicit Types (d : gmap string string) (kvs : list (string * string)).

(** On a map that is not nil, [provideDefault] keeps a value that is
    there and inserts the default otherwise. *)
Lemma provideDefault_Some d key deflt :
  provideDefault (Some d) key deflt
  = Ret (Some (match d !! key with Some _ => d | None => <[key := deflt]> d end)).
Proof. unfold provideDefault, go_lookup, go_assign. by destruct (d !! key). Qed.

(** On a nil map it panics. *)
Lemma provideDefault_nil key deflt :
  provideDefault None key deflt = Panic "assignment to entry in nil map".
Proof. done. Qed.

Lemma provideDefaults_Some d kvs :
  ∃ d', provideDefaults (Some d) kvs = Ret (Some d')
        ∧ (∀ key value, d !! key = Some value → d' !! key = Some value)
        ∧ (∀ key, key ∉ kvs.*1 → d' !! key = d !! key)
        ∧ (NoDup kvs.*1 →
           ∀ key deflt, (key, deflt) ∈ kvs → d' !! key = Some (default deflt (d !! key))).
Proof.
  revert d. induction kvs as [|[key0 deflt0] kvs IH]; intros d; simpl.
  - exists d. split_and!; [done..|]. by intros _ ? ? ?%elem_of_nil.
  - rewrite provideDefault_Some.
    set (d1 := match d !! key0 with Some _ => d | None => <[key0 := deflt0]> d end).
    assert (Hkeep : ∀ key value, d !! key = Some value → d1 !! key = Some value).
    { intros key value Hkey. subst d1. destruct (d !! key0) eqn:Hk0; [done|].
      rewrite lookup_insert_ne; [done|]. congruence. }
    assert (Hother : ∀ key, key ≠ key0 → d1 !! key = d !! key).
    { intros key Hne. subst d1. destruct (d !! key0); [done|].
      by rewrite lookup_insert_ne. }
    assert (Hkey0 : d1 !! key0 = Some (default deflt0 (d !! key0))).
    { subst d1. destruct (d !! key0) eqn:Hk0; [done|]. simpl. apply lookup_insert_eq. }
    destruct (IH d1) as (d' & -> & Hkeep' & Hother' & Hdef').
    exists d'. split_and!; [done|..].
    + intros key value Hkey. by apply Hkeep', Hkeep.
    + intros key Hnot. apply not_elem_of_cons in Hnot as [Hne Hnot].
      by rewrite Hother', Hother.
    + intros [Hfresh Hnodup]%NoDup_cons key deflt [Heq|Hin]%elem_of_cons.
      * injection Heq as -> ->. by rewrite Hother', Hkey0.
      * rewrite (Hdef' Hnodup key deflt Hin).
        assert (key ≠ key0).
        { intros ->. apply Hfresh. apply list_elem_of_fmap. by exists (key0, deflt). }
        by rewrite Hother.
Qed.

Lemma defaults_NoDup : NoDup defaults.*1.
Proof. apply (bool_decide_unpack (NoDup defaults.*1)). by vm_compute. Qed.

(** Construction succeeds whenever the fetch fails or the fetched map is
    not nil, and then every key of the defaults table has the fetched
    value, or its default when the ConfigMap has none. *)
Lemma newDotmeshController_resolved client nodeIndexer podIndexer d :
  fetchedData client = Some d →
  ∃ c, newDotmeshController client nodeIndexer podIndexer = Ret c
       ∧ (∀ key deflt, (key, deflt) ∈ defaults →
            go_index (ConfigMap.Data (config c)) key = default deflt (d !! key))
       ∧ (∀ key value, d !! key = Some value →
            go_lookup (ConfigMap.Data (config c)) key = Some value).
Proof.
  unfold fetchedData, newDotmeshController. intros Hfetch.
  destruct (provideDefaults_Some d defaults) as (d' & Hd' & Hkeep & _ & Hdef).
  destruct (kubernetes.ConfigMaps_Get client DOTMESH_NAMESPACE DOTMESH_CONFIG_MAP)
    as [[data]|e|msg]; simpl in Hfetch; [subst data|injection Hfetch as <-|done].
  all: cbv beta zeta; cbn [ConfigMap.Data]; rewrite Hd'; eexists; split; [done|];
    cbn [config ConfigMap.Data]; split.
  all: try (intros key deflt Hin; unfold go_index; cbn [go_lookup];
            by rewrite (Hdef defaults_NoDup key deflt Hin)).
  all: intros key value Hkey; by apply Hkeep.
Qed.

Lemma newDotmeshController_returns client nodeIndexer podIndexer c :
  newDotmeshController client nodeIndexer podIndexer = Ret c →
  ∃ d, fetchedData client = Some d.
Proof.
  unfold fetchedData, newDotmeshController.
  destruct (kubernetes.ConfigMaps_Get client DOTMESH_NAMESPACE DOTMESH_CONFIG_MAP)
    as [[[data|]]|e|msg]; simpl; eauto; done.
Qed.

End resolver.

(** * The claims *)

Section claims.

Variable DOTMESH_IMAGE : string.

Lemma elem_of_rangeToKill (ord : RangeOrder) (names : gset string) dotmeshName :
  dotmeshName ∈ rangeToKill ord names ↔ dotmeshName ∈ names.
Proof. by rewrite (rangeToKill_perm ord names), elem_of_elements. Qed.

Lemma elem_of_rangeUndotted (ord : RangeOrder) (nodes : gset string) node :
  node ∈ rangeUndotted ord nodes ↔ node ∈ nodes.
Proof. by rewrite (rangeUndotted_perm ord nodes), elem_of_elements. Qed.

(** The deletions of a pass, against the minimum population as the code
    computes it. *)
Lemma deletion_facts (ord : RangeOrder) (c : dotmeshController)
    (nodes : list Node.t) (dotmeshes : list Pod.t) :
  nodeLister c = Ret nodes →
  podLister c = Ret dotmeshes →
  let validNodes := observeNodes nodes in
  let st := observePods DOTMESH_IMAGE validNodes dotmeshes in
  let minimumPopulation := clusterMinimumPopulation (Z.of_nat (size validNodes)) in
  let tr := (run DOTMESH_IMAGE ord c).1 in
  let r := (run DOTMESH_IMAGE ord c).2 in
  (∀ dotmeshName, dotmeshName ∈ deletedNames tr → dotmeshName ∈ dotmeshesToKill st)
  ∧ (r = Ret tt →
     ∀ dotmeshName, dotmeshName ∈ dotmeshesToKill st →
       isRunning st dotmeshName = false → dotmeshName ∈ deletedNames tr)
  ∧ (∀ before dotmeshName after,
       deletedNames tr = before ++ dotmeshName :: after →
       isRunning st dotmeshName = true →
       minimumPopulation < runningPodCount st - runningIn st before)
  ∧ (r = Ret tt →
     ∀ dotmeshName, dotmeshName ∈ dotmeshesToKill st →
       isRunning st dotmeshName = true → dotmeshName ∉ deletedNames tr →
       runningPodCount st - runningIn st (deletedNames tr) ≤ minimumPopulation)
  ∧ runningIn st (deletedNames tr) ≤ Z.max 0 (runningPodCount st - minimumPopulation).
Proof.
  intros Hnodes Hpods validNodes st minimumPopulation tr r.
  pose proof (run_summary DOTMESH_IMAGE c ord nodes dotmeshes Hnodes Hpods) as Hrun.
  cbv zeta in Hrun. fold validNodes st tr r minimumPopulation in Hrun.
  destruct Hrun as [(Hr & Hdel & _)|(Hr & Hdel & _)]; rewrite Hdel.
  - split_and!.
    + intros name Hin%doomed_subset. by apply elem_of_rangeToKill in Hin.
    + intros _ name Hin Hrunning. apply doomed_not_running; [|done].
      by apply elem_of_rangeToKill.
    + intros before name after Heq Hrunning. by eapply doomed_running_above.
    + intros _ name Hin Hrunning Hspared. eapply doomed_spared; [|done..].
      by apply elem_of_rangeToKill.
    + apply doomed_bound.
  - split_and!.
    + intros name ?%elem_of_nil. done.
    + done.
    + intros [|??] ? ? ?; done.
    + done.
    + rewrite runningIn_nil. lia.
Qed.

(** C1.  In a pass over a cluster of fewer than [2^22] nodes (where the
    float32 product [0.75 * len(validNodes)] is exact), with
    [minimumPopulation = floor (0.75 * |validNodes|)]: only pods marked to
    kill are deleted; a marked pod that is not Running is deleted
    unconditionally; a Running pod is deleted only when the running
    population, decremented by the Running pods deleted before it, exceeds
    the minimum, and spared only when that population has come down to the
    minimum; so the Running pods deleted are at most
    [max 0 (runningPods - minimumPopulation)]. *)
Theorem C1_rate_limited_deletion (ord : RangeOrder) (c : dotmeshController)
    (nodes : list Node.t) (dotmeshes : list Pod.t) :
  nodeLister c = Ret nodes →
  podLister c = Ret dotmeshes →
  Z.of_nat (size (observeNodes nodes)) < 2 ^ 22 →
  let validNodes := observeNodes nodes in
  let st := observePods DOTMESH_IMAGE validNodes dotmeshes in
  let minimumPopulation := 3 * Z.of_nat (size validNodes) / 4 in
  let tr := (run DOTMESH_IMAGE ord c).1 in
  let r := (run DOTMESH_IMAGE ord c).2 in
  (∀ dotmeshName, dotmeshName ∈ deletedNames tr → dotmeshName ∈ dotmeshesToKill st)
  ∧ (r = Ret tt →
     ∀ dotmeshName, dotmeshName ∈ dotmeshesToKill st →
       isRunning st dotmeshName = false → dotmeshName ∈ deletedNames tr)
  ∧ (∀ before dotmeshName after,
       deletedNames tr = before ++ dotmeshName :: after →
       isRunning st dotmeshName = true →
       minimumPopulation < runningPodCount st - runningIn st before)
  ∧ (r = Ret tt →
     ∀ dotmeshName, dotmeshName ∈ dotmeshesToKill st →
       isRunning st dotmeshName = true → dotmeshName ∉ deletedNames tr →
       runningPodCount st - runningIn st (deletedNames tr) ≤ minimumPopulation)
  ∧ runningIn st (deletedNames tr) ≤ Z.max 0 (runningPodCount st - minimumPopulation).
Proof.
  intros Hnodes Hpods Hsize validNodes st minimumPopulation tr r.
  pose proof (deletion_facts ord c nodes dotmeshes Hnodes Hpods) as Hfacts.
  cbv zeta in Hfacts.
  rewrite clusterMinimumPopulation_floor in Hfacts by (split; [lia|exact Hsize]).
  exact Hfacts.
Qed.

(** A pod as [newDotmesh] builds it for a valid node passes every check,
    in any phase but Failed. *)
Lemma newDotmesh_healthy (c : dotmeshController) (validNodes : gset string)
    (node phase : string) :
  node ∈ validNodes → phase ≠ v1.PodFailed →
  healthyOn DOTMESH_IMAGE validNodes (withPhase (newDotmesh DOTMESH_IMAGE c node) phase) node.
Proof.
  intros Hnode Hphase. unfold healthyOn. simpl.
  split_and!; eauto using lookup_singleton_eq.
Qed.

(** A pod is healthy on at most one node. *)
Lemma healthyOn_inj (validNodes : gset string) dotmesh node1 node2 :
  healthyOn DOTMESH_IMAGE validNodes dotmesh node1 →
  healthyOn DOTMESH_IMAGE validNodes dotmesh node2 → node1 = node2.
Proof. intros (H1 & _) (H2 & _). congruence. Qed.

Lemma observePod_healthy (validNodes : gset string) st dotmesh node :
  healthyOn DOTMESH_IMAGE validNodes dotmesh node →
  observePod DOTMESH_IMAGE validNodes st dotmesh
  = strikeOut node (recordPhase (ObjectMeta.Name (Pod.ObjectMeta dotmesh))
                                (PodStatus.Phase (Pod.Status dotmesh)) st).
Proof.
  intros Hh.
  destruct (observePod_cases DOTMESH_IMAGE validNodes st dotmesh)
    as [(b & Hb & ->)|(Hno & _)]; [|by destruct (Hno node)].
  by rewrite (healthyOn_inj _ _ _ _ Hh Hb).
Qed.

(** Only names marked to kill are deleted, in every pass. *)
Lemma deleted_marked (ord : RangeOrder) (c : dotmeshController) nodes dotmeshes dotmeshName :
  nodeLister c = Ret nodes → podLister c = Ret dotmeshes →
  dotmeshName ∈ deletedNames (run DOTMESH_IMAGE ord c).1 →
  dotmeshName
  ∈ dotmeshesToKill (observePods DOTMESH_IMAGE (observeNodes nodes) dotmeshes).
Proof.
  intros Hnodes Hpods.
  destruct (run_summary DOTMESH_IMAGE c ord nodes dotmeshes Hnodes Hpods)
    as [(_ & -> & _)|(_ & -> & _)].
  - intros Hin%doomed_subset. by apply elem_of_rangeToKill in Hin.
  - by intros ?%elem_of_nil.
Qed.

(** C9.  Every node in the suspended set is the bound node of a pod
    marked to kill in the same pass; a step of the classification adds a
    node to the set only together with marking the pod bound to it; a pod
    without the identity label in its node selector, and a pod that comes
    to the check of [validNodes] and fails it, are marked without any
    change to the suspended set. *)
Theorem C9_suspension_only_with_kill (validNodes : gset string) (dotmeshes : list Pod.t) :
  let st := observePods DOTMESH_IMAGE validNodes dotmeshes in
  (∀ node, node ∈ suspendedNodes st →
     ∃ dotmesh, dotmesh ∈ dotmeshes
       ∧ PodSpec.NodeSelector (Pod.Spec dotmesh) !! DOTMESH_NODE_LABEL = Some node
       ∧ ObjectMeta.Name (Pod.ObjectMeta dotmesh) ∈ dotmeshesToKill st)
  ∧ (∀ st0 dotmesh,
       let st1 := observePod DOTMESH_IMAGE validNodes st0 dotmesh in
       suspendedNodes st1 = suspendedNodes st0
       ∨ ∃ boundNode,
           PodSpec.NodeSelector (Pod.Spec dotmesh) !! DOTMESH_NODE_LABEL = Some boundNode
           ∧ suspendedNodes st1 = {[ boundNode ]} ∪ suspendedNodes st0
           ∧ ObjectMeta.Name (Pod.ObjectMeta dotmesh) ∈ dotmeshesToKill st1)
  ∧ (∀ st0 dotmesh,
       let st1 := observePod DOTMESH_IMAGE validNodes st0 dotmesh in
       PodSpec.NodeSelector (Pod.Spec dotmesh) !! DOTMESH_NODE_LABEL = None →
       ObjectMeta.Name (Pod.ObjectMeta dotmesh) ∈ dotmeshesToKill st1
       ∧ suspendedNodes st1 = suspendedNodes st0)
  ∧ (∀ st0 dotmesh boundNode container,
       let st1 := observePod DOTMESH_IMAGE validNodes st0 dotmesh in
       PodSpec.NodeSelector (Pod.Spec dotmesh) !! DOTMESH_NODE_LABEL = Some boundNode →
       PodSpec.Containers (Pod.Spec dotmesh) = [container] →
       Container.Image container = DOTMESH_IMAGE →
       PodSpec.NodeName (Pod.Spec dotmesh) = ""
       ∨ PodSpec.NodeName (Pod.Spec dotmesh) = boundNode →
       boundNode ∉ validNodes →
       ObjectMeta.Name (Pod.ObjectMeta dotmesh) ∈ dotmeshesToKill st1
       ∧ suspendedNodes st1 = suspendedNodes st0).
Proof.
  intros st. split_and!.
  - intros node. apply observePods_suspended.
  - intros st0 dotmesh. apply observePod_suspended.
  - intros st0 dotmesh st1 Hsel. subst st1. unfold observePod. rewrite Hsel. simpl.
    split; [set_solver|done].
  - intros st0 dotmesh boundNode container st1 Hsel Hcs Himg Hnode Hvalid. subst st1.
    unfold observePod. rewrite Hsel, Hcs.
    rewrite (bool_decide_false (Container.Image container ≠ DOTMESH_IMAGE)) by tauto.
    rewrite (bool_decide_true (boundNode ∉ validNodes)) by done.
    destruct Hnode as [->| ->].
    + rewrite (bool_decide_false ("" ≠ "")) by tauto. simpl. split; [set_solver|done].
    + rewrite (bool_decide_false (boundNode ≠ boundNode)) by tauto.
      rewrite andb_false_r. simpl. split; [set_solver|done].
Qed.

(** C10.  A pod exactly as the creation step builds it for node [n],
    observed in any phase but Failed while [n] is in [validNodes], passes
    every check of the classification: the step marks nothing, suspends
    nothing and strikes [n] out of [undottedNodes]; and a pass in whose pod
    cache this is the only pod of its name does not delete it. *)
Theorem C10_created_pod_is_kept (c : dotmeshController) (validNodes : gset string)
    (node phase : string) :
  node ∈ validNodes →
  phase ≠ v1.PodFailed →
  let dotmesh := withPhase (newDotmesh DOTMESH_IMAGE c node) phase in
  healthyOn DOTMESH_IMAGE validNodes dotmesh node
  ∧ (∀ st0,
       let st1 := observePod DOTMESH_IMAGE validNodes st0 dotmesh in
       dotmeshesToKill st1 = dotmeshesToKill st0
       ∧ suspendedNodes st1 = suspendedNodes st0
       ∧ undottedNodes st1 = undottedNodes st0 ∖ {[ node ]})
  ∧ (∀ (ord : RangeOrder) (c2 : dotmeshController) nodes dotmeshes,
       nodeLister c2 = Ret nodes →
       podLister c2 = Ret dotmeshes →
       observeNodes nodes = validNodes →
       (∀ other, other ∈ dotmeshes →
          ObjectMeta.Name (Pod.ObjectMeta other) = "dotmesh-" +:+ node →
          other = dotmesh) →
       "dotmesh-" +:+ node ∉ deletedNames (run DOTMESH_IMAGE ord c2).1).
Proof.
  intros Hnode Hphase dotmesh.
  pose proof (newDotmesh_healthy c validNodes node phase Hnode Hphase) as Hh.
  fold dotmesh in Hh. split_and!; [done|..].
  - intros st0 st1. subst st1. by rewrite (observePod_healthy _ _ _ _ Hh).
  - intros ord c2 nodes dotmeshes Hnodes Hpods HV Honly Hdel.
    apply (deleted_marked ord c2 nodes dotmeshes _ Hnodes Hpods) in Hdel.
    rewrite HV in Hdel.
    apply observePods_toKill in Hdel as (other & Hin & Hname & Hbad).
    rewrite (Honly other Hin Hname) in Hbad. by apply (Hbad node).
Qed.

(** C5, as amended.  After a pass, every observed pod that the pass did
    not mark to kill has exactly one container, of the configured image, is
    bound to a node of [validNodes], is unscheduled or scheduled on that
    node, and is not Failed; the pass deletes no such pod; and a marked pod
    that the pass did not delete is a Running pod spared by the rate
    limit. *)
Theorem C5_unmarked_pods_are_healthy (ord : RangeOrder) (c : dotmeshController)
    (nodes : list Node.t) (dotmeshes : list Pod.t) :
  nodeLister c = Ret nodes →
  podLister c = Ret dotmeshes →
  let validNodes := observeNodes nodes in
  let st := observePods DOTMESH_IMAGE validNodes dotmeshes in
  let tr := (run DOTMESH_IMAGE ord c).1 in
  let r := (run DOTMESH_IMAGE ord c).2 in
  (∀ dotmesh, dotmesh ∈ dotmeshes →
     ObjectMeta.Name (Pod.ObjectMeta dotmesh) ∉ dotmeshesToKill st →
     (ObjectMeta.Name (Pod.ObjectMeta dotmesh) ∉ deletedNames tr)
     ∧ (∃ boundNode container,
         PodSpec.NodeSelector (Pod.Spec dotmesh) !! DOTMESH_NODE_LABEL = Some boundNode
         ∧ PodSpec.Containers (Pod.Spec dotmesh) = [container]
         ∧ Container.Image container = DOTMESH_IMAGE
         ∧ boundNode ∈ validNodes
         ∧ (PodSpec.NodeName (Pod.Spec dotmesh) ≠ "" →
            PodSpec.NodeName (Pod.Spec dotmesh) = boundNode)
         ∧ PodStatus.Phase (Pod.Status dotmesh) ≠ v1.PodFailed))
  ∧ (r = Ret tt →
     ∀ dotmesh, dotmesh ∈ dotmeshes →
       ObjectMeta.Name (Pod.ObjectMeta dotmesh) ∈ dotmeshesToKill st →
       ObjectMeta.Name (Pod.ObjectMeta dotmesh) ∉ deletedNames tr →
       isRunning st (ObjectMeta.Name (Pod.ObjectMeta dotmesh)) = true
       ∧ runningPodCount st - runningIn st (deletedNames tr)
         ≤ clusterMinimumPopulation (Z.of_nat (size validNodes))).
Proof.
  intros Hnodes Hpods validNodes st tr r.
  destruct (deletion_facts ord c nodes dotmeshes Hnodes Hpods)
    as (Hmarked & Hidle & _ & Hspared & _).
  split.
  - intros dotmesh Hin Hnot. split; [by intros ?%Hmarked|].
    destruct (observePod_cases DOTMESH_IMAGE validNodes st dotmesh)
      as [(b & (Hsel & (ctr & Hcs & Himg) & Hnode & Hv & Hph) & _)|(Hbad & _)].
    + exists b, ctr. split_and!; try done. intros Hne. by destruct Hnode.
    + destruct Hnot. apply observePods_toKill. eauto.
  - intros Hr dotmesh Hin Hk Hnot.
    destruct (isRunning st (ObjectMeta.Name (Pod.ObjectMeta dotmesh))) eqn:Hrun.
    + split; [done|]. by eapply Hspared.
    + destruct Hnot. by apply Hidle.
Qed.

(** C3, as amended.  A pod with one container of the configured image,
    unscheduled or scheduled on its bound node, whose bound node is not in
    [validNodes], is marked to kill without any change to the suspended
    set.  It is then deleted like any other marked pod: always when it is
    not Running; when it is Running, only while the running population
    exceeds the minimum, and otherwise it is spared. *)
Theorem C3_pod_of_a_gone_node (ord : RangeOrder) (c : dotmeshController)
    (nodes : list Node.t) (dotmeshes : list Pod.t)
    (dotmesh : Pod.t) (boundNode : string) (container : Container.t) :
  nodeLister c = Ret nodes →
  podLister c = Ret dotmeshes →
  dotmesh ∈ dotmeshes →
  PodSpec.NodeSelector (Pod.Spec dotmesh) !! DOTMESH_NODE_LABEL = Some boundNode →
  PodSpec.Containers (Pod.Spec dotmesh) = [container] →
  Container.Image container = DOTMESH_IMAGE →
  PodSpec.NodeName (Pod.Spec dotmesh) = ""
  ∨ PodSpec.NodeName (Pod.Spec dotmesh) = boundNode →
  boundNode ∉ observeNodes nodes →
  let validNodes := observeNodes nodes in
  let st := observePods DOTMESH_IMAGE validNodes dotmeshes in
  let minimumPopulation := clusterMinimumPopulation (Z.of_nat (size validNodes)) in
  let tr := (run DOTMESH_IMAGE ord c).1 in
  let r := (run DOTMESH_IMAGE ord c).2 in
  let dotmeshName := ObjectMeta.Name (Pod.ObjectMeta dotmesh) in
  (∀ st0, suspendedNodes (observePod DOTMESH_IMAGE validNodes st0 dotmesh)
          = suspendedNodes st0)
  ∧ dotmeshName ∈ dotmeshesToKill st
  ∧ (r = Ret tt → isRunning st dotmeshName = false → dotmeshName ∈ deletedNames tr)
  ∧ (∀ before after,
       deletedNames tr = before ++ dotmeshName :: after →
       isRunning st dotmeshName = true →
       minimumPopulation < runningPodCount st - runningIn st before)
  ∧ (r = Ret tt → isRunning st dotmeshName = true → dotmeshName ∉ deletedNames tr →
     runningPodCount st - runningIn st (deletedNames tr) ≤ minimumPopulation).
Proof.
  intros Hnodes Hpods Hin Hsel Hcs Himg Hnode Hgone validNodes st minimumPopulation
    tr r dotmeshName.
  destruct (deletion_facts ord c nodes dotmeshes Hnodes Hpods)
    as (_ & Hidle & Habove & Hspared & _).
  assert (Hbad : ∀ b, ¬ healthyOn DOTMESH_IMAGE validNodes dotmesh b).
  { intros b (Hb & _ & _ & Hv & _). assert (b = boundNode) as -> by congruence. done. }
  assert (Hk : dotmeshName ∈ dotmeshesToKill st).
  { apply observePods_toKill. eauto. }
  split_and!; [|done|eauto..].
  intros st0. unfold observePod. rewrite Hsel, Hcs.
  rewrite (bool_decide_false (Container.Image container ≠ DOTMESH_IMAGE)) by tauto.
  rewrite (bool_decide_true (boundNode ∉ validNodes)) by done.
  destruct Hnode as [->| ->].
  - by rewrite (bool_decide_false ("" ≠ "")) by tauto.
  - rewrite (bool_decide_false (boundNode ≠ boundNode)) by tauto.
    by rewrite andb_false_r.
Qed.

(** C6.  A node update that fails ends the pass at once with that
    error: it is the last event of the trace, and the pass deletes and
    creates nothing.  When no node update fails (and the labelling does not
    panic), the pass runs to its end and returns no error whatever the
    deletions and creations answer: it deletes the names the rate limit
    selects and creates a pod for every undotted node that is not
    suspended, and each failed call is followed at once by the log of its
    error. *)
Theorem C6_label_failure_aborts_other_failures_are_logged (ord : RangeOrder)
    (c : dotmeshController) (nodes : list Node.t) (dotmeshes : list Pod.t) :
  nodeLister c = Ret nodes →
  podLister c = Ret dotmeshes →
  let validNodes := observeNodes nodes in
  let st := observePods DOTMESH_IMAGE validNodes dotmeshes in
  let minimumPopulation := clusterMinimumPopulation (Z.of_nat (size validNodes)) in
  let tr := (run DOTMESH_IMAGE ord c).1 in
  let r := (run DOTMESH_IMAGE ord c).2 in
  (∀ n2 e, ApiCall (Nodes_Update n2) (Some e) ∈ tr →
     r = Fail e
     ∧ last tr = Some (ApiCall (Nodes_Update n2) (Some e))
     ∧ deletedNames tr = []
     ∧ createdPods tr = [])
  ∧ ((∀ n2 e, ApiCall (Nodes_Update n2) (Some e) ∉ tr) → (∀ msg, r ≠ Panic msg) →
     r = Ret tt
     ∧ deletedNames tr
       = doomed st minimumPopulation (rangeToKill ord (dotmeshesToKill st))
                (runningPodCount st)
     ∧ createdPods tr
       = map (newDotmesh DOTMESH_IMAGE c)
             (filter (λ node, node ∉ suspendedNodes st)
                     (rangeUndotted ord (undottedNodes st)))
     ∧ (∀ before call e after,
          tr = before ++ ApiCall call (Some e) :: after →
          ∃ after', after = LogError e :: after')).
Proof.
  intros Hnodes Hpods validNodes st minimumPopulation tr r.
  pose proof (run_summary DOTMESH_IMAGE c ord nodes dotmeshes Hnodes Hpods) as Hsum.
  cbv zeta in Hsum. fold validNodes st minimumPopulation tr r in Hsum.
  destruct (process_spec DOTMESH_IMAGE c ord nodes dotmeshes Hnodes Hpods)
    as (evA & rA & HA & HcA & HrA & Hrun).
  fold validNodes st minimumPopulation in Hrun.
  destruct rA as [[]|e0|msg].
  - destruct Hrun as (evC & evD & Hrun & HcC & HcD & Hlog).
    assert (Htr : tr = evA ++ evC ++ evD) by (subst tr; by rewrite Hrun).
    assert (Hr : r = Ret tt) by (subst r; by rewrite Hrun).
    split.
    + intros n2 e Hin. exfalso. rewrite Htr in Hin.
      apply elem_of_app in Hin as [Hin|Hin]; [by eapply HrA|].
      apply elem_of_app in Hin as [Hin|Hin]; apply elem_of_calls in Hin.
      * rewrite HcC in Hin. apply list_elem_of_fmap in Hin as (? & ? & _). done.
      * rewrite HcD in Hin. apply list_elem_of_fmap in Hin as (? & ? & _). done.
    + intros _ _. destruct Hsum as [(_ & Hdel & Hcre)|(Hne & _)]; [|done].
      split_and!; [done..|].
      intros before call e after Heq. eapply errorsLogged_split; [|exact Heq].
      rewrite Htr. apply errorsLogged_app; [|done].
      by apply allSucceeded_errorsLogged.
  - destruct HrA as (evs' & n0 & HevA & Hok).
    assert (Htr : tr = evs' ++ [ApiCall (Nodes_Update n0) (Some e0)]).
    { subst tr. by rewrite Hrun, HevA. }
    assert (Hr : r = Fail e0) by (subst r; by rewrite Hrun).
    split.
    + intros n2 e Hin. rewrite Htr in Hin.
      apply elem_of_app in Hin as [Hin|Hin]; [by destruct (Hok _ _ Hin)|].
      apply list_elem_of_singleton in Hin. injection Hin as -> ->.
      destruct Hsum as [(Hret & _)|(_ & Hdel & Hcre)]; [congruence|].
      split_and!; [done| |done..]. rewrite Htr. apply last_snoc.
    + intros Hnone _. destruct (Hnone n0 e0). rewrite Htr. set_solver.
  - assert (Hr : r = Panic msg) by (subst r; by rewrite Hrun).
    split.
    + intros n2 e Hin. exfalso. subst tr. rewrite Hrun in Hin. by eapply HrA.
    + intros _ Hnp. by destruct (Hnp msg).
Qed.

(** C7.  With a ConfigMap that exists and has no data, the fetched
    [Data] map is nil and the first [provideDefault] panics on its
    assignment: the controller is not constructed.  When the fetch fails,
    construction builds an empty map first and yields every default. *)
Theorem C7_nil_data_panics (nodeIndexer : res (list Node.t))
    (podIndexer : res (list Pod.t)) :
  kubernetes.ConfigMaps_Get emptyConfigMapCluster DOTMESH_NAMESPACE DOTMESH_CONFIG_MAP
  = Ret (ConfigMap.mk None)
  ∧ newDotmeshController emptyConfigMapCluster nodeIndexer podIndexer
    = Panic "assignment to entry in nil map"
  ∧ newDotmeshController reliable nodeIndexer podIndexer
    = Ret (mkController reliable nodeIndexer podIndexer defaultConfig).
Proof. split_and!; reflexivity. Qed.

(** C8.  The pod that the creation step builds for node [n] is named
    [dotmesh-n], carries the role label with the server role, is bound by
    its node selector to the identity label [n], is never restarted, and
    has exactly one container: privileged, with TCP port 32607, an HTTP GET
    liveness probe of [/status] on port 32607 after 30 seconds, and the
    seven configuration variables set to the values of the resolved
    configuration.  For a controller that [newDotmeshController] returned,
    these are the fetched values or else the defaults; with an empty
    ConfigMap, [POOL_SIZE] is [10G] and [USE_POOL_DIR] is
    [/var/lib/dotmesh].  The pods a pass creates are built this way. *)
Theorem C8_pod_factory (c : dotmeshController) (node : string) :
  let pod := newDotmesh DOTMESH_IMAGE c node in
  ObjectMeta.Name (Pod.ObjectMeta pod) = "dotmesh-" +:+ node
  ∧ go_lookup (ObjectMeta.Labels (Pod.ObjectMeta pod)) DOTMESH_POD_ROLE_LABEL
    = Some DOTMESH_ROLE_SERVER
  ∧ PodSpec.NodeSelector (Pod.Spec pod) = {[ DOTMESH_NODE_LABEL := node ]}
  ∧ PodSpec.RestartPolicy (Pod.Spec pod) = v1.RestartPolicyNever
  ∧ (∃ container,
       PodSpec.Containers (Pod.Spec pod) = [container]
       ∧ Container.Image container = DOTMESH_IMAGE
       ∧ Container.SecurityContext container = Some (SecurityContext.mk (Some true))
       ∧ Container.Ports container = [ContainerPort.mk "dotmesh-api" 32607 v1.ProtocolTCP]
       ∧ Container.LivenessProbe container
         = Some (Probe.mk
                   (Handler.mk (Some (HTTPGetAction.mk "/status" (intstr.FromInt 32607))))
                   30)
       ∧ (∀ name key, (name, key) ∈ configEnv →
            envOf (Container.Env container) name = Some (configValue c key))
       ∧ (∀ client nodeIndexer podIndexer d,
            newDotmeshController client nodeIndexer podIndexer = Ret c →
            fetchedData client = Some d →
            ∀ name key deflt, (name, key) ∈ configEnv → (key, deflt) ∈ defaults →
              envOf (Container.Env container) name = Some (default deflt (d !! key)))
       ∧ (∀ client nodeIndexer podIndexer,
            newDotmeshController client nodeIndexer podIndexer = Ret c →
            fetchedData client = Some ∅ →
            envOf (Container.Env container) "POOL_SIZE" = Some "10G"
            ∧ envOf (Container.Env container) "USE_POOL_DIR" = Some "/var/lib/dotmesh"))
  ∧ (∀ (ord : RangeOrder) nodes dotmeshes created,
       nodeLister c = Ret nodes → podLister c = Ret dotmeshes →
       created ∈ createdPods (run DOTMESH_IMAGE ord c).1 →
       ∃ node', created = newDotmesh DOTMESH_IMAGE c node').
Proof.
  intros pod.
  assert (Hres : ∀ client nodeIndexer podIndexer d,
            newDotmeshController client nodeIndexer podIndexer = Ret c →
            fetchedData client = Some d →
            ∀ key deflt, (key, deflt) ∈ defaults →
              configValue c key = default deflt (d !! key)).
  { intros client ni pi d Hnew Hfetch key deflt Hin.
    destruct (newDotmeshController_resolved client ni pi d Hfetch) as (c' & Hc' & Hdef & _).
    rewrite Hnew in Hc'. injection Hc' as <-. by apply Hdef. }
  split_and!; try done.
  - eexists. split; [reflexivity|].
    match goal with |- context [Container.Env ?ctr] => set (container := ctr) end.
    assert (Henv : ∀ name key, (name, key) ∈ configEnv →
              envOf (Container.Env container) name = Some (configValue c key)).
    { intros name key Hin. unfold configEnv in Hin.
      repeat (apply elem_of_cons in Hin as [Heq|Hin];
              [injection Heq as -> ->; reflexivity|]).
      by apply elem_of_nil in Hin. }
    split_and!; try done.
    + intros client ni pi d Hnew Hfetch name key deflt Hname Hkey.
      rewrite (Henv name key Hname). f_equal. by eapply Hres.
    + intros client ni pi Hnew Hfetch. split.
      * rewrite (Henv "POOL_SIZE" CONFIG_LOCAL_POOL_SIZE_PER_NODE)
          by (unfold configEnv; set_solver).
        f_equal. rewrite (Hres _ _ _ _ Hnew Hfetch _ "10G"); [done|].
        unfold defaults. set_solver.
      * rewrite (Henv "USE_POOL_DIR" CONFIG_LOCAL_POOL_LOCATION)
          by (unfold configEnv; set_solver).
        f_equal. rewrite (Hres _ _ _ _ Hnew Hfetch _ "/var/lib/dotmesh"); [done|].
        unfold defaults. set_solver.
  - intros ord nodes dotmeshes created Hnodes Hpods Hin.
    destruct (run_summary DOTMESH_IMAGE c ord nodes dotmeshes Hnodes Hpods)
      as [(_ & _ & Hcre)|(_ & _ & Hcre)]; rewrite Hcre in Hin.
    + apply list_elem_of_fmap in Hin as (node' & -> & _). eauto.
    + by apply elem_of_nil in Hin.
Qed.

(** C2.  On a cold start with the three nodes [n1], [n2], [n3] without
    the identity label and no pods, one pass updates each node with its
    label and then creates a single pod, named [dotmesh-] and bound to the
    empty identity: [validNodes] is read from the labels of the nodes as
    listed, which the updates did not change. *)
Theorem C2_cold_start_creates_one_unbound_pod (ord : RangeOrder) :
  let nodes := [unlabelledNode "n1"; unlabelledNode "n2"; unlabelledNode "n3"] in
  let c := cluster nodes [] in
  observeNodes nodes = {[ "" ]}
  ∧ run DOTMESH_IMAGE ord c
    = ([ ApiCall (Nodes_Update (relabelled (unlabelledNode "n1"))) None;
         ApiCall (Nodes_Update (relabelled (unlabelledNode "n2"))) None;
         ApiCall (Nodes_Update (relabelled (unlabelledNode "n3"))) None;
         ApiCall (Pods_Create DOTMESH_NAMESPACE (newDotmesh DOTMESH_IMAGE c "")) None ],
       Ret tt)
  ∧ map (λ pod, ObjectMeta.Name (Pod.ObjectMeta pod))
        (createdPods (run DOTMESH_IMAGE ord c).1) = ["dotmesh-"]
  ∧ map (λ n2, go_lookup (ObjectMeta.Labels (Node.ObjectMeta n2)) DOTMESH_NODE_LABEL)
        (updatedNodes (run DOTMESH_IMAGE ord c).1) = [Some "n1"; Some "n2"; Some "n3"].
Proof.
  intros nodes c.
  assert (HV : observeNodes nodes = {[ "" ]}) by (by vm_compute).
  assert (Hkill : rangeToKill ord ∅ = []).
  { apply Permutation_nil_r. by rewrite (rangeToKill_perm ord ∅), elements_empty. }
  assert (Hund : rangeUndotted ord {[ "" ]} = [""]).
  { apply Permutation_singleton_r.
    by rewrite (rangeUndotted_perm ord {[ "" ]}), elements_singleton. }
  assert (Hrun : run DOTMESH_IMAGE ord c
    = ([ ApiCall (Nodes_Update (relabelled (unlabelledNode "n1"))) None;
         ApiCall (Nodes_Update (relabelled (unlabelledNode "n2"))) None;
         ApiCall (Nodes_Update (relabelled (unlabelledNode "n3"))) None;
         ApiCall (Pods_Create DOTMESH_NAMESPACE (newDotmesh DOTMESH_IMAGE c "")) None ],
       Ret tt)).
  { unfold run, process. cbn [nodeLister podLister c cluster].
    unfold M_bind at 1, M_lift at 1. unfold M_bind at 1.
    replace (labelNodes c nodes [])
      with ([ ApiCall (Nodes_Update (relabelled (unlabelledNode "n1"))) None;
              ApiCall (Nodes_Update (relabelled (unlabelledNode "n2"))) None;
              ApiCall (Nodes_Update (relabelled (unlabelledNode "n3"))) None ],
            Ret tt) by reflexivity.
    unfold M_bind at 1, M_lift at 1. unfold M_bind at 1.
    rewrite HV. unfold observePods. cbn [foldl initialPodsState dotmeshesToKill
      undottedNodes runningPodCount].
    rewrite Hkill, Hund. reflexivity. }
  split_and!; [done|done|by rewrite Hrun..].
Qed.

Lemma allSucceeded_forallb tr : forallb succeeded tr = true → allSucceeded tr.
Proof.
  intros Hall call e Hin. rewrite List.forallb_forall in Hall.
  apply list_elem_of_In, Hall in Hin. done.
Qed.

Lemma filter_all {A} (P : A → Prop) `{∀ x, Decision (P x)} (l : list A) :
  (∀ x, P x) → filter P l = l.
Proof.
  intros HP. induction l as [|x l IH]; [done|]. by rewrite filter_cons_True, IH.
Qed.

Lemma rangeToKill_empty (ord : RangeOrder) : rangeToKill ord ∅ = [].
Proof. apply Permutation_nil_r. by rewrite (rangeToKill_perm ord ∅), elements_empty. Qed.

(** The caches after a trace of successful pod creations: the created
    pods are there, Pending. *)
Lemma echo_creations tr nodes dotmeshes :
  allSucceeded tr →
  Forall (λ call, ∃ ns pod, call = Pods_Create ns pod) (calls tr) →
  echo tr (nodes, dotmeshes)
  = (nodes, dotmeshes ++ map (λ pod, withPhase pod v1.PodPending) (createdPods tr)).
Proof.
  unfold echo, createdPods. revert dotmeshes.
  induction tr as [|ev tr IH]; intros dotmeshes Hok Hcre; simpl.
  - by rewrite app_nil_r.
  - assert (Hok' : allSucceeded tr) by (intros call e ?; eapply Hok; by right).
    destruct ev as [call [e|]|e].
    + destruct (Hok call e). by left.
    + change (calls (ApiCall call None :: tr)) with (call :: calls tr) in *.
      apply Forall_cons in Hcre as [(ns & pod & ->) Hcre]. simpl.
      rewrite IH by done. by rewrite <- app_assoc.
    + apply IH; done.
Qed.

End claims.

(** * The claims on concrete clusters *)

(** C3, counterexample.  Two labelled nodes, so the minimum population is
    1, and one Running pod of the configured image bound to a node [n9]
    that is gone: the pod is marked to kill, the pass returns without any
    error, and the pod is not deleted, the population being at the
    minimum.  And a pod of an old image bound to [n9] has [n9] put into the
    suspended set. *)
Lemma C3_counterexample :
  let nodes := [labelledNode "n1"; labelledNode "n2"] in
  let dotmesh := runningPod "dotmesh:new" "n9" in
  let c := cluster nodes [dotmesh] in
  let validNodes := observeNodes nodes in
  let st := observePods "dotmesh:new" validNodes [dotmesh] in
  PodSpec.NodeSelector (Pod.Spec dotmesh) !! DOTMESH_NODE_LABEL = Some "n9"
  ∧ bool_decide ("n9" ∈ validNodes) = false
  ∧ bool_decide ("dotmesh-n9" ∈ dotmeshesToKill st) = true
  ∧ isRunning st "dotmesh-n9" = true
  ∧ runningPodCount st = 1
  ∧ clusterMinimumPopulation (Z.of_nat (size validNodes)) = 1
  ∧ (run "dotmesh:new" sortedOrder c).2 = Ret tt
  ∧ forallb succeeded (run "dotmesh:new" sortedOrder c).1 = true
  ∧ deletedNames (run "dotmesh:new" sortedOrder c).1 = []
  ∧ suspendedNodes (observePods "dotmesh:new" validNodes [runningPod "dotmesh:old" "n9"])
    = {[ "n9" ]}.
Proof. vm_compute. repeat split. Qed.

(** C4, counterexample.  One labelled node with a Running pod of an old
    image: the first pass deletes the pod.  A second pass on the caches
    without that pod creates the replacement; a second pass on the caches
    as they were deletes the pod again.  Either way the second pass issues
    a call. *)
Lemma C4_counterexample :
  let nodes := [labelledNode "n1"] in
  let dotmeshes := [runningPod "dotmesh:old" "n1"] in
  let c := cluster nodes dotmeshes in
  let tr1 := (run "dotmesh:new" sortedOrder c).1 in
  let c2 := withCaches c (echo tr1 (nodes, dotmeshes)) in
  calls tr1 = [deletePod "dotmesh-n1"]
  ∧ forallb succeeded tr1 = true
  ∧ echo tr1 (nodes, dotmeshes) = (nodes, [])
  ∧ calls (run "dotmesh:new" sortedOrder c2).1
    = [Pods_Create DOTMESH_NAMESPACE (newDotmesh "dotmesh:new" c "n1")]
  ∧ calls (run "dotmesh:new" sortedOrder c).1 = [deletePod "dotmesh-n1"].
Proof. vm_compute. repeat split. Qed.

(** C5, counterexample.  Two labelled nodes and one Running pod of an old
    image, bound to [n1]: the pass completes without any API error and
    deletes nothing, the population being at the minimum; the pod is still
    there, and its image is not the configured one. *)
Lemma C5_counterexample :
  let nodes := [labelledNode "n1"; labelledNode "n2"] in
  let dotmesh := runningPod "dotmesh:old" "n1" in
  let c := cluster nodes [dotmesh] in
  run "dotmesh:new" sortedOrder c
  = ([ApiCall (Pods_Create DOTMESH_NAMESPACE (newDotmesh "dotmesh:new" c "n2")) None],
     Ret tt)
  ∧ deletedNames (run "dotmesh:new" sortedOrder c).1 = []
  ∧ map Container.Image (PodSpec.Containers (Pod.Spec dotmesh)) = ["dotmesh:old"]
  ∧ bool_decide ("dotmesh:old" = "dotmesh:new") = false.
Proof. vm_compute. repeat split. Qed.

(** A decidable fact about a concrete cluster, by evaluation. *)
Ltac by_evaluation :=
  lazymatch goal with
  | |- ¬ ?P => apply (bool_decide_eq_false_1 P)
  | |- ?P => apply (bool_decide_eq_true_1 P)
  end; vm_compute; reflexivity.

(** C1 on a rolling upgrade: four labelled nodes, four Running pods of an
    old image.  The minimum population is 3 and one Running pod goes. *)
Lemma C1_witness :
  let nodes := [labelledNode "n1"; labelledNode "n2"; labelledNode "n3"; labelledNode "n4"] in
  let dotmeshes := [runningPod "dotmesh:old" "n1"; runningPod "dotmesh:old" "n2";
                    runningPod "dotmesh:old" "n3"; runningPod "dotmesh:old" "n4"] in
  let c := cluster nodes dotmeshes in
  let st := observePods "dotmesh:new" (observeNodes nodes) dotmeshes in
  let tr := (run "dotmesh:new" sortedOrder c).1 in
  Z.of_nat (size (observeNodes nodes)) < 2 ^ 22
  ∧ runningIn st (deletedNames tr)
    ≤ Z.max 0 (runningPodCount st - 3 * Z.of_nat (size (observeNodes nodes)) / 4).
Proof.
  intros nodes dotmeshes c st tr.
  assert (Hsize : Z.of_nat (size (observeNodes nodes)) < 2 ^ 22)
    by (vm_compute; reflexivity).
  split; [exact Hsize|].
  exact (proj2 (proj2 (proj2 (proj2
    (C1_rate_limited_deletion "dotmesh:new" sortedOrder c nodes dotmeshes
       eq_refl eq_refl Hsize))))).
Defined.

(** C3 on one labelled node and a Pending pod bound to a node that is
    gone: the pod is marked and deleted. *)
Lemma C3_witness :
  let nodes := [labelledNode "n1"] in
  let dotmesh := withPhase (newDotmesh "dotmesh:new" (cluster [] []) "n9") v1.PodPending in
  let c := cluster nodes [dotmesh] in
  let st := observePods "dotmesh:new" (observeNodes nodes) [dotmesh] in
  ("n9" ∉ observeNodes nodes)
  ∧ ("dotmesh-n9" ∈ dotmeshesToKill st)
  ∧ ("dotmesh-n9" ∈ deletedNames (run "dotmesh:new" sortedOrder c).1).
Proof.
  intros nodes dotmesh c st.
  assert (Hgone : "n9" ∉ observeNodes nodes).
  { by_evaluation. }
  assert (Hin : dotmesh ∈ [dotmesh]) by (apply list_elem_of_here).
  pose proof (C3_pod_of_a_gone_node "dotmesh:new" sortedOrder c nodes [dotmesh]
                dotmesh "n9" _ eq_refl eq_refl Hin eq_refl eq_refl eq_refl
                (or_introl eq_refl) Hgone) as (_ & Hkill & Hdel & _).
  split_and!; [exact Hgone|exact Hkill|].
  apply Hdel; vm_compute; reflexivity.
Defined.

(** C5 on one labelled node with a healthy Running pod: the pod is not
    marked, not deleted, and has what the claim lists. *)
Lemma C5_witness :
  let nodes := [labelledNode "n1"] in
  let dotmesh := runningPod "dotmesh:new" "n1" in
  let c := cluster nodes [dotmesh] in
  ("dotmesh-n1" ∉ deletedNames (run "dotmesh:new" sortedOrder c).1)
  ∧ (∃ boundNode container,
      PodSpec.NodeSelector (Pod.Spec dotmesh) !! DOTMESH_NODE_LABEL = Some boundNode
      ∧ PodSpec.Containers (Pod.Spec dotmesh) = [container]
      ∧ Container.Image container = "dotmesh:new"
      ∧ boundNode ∈ observeNodes nodes
      ∧ (PodSpec.NodeName (Pod.Spec dotmesh) ≠ "" →
         PodSpec.NodeName (Pod.Spec dotmesh) = boundNode)
      ∧ PodStatus.Phase (Pod.Status dotmesh) ≠ v1.PodFailed).
Proof.
  intros nodes dotmesh c.
  assert (Hin : dotmesh ∈ [dotmesh]) by (apply list_elem_of_here).
  assert (Hnot : ObjectMeta.Name (Pod.ObjectMeta dotmesh)
                 ∉ dotmeshesToKill (observePods "dotmesh:new" (observeNodes nodes) [dotmesh])).
  { by_evaluation. }
  exact (proj1 (C5_unmarked_pods_are_healthy "dotmesh:new" sortedOrder c nodes [dotmesh]
                  eq_refl eq_refl) dotmesh Hin Hnot).
Defined.

(** C6 on two clusters.  In the first, with one node without its label,
    the server refuses node updates: the pass returns the error of the
    update, which is its last event, and neither deletes the Pending pod of
    an old image nor creates a pod.  In the second, with two labelled nodes
    and that pod bound to the first, the server refuses deletions and
    creations: the pass goes on after each refusal, logs it, and returns no
    error. *)
Lemma C6_witness :
  let e := "the server refused the request" in
  let dotmesh := withPhase (newDotmesh "dotmesh:old" (cluster [] []) "n1") v1.PodPending in
  let c1 := mkController (refusing isNodesUpdate e)
                         (Ret [unlabelledNode "n1"; labelledNode "n2"]) (Ret [dotmesh])
                         defaultConfig in
  let c2 := mkController (refusing (λ call, negb (isNodesUpdate call)) e)
                         (Ret [labelledNode "n1"; labelledNode "n2"]) (Ret [dotmesh])
                         defaultConfig in
  let tr1 := (run "dotmesh:new" sortedOrder c1).1 in
  let tr2 := (run "dotmesh:new" sortedOrder c2).1 in
  ((run "dotmesh:new" sortedOrder c1).2 = Fail e
   ∧ last tr1 = Some (ApiCall (Nodes_Update (relabelled (unlabelledNode "n1"))) (Some e))
   ∧ deletedNames tr1 = []
   ∧ createdPods tr1 = [])
  ∧ (tr2 = [ApiCall (deletePod "dotmesh-n1") (Some e); LogError e;
            ApiCall (Pods_Create DOTMESH_NAMESPACE (newDotmesh "dotmesh:new" c2 "n2")) (Some e);
            LogError e]
     ∧ (run "dotmesh:new" sortedOrder c2).2 = Ret tt
     ∧ deletedNames tr2 = ["dotmesh-n1"]
     ∧ createdPods tr2 = [newDotmesh "dotmesh:new" c2 "n2"]
     ∧ ∀ before call e' after,
         tr2 = before ++ ApiCall call (Some e') :: after →
         ∃ after', after = LogError e' :: after').
Proof.
  intros e dotmesh c1 c2 tr1 tr2. split.
  - assert (Htr1 : tr1 = [ApiCall (Nodes_Update (relabelled (unlabelledNode "n1"))) (Some e)])
      by (vm_compute; reflexivity).
    assert (Hin : ApiCall (Nodes_Update (relabelled (unlabelledNode "n1"))) (Some e) ∈ tr1).
    { rewrite Htr1. apply list_elem_of_here. }
    exact (proj1 (C6_label_failure_aborts_other_failures_are_logged "dotmesh:new"
                    sortedOrder c1 [unlabelledNode "n1"; labelledNode "n2"] [dotmesh]
                    eq_refl eq_refl)
                 (relabelled (unlabelledNode "n1")) e Hin).
  - assert (Htr2 : tr2 = [ApiCall (deletePod "dotmesh-n1") (Some e); LogError e;
                          ApiCall (Pods_Create DOTMESH_NAMESPACE
                                     (newDotmesh "dotmesh:new" c2 "n2")) (Some e);
                          LogError e])
      by (vm_compute; reflexivity).
    assert (Hnone : ∀ n2 e', ApiCall (Nodes_Update n2) (Some e') ∉ tr2).
    { intros n2 e' Hin. rewrite Htr2 in Hin.
      repeat (apply elem_of_cons in Hin as [Hin|Hin]; [discriminate Hin|]).
      by apply elem_of_nil in Hin. }
    assert (Hnopanic : ∀ msg, (run "dotmesh:new" sortedOrder c2).2 ≠ Panic msg).
    { intros msg. vm_compute. discriminate. }
    destruct (proj2 (C6_label_failure_aborts_other_failures_are_logged "dotmesh:new"
                       sortedOrder c2 [labelledNode "n1"; labelledNode "n2"] [dotmesh]
                       eq_refl eq_refl) Hnone Hnopanic)
      as (Hret & Hdeleted & Hcreated & Hlogged).
    split_and!; [exact Htr2|exact Hret| | |exact Hlogged].
    + unfold tr2. rewrite Hdeleted. vm_compute. reflexivity.
    + unfold tr2. rewrite Hcreated. vm_compute. reflexivity.
Defined.

(** C10 on node [n1]: the pod built for it, observed Pending, is healthy. *)
Lemma C10_witness :
  let c := cluster [] [] in
  healthyOn "dotmesh:new" {[ "n1" ]}
            (withPhase (newDotmesh "dotmesh:new" c "n1") v1.PodPending) "n1".
Proof.
  intros c.
  assert (Hnode : "n1" ∈ ({[ "n1" ]} : gset string)).
  { by_evaluation. }
  assert (Hphase : v1.PodPending ≠ v1.PodFailed) by discriminate.
  exact (proj1 (C10_created_pod_is_kept "dotmesh:new" c {[ "n1" ]} "n1" v1.PodPending
                  Hnode Hphase)).
Defined.

(** * Further properties of the operator *)

Section pass.

Variable DOTMESH_IMAGE : string.

Implicit Types (c : dotmeshController) (ord : RangeOrder).

(** The labelling loop over two lists in a row. *)
Lemma labelNodes_app c nodes1 nodes2 tr0 :
  labelNodes c (nodes1 ++ nodes2) tr0
  = match labelNodes c nodes1 tr0 with
    | (tr1, Ret _) => labelNodes c nodes2 tr1
    | stopped => stopped
    end.
Proof.
  revert tr0. induction nodes1 as [|node nodes1 IH]; intros tr0; simpl; [done|].
  case_bool_decide; [apply IH|].
  unfold M_bind, M_lift.
  destruct (go_assign _ _ _) as [labels2|e|msg]; [|done..].
  unfold api.
  destruct (kubernetes.Mutate _ _ _); [done|apply IH].
Qed.

(** A pass from any trace on, by cases on the listers and on the result
    of the labelling loop. *)
Lemma process_cases ord c tr0 :
  ∃ evA,
    calls evA = map Nodes_Update (updatedNodes evA)
    ∧ ((evA = []
        ∧ ((∃ e, nodeLister c = Fail e
                 ∧ process DOTMESH_IMAGE ord c tr0 = (tr0, Fail e))
           ∨ (∃ msg, nodeLister c = Panic msg
                     ∧ process DOTMESH_IMAGE ord c tr0 = (tr0, Panic msg))))
       ∨ ∃ nodes rA,
           nodeLister c = Ret nodes
           ∧ labelNodes c nodes tr0 = (tr0 ++ evA, rA)
           ∧ match rA with
             | Ret _ =>
                 allSucceeded evA
                 ∧ match podLister c with
                   | Ret dotmeshes =>
                       let validNodes := observeNodes nodes in
                       let st := observePods DOTMESH_IMAGE validNodes dotmeshes in
                       let minimum := clusterMinimumPopulation (Z.of_nat (size validNodes)) in
                       ∃ evC evD,
                         process DOTMESH_IMAGE ord c tr0 = (tr0 ++ evA ++ evC ++ evD, Ret tt)
                         ∧ calls evC
                           = map deletePod
                               (doomed st minimum (rangeToKill ord (dotmeshesToKill st))
                                       (runningPodCount st))
                         ∧ calls evD
                           = map (λ node, Pods_Create DOTMESH_NAMESPACE
                                            (newDotmesh DOTMESH_IMAGE c node))
                               (filter (λ node, node ∉ suspendedNodes st)
                                       (rangeUndotted ord (undottedNodes st)))
                         ∧ errorsLogged (evC ++ evD) = true
                   | Fail e => process DOTMESH_IMAGE ord c tr0 = (tr0 ++ evA, Fail e)
                   | Panic msg => process DOTMESH_IMAGE ord c tr0 = (tr0 ++ evA, Panic msg)
                   end
             | Fail e =>
                 (∃ evs' n2, evA = evs' ++ [ApiCall (Nodes_Update n2) (Some e)]
                             ∧ allSucceeded evs')
                 ∧ process DOTMESH_IMAGE ord c tr0 = (tr0 ++ evA, Fail e)
             | Panic msg =>
                 allSucceeded evA
                 ∧ process DOTMESH_IMAGE ord c tr0 = (tr0 ++ evA, Panic msg)
             end).
Proof.
  unfold process.
  destruct (nodeLister c) as [nodes|e|msg] eqn:Hnodes.
  2:{ exists []. split; [done|]. left. split; [done|]. left. by exists e. }
  2:{ exists []. split; [done|]. left. split; [done|]. right. by exists msg. }
  destruct (labelNodes_spec c nodes tr0) as (evA & rA & HA & HcA & HrA).
  exists evA. split; [done|]. right. exists nodes, rA. split_and!; [done..|].
  unfold M_bind, M_lift. rewrite HA.
  destruct rA as [[]|e|msg]; [|done..].
  split; [done|].
  destruct (podLister c) as [dotmeshes|e|msg] eqn:Hpods; [|done..].
  set (validNodes := observeNodes nodes).
  set (st := observePods DOTMESH_IMAGE validNodes dotmeshes).
  set (minimum := clusterMinimumPopulation (Z.of_nat (size validNodes))).
  edestruct (deletePods_spec c st minimum (rangeToKill ord (dotmeshesToKill st))
               (runningPodCount st) (tr0 ++ evA)) as (evC & -> & HcC & HlC).
  edestruct (createPods_spec DOTMESH_IMAGE c st (rangeUndotted ord (undottedNodes st))
               ((tr0 ++ evA) ++ evC)) as (evD & -> & HcD & HlD).
  exists evC, evD. rewrite <- !app_assoc. split_and!; [done..|].
  by apply errorsLogged_app.
Qed.


(** What a trace of node updates, of deletions or of creations holds. *)
Lemma updates_only tr :
  calls tr = map Nodes_Update (updatedNodes tr) →
  deletedNames tr = [] ∧ createdPods tr = [].
Proof.
  intros Hc. unfold deletedNames, createdPods. rewrite Hc.
  split; by apply omap_map_None.
Qed.

Lemma deletions_only tr names :
  calls tr = map deletePod names →
  updatedNodes tr = [] ∧ deletedNames tr = names ∧ createdPods tr = [].
Proof.
  intros Hc. unfold updatedNodes, deletedNames, createdPods. rewrite Hc.
  split_and!; [by apply omap_map_None|by apply omap_map_Some|by apply omap_map_None].
Qed.

Lemma creations_only {A} tr (pod : A → Pod.t) (l : list A) :
  calls tr = map (λ x, Pods_Create DOTMESH_NAMESPACE (pod x)) l →
  updatedNodes tr = [] ∧ deletedNames tr = [] ∧ createdPods tr = map pod l.
Proof.
  intros Hc. unfold updatedNodes, deletedNames, createdPods. rewrite Hc.
  split_and!; [by apply omap_map_None..|].
  rewrite <- (map_map pod (Pods_Create DOTMESH_NAMESPACE)). by apply omap_map_Some.
Qed.

(** The node updates of the labelling loop: the listed nodes without their
    label, relabelled, in the order of the list, as far as the loop came. *)
Lemma labelNodes_updates c nodes tr0 :
  ∃ evs r,
    labelNodes c nodes tr0 = (tr0 ++ evs, r)
    ∧ updatedNodes evs
      `prefix_of` map relabelled (filter (λ node, ¬ labelledOk node) nodes)
    ∧ (r = Ret tt →
       updatedNodes evs = map relabelled (filter (λ node, ¬ labelledOk node) nodes)).
Proof.
  revert tr0. induction nodes as [|node nodes IH]; intros tr0; simpl.
  - exists [], (Ret tt). by rewrite app_nil_r.
  - rewrite filter_cons. destruct (decide (¬ labelledOk node)) as [Hbad|Hok].
    + rewrite bool_decide_false by exact Hbad.
      unfold M_bind at 1, M_lift, go_assign.
      destruct (ObjectMeta.Labels (Node.ObjectMeta node)) as [labels|] eqn:Hlabels.
      2:{ exists [], (Panic "assignment to entry in nil map"). rewrite app_nil_r.
          split_and!; [done|apply prefix_nil|done]. }
      unfold M_bind at 1, api at 1. simpl.
      assert (relabelled node
              = setLabels node (Some (<[DOTMESH_NODE_LABEL
                                       := ObjectMeta.Name (Node.ObjectMeta node)]> labels)))
        as -> by (unfold relabelled; by rewrite Hlabels).
      set (n2 := setLabels node _).
      destruct (kubernetes.Mutate (client c) tr0 (Nodes_Update n2)) as [e|] eqn:Herr.
      * exists [ApiCall (Nodes_Update n2) (Some e)], (Fail e).
        split_and!; [done| |done].
        apply (prefix_cons n2), prefix_nil.
      * edestruct IH as (evs & r & -> & Hpre & Hall).
        exists (ApiCall (Nodes_Update n2) None :: evs), r. split_and!.
        -- by rewrite <- !app_assoc.
        -- by apply (prefix_cons n2).
        -- intros Hr. change (n2 :: updatedNodes evs = n2 :: map relabelled
             (filter (λ node, ¬ labelledOk node) nodes)). f_equal. by apply Hall.
    + rewrite bool_decide_true by (by apply dec_stable). apply IH.
Qed.

(** What relabelling changes of a node. *)
Lemma relabelled_facts node :
  labelledOk (relabelled node)
  ∧ ObjectMeta.Name (Node.ObjectMeta (relabelled node)) = ObjectMeta.Name (Node.ObjectMeta node)
  ∧ ObjectMeta.Namespace (Node.ObjectMeta (relabelled node))
    = ObjectMeta.Namespace (Node.ObjectMeta node)
  ∧ ObjectMeta.Annotations (Node.ObjectMeta (relabelled node))
    = ObjectMeta.Annotations (Node.ObjectMeta node)
  ∧ ∀ key, key ≠ DOTMESH_NODE_LABEL →
      go_lookup (ObjectMeta.Labels (Node.ObjectMeta (relabelled node))) key
      = go_lookup (ObjectMeta.Labels (Node.ObjectMeta node)) key.
Proof.
  unfold labelledOk, relabelled, setLabels. simpl. split_and!; [|done..|].
  - apply lookup_insert_eq.
  - intros key Hne. rewrite lookup_insert_ne by done.
    by destruct (ObjectMeta.Labels (Node.ObjectMeta node)).
Qed.

(** X5.  The labelling loop sends updates only, one for each listed node
    that lacks its identity label, in the order of the list and as far as
    the loop comes; the node sent has the name, the namespace, the
    annotations and every other label of the listed node, and the identity
    label set to its name.  A node that carries the label is never
    updated. *)
Theorem labelling_only_adds_the_identity_label c (nodes : list Node.t) (tr0 : list event) :
  ∃ evs r,
    labelNodes c nodes tr0 = (tr0 ++ evs, r)
    ∧ calls evs = map Nodes_Update (updatedNodes evs)
    ∧ updatedNodes evs
      `prefix_of` map relabelled (filter (λ node, ¬ labelledOk node) nodes)
    ∧ (r = Ret tt →
       updatedNodes evs = map relabelled (filter (λ node, ¬ labelledOk node) nodes))
    ∧ ∀ n2, n2 ∈ updatedNodes evs →
        labelledOk n2
        ∧ ∃ node, node ∈ nodes ∧ ¬ labelledOk node
            ∧ ObjectMeta.Name (Node.ObjectMeta n2) = ObjectMeta.Name (Node.ObjectMeta node)
            ∧ ObjectMeta.Namespace (Node.ObjectMeta n2)
              = ObjectMeta.Namespace (Node.ObjectMeta node)
            ∧ ObjectMeta.Annotations (Node.ObjectMeta n2)
              = ObjectMeta.Annotations (Node.ObjectMeta node)
            ∧ ∀ key, key ≠ DOTMESH_NODE_LABEL →
                go_lookup (ObjectMeta.Labels (Node.ObjectMeta n2)) key
                = go_lookup (ObjectMeta.Labels (Node.ObjectMeta node)) key.
Proof.
  destruct (labelNodes_updates c nodes tr0) as (evs & r & Heq & Hpre & Hall).
  destruct (labelNodes_spec c nodes tr0) as (evs' & r' & Heq' & Hcalls & _).
  rewrite Heq in Heq'. injection Heq' as Hevs%app_inv_head <-. subst evs'.
  exists evs, r. split_and!; [done..|].
  intros n2 Hn2. destruct Hpre as [rest Hpre].
  assert (n2 ∈ map relabelled (filter (λ node, ¬ labelledOk node) nodes)) as Hin.
  { rewrite Hpre. apply elem_of_app. by left. }
  apply list_elem_of_fmap in Hin as (node & -> & [Hbad Hnode]%list_elem_of_filter).
  destruct (relabelled_facts node) as (? & ? & ? & ? & ?).
  split; [done|]. by exists node.
Qed.

(** X6.  A listed node without its label whose label map is nil makes the
    pass panic when the labelling loop reaches it: the nodes before it have
    been updated, no pod is deleted or created. *)
Theorem pass_panics_on_nil_labels ord c (nodes1 nodes2 : list Node.t) (node : Node.t)
    (tr1 : list event) :
  nodeLister c = Ret (nodes1 ++ node :: nodes2) →
  labelNodes c nodes1 [] = (tr1, Ret tt) →
  ObjectMeta.Labels (Node.ObjectMeta node) = None →
  run DOTMESH_IMAGE ord c = (tr1, Panic "assignment to entry in nil map")
  ∧ deletedNames tr1 = [] ∧ createdPods tr1 = [].
Proof.
  intros Hnodes Hfirst Hnil.
  assert (labelNodes c (nodes1 ++ node :: nodes2) []
          = (tr1, Panic "assignment to entry in nil map")) as Hloop.
  { rewrite labelNodes_app, Hfirst. simpl. by rewrite Hnil. }
  split.
  - unfold run, process. rewrite Hnodes. unfold M_bind at 1 2, M_lift at 1.
    by rewrite Hloop.
  - destruct (labelNodes_spec c nodes1 []) as (evs & r & Heq & Hcalls & _).
    rewrite Hfirst in Heq. simpl in Heq. injection Heq as -> _.
    by apply updates_only.
Qed.

(** X7.  When listing the nodes fails, or listing the pods fails after a
    labelling loop that came to its end, the pass returns that error; it
    has deleted and created nothing, and no call that it issued failed. *)
Theorem lister_error_ends_the_pass ord c (e : error) :
  (nodeLister c = Fail e
   ∨ ∃ nodes, nodeLister c = Ret nodes ∧ podLister c = Fail e
              ∧ (labelNodes c nodes []).2 = Ret tt) →
  let tr := (run DOTMESH_IMAGE ord c).1 in
  (run DOTMESH_IMAGE ord c).2 = Fail e
  ∧ deletedNames tr = [] ∧ createdPods tr = [] ∧ allSucceeded tr.
Proof.
  intros Hcase tr. subst tr. unfold run.
  destruct (process_cases ord c [])
    as (evA & HcA & [(-> & [(e' & Hn & ->)|(msg & Hn & ->)])
                    |(nodes & rA & Hn & HA & Hrest)]).
  - destruct Hcase as [He|(nodes & He & _)]; rewrite He in Hn; [|done].
    injection Hn as ->. split_and!; [done..|]. by intros ? ? ?%elem_of_nil.
  - destruct Hcase as [He|(nodes & He & _)]; by rewrite He in Hn.
  - destruct Hcase as [He|(nodes' & He & Hp & Hr)]; rewrite He in Hn; [done|].
    injection Hn as ->. rewrite HA in Hr. simpl in Hr. subst rA.
    destruct Hrest as [Hok Hrest]. rewrite Hp in Hrest. rewrite Hrest. simpl.
    destruct (updates_only evA HcA). done.
Qed.

(** X17.  The calls of a pass, in the order they are issued: the node
    updates, then the deletions, each in the namespace [dotmesh] with
    background propagation, then the creations, each in the namespace
    [dotmesh]. *)
Theorem pass_calls_in_order ord c :
  let tr := (run DOTMESH_IMAGE ord c).1 in
  calls tr
  = map Nodes_Update (updatedNodes tr)
    ++ map deletePod (deletedNames tr)
    ++ map (Pods_Create DOTMESH_NAMESPACE) (createdPods tr).
Proof.
  intros tr. subst tr. unfold run.
  destruct (process_cases ord c [])
    as (evA & HcA & [(-> & [(e' & Hn & ->)|(msg & Hn & ->)])
                    |(nodes & rA & Hn & HA & Hrest)]); [done..|].
  destruct (updates_only evA HcA) as [HdA HkA].
  assert (calls evA = map Nodes_Update (updatedNodes evA) ++ map deletePod (deletedNames evA)
                      ++ map (Pods_Create DOTMESH_NAMESPACE) (createdPods evA)) as Hstop.
  { rewrite HdA, HkA. simpl. by rewrite app_nil_r. }
  destruct rA as [[]|e|msg]; [|by destruct Hrest as [_ ->]..].
  destruct Hrest as [_ Hrest].
  destruct (podLister c) as [dotmeshes|e|msg]; [|by rewrite Hrest..].
  destruct Hrest as (evC & evD & -> & HcC & HcD & _). simpl.
  destruct (deletions_only _ _ HcC) as (HuC & HdC & HkC).
  destruct (creations_only _ _ _ HcD) as (HuD & HdD & HkD).
  rewrite !calls_app, !updatedNodes_app, !deletedNames_app, !createdPods_app.
  rewrite HdA, HkA, HuC, HdC, HkC, HuD, HdD, HkD, HcA, HcC, HcD. simpl.
  rewrite !app_nil_r. by rewrite map_map.
Qed.


(** ** The deletion decisions, counted *)

Lemma doomed_sublist st minimum names population :
  doomed st minimum names population `sublist_of` names.
Proof.
  revert population. induction names as [|name names IH]; intros population; simpl.
  - done.
  - destruct (negb (isRunning st name) || (minimum <? population)).
    + apply sublist_skip, IH.
    + apply sublist_cons, IH.
Qed.

Lemma runningIn_perm st names1 names2 :
  names1 ≡ₚ names2 → runningIn st names1 = runningIn st names2.
Proof.
  induction 1 as [|name l1 l2 _ IH|name1 name2 l|l1 l2 l3 _ IH1 _ IH2].
  - done.
  - by rewrite !runningIn_cons, IH.
  - rewrite !runningIn_cons. lia.
  - congruence.
Qed.

(** The Running names deleted are as many as the limit allows. *)
Lemma doomed_running_exact st minimum names population :
  runningIn st (doomed st minimum names population)
  = Z.min (runningIn st names) (Z.max 0 (population - minimum)).
Proof.
  revert population. induction names as [|name names IH]; intros population; simpl.
  - rewrite runningIn_nil. lia.
  - pose proof (runningIn_nonneg st names) as Hnames.
    rewrite (runningIn_cons st name names).
    destruct (isRunning st name) eqn:Hname; simpl.
    + destruct (minimum <? population) eqn:Hlt.
      * apply Z.ltb_lt in Hlt. rewrite runningIn_cons, Hname, IH. lia.
      * apply Z.ltb_ge in Hlt. rewrite IH. lia.
    + rewrite runningIn_cons, Hname, IH. lia.
Qed.

(** Every name that is not Running is deleted. *)
Lemma doomed_length st minimum names population :
  Z.of_nat (length (doomed st minimum names population))
  = Z.of_nat (length names) - runningIn st names
    + runningIn st (doomed st minimum names population).
Proof.
  revert population. induction names as [|name names IH]; intros population; simpl.
  - rewrite runningIn_nil. lia.
  - rewrite (runningIn_cons st name names).
    destruct (isRunning st name) eqn:Hname; simpl.
    + destruct (minimum <? population) eqn:Hlt.
      * simpl. rewrite runningIn_cons, Hname.
        specialize (IH (population - 1)). lia.
      * specialize (IH population). lia.
    + rewrite runningIn_cons, Hname. specialize (IH population). simpl. lia.
Qed.

(** ** The classification loop, continued *)

Section classification_exact.

Variable validNodes : gset string.

(** A step suspends just the nodes that the pod suspends. *)
Lemma observePod_suspends st dotmesh node :
  node ∈ suspendedNodes (observePod DOTMESH_IMAGE validNodes st dotmesh)
  ↔ node ∈ suspendedNodes st ∨ suspends DOTMESH_IMAGE validNodes dotmesh node.
Proof.
  unfold observePod, suspends.
  destruct (PodSpec.NodeSelector (Pod.Spec dotmesh) !! DOTMESH_NODE_LABEL)
    as [boundNode|] eqn:Hsel; [|simpl; naive_solver].
  destruct (PodSpec.Containers (Pod.Spec dotmesh)) as [|container [|c2 cs]] eqn:Hcs.
  - simpl. rewrite elem_of_union, elem_of_singleton. naive_solver.
  - repeat case_bool_decide; simpl;
      rewrite ?elem_of_union, ?elem_of_singleton; naive_solver.
  - simpl. rewrite elem_of_union, elem_of_singleton. naive_solver.
Qed.

Lemma observePods_suspends dotmeshes node :
  node ∈ suspendedNodes (observePods DOTMESH_IMAGE validNodes dotmeshes)
  ↔ ∃ dotmesh, dotmesh ∈ dotmeshes ∧ suspends DOTMESH_IMAGE validNodes dotmesh node.
Proof.
  apply (observePods_ind DOTMESH_IMAGE validNodes (λ dotmeshes st,
    node ∈ suspendedNodes st
    ↔ ∃ dotmesh, dotmesh ∈ dotmeshes ∧ suspends DOTMESH_IMAGE validNodes dotmesh node)).
  - simpl. set_solver.
  - intros seen st dotmesh IH. rewrite observePod_suspends, IH.
    setoid_rewrite elem_of_app. setoid_rewrite list_elem_of_singleton. naive_solver.
Qed.

(** A pod that suspends a node fails a check. *)
Lemma suspends_unhealthy dotmesh node boundNode :
  suspends DOTMESH_IMAGE validNodes dotmesh node →
  ¬ healthyOn DOTMESH_IMAGE validNodes dotmesh boundNode.
Proof.
  intros (Hb & Hs) (Hb' & (container & Hcs & Himg) & Hnode & Hv & Hph).
  assert (node = boundNode) as -> by congruence.
  destruct Hs as [Hlen|[(c2 & Hc2 & Hi)|[(Hset & Hne)|(_ & Hfailed)]]].
  - by apply (Hlen container).
  - rewrite Hcs in Hc2. by injection Hc2 as <-.
  - by destruct Hnode.
  - done.
Qed.

(** The phases that the loop records. *)
Lemma observePods_phases dotmeshes :
  let st := observePods DOTMESH_IMAGE validNodes dotmeshes in
  runningPodCount st
  = Z.of_nat (length (filter (λ dotmesh, PodStatus.Phase (Pod.Status dotmesh) = v1.PodRunning)
                             dotmeshes))
  ∧ ∀ dotmeshName,
      dotmeshIsRunning st !! dotmeshName
      = (λ dotmesh, bool_decide (PodStatus.Phase (Pod.Status dotmesh) = v1.PodRunning))
        <$> last (filter (λ dotmesh, ObjectMeta.Name (Pod.ObjectMeta dotmesh) = dotmeshName)
                         dotmeshes).
Proof.
  apply (observePods_ind DOTMESH_IMAGE validNodes (λ dotmeshes st,
    runningPodCount st
    = Z.of_nat (length (filter (λ dotmesh, PodStatus.Phase (Pod.Status dotmesh) = v1.PodRunning)
                               dotmeshes))
    ∧ ∀ dotmeshName,
        dotmeshIsRunning st !! dotmeshName
        = (λ dotmesh, bool_decide (PodStatus.Phase (Pod.Status dotmesh) = v1.PodRunning))
          <$> last (filter (λ dotmesh, ObjectMeta.Name (Pod.ObjectMeta dotmesh) = dotmeshName)
                           dotmeshes))).
  - split; [done|]. intros dotmeshName. apply lookup_empty.
  - intros seen st dotmesh [IHcount IHmap].
    assert (runningPodCount (observePod DOTMESH_IMAGE validNodes st dotmesh)
            = runningPodCount (recordPhase (ObjectMeta.Name (Pod.ObjectMeta dotmesh))
                                 (PodStatus.Phase (Pod.Status dotmesh)) st)
            ∧ dotmeshIsRunning (observePod DOTMESH_IMAGE validNodes st dotmesh)
              = dotmeshIsRunning (recordPhase (ObjectMeta.Name (Pod.ObjectMeta dotmesh))
                                    (PodStatus.Phase (Pod.Status dotmesh)) st)) as [-> ->].
    { destruct (observePod_cases DOTMESH_IMAGE validNodes st dotmesh)
        as [(b & _ & ->)|(_ & [->|(b & _ & ->)])]; done. }
    simpl. split.
    + rewrite filter_app, filter_cons, filter_nil, length_app, IHcount.
      destruct (decide (PodStatus.Phase (Pod.Status dotmesh) = v1.PodRunning)) as [Hrun|Hrun].
      * rewrite bool_decide_true by done. simpl. lia.
      * rewrite bool_decide_false by done. simpl. lia.
    + intros dotmeshName. rewrite filter_app, filter_cons, filter_nil.
      destruct (decide (ObjectMeta.Name (Pod.ObjectMeta dotmesh) = dotmeshName)) as [<-|Hne].
      * by rewrite lookup_insert_eq, last_snoc.
      * rewrite lookup_insert_ne by done. rewrite app_nil_r. apply IHmap.
Qed.

(** X9.  The count of Running pods that the rate limit starts from is
    the number of listed pods in the Running phase; a name is taken for
    Running when the last listed pod of that name is in the Running phase,
    and a name that no listed pod has is not. *)
Theorem running_pods_are_counted (dotmeshes : list Pod.t) :
  let st := observePods DOTMESH_IMAGE validNodes dotmeshes in
  runningPodCount st
  = Z.of_nat (length (filter (λ dotmesh, PodStatus.Phase (Pod.Status dotmesh) = v1.PodRunning)
                             dotmeshes))
  ∧ ∀ dotmeshName,
      isRunning st dotmeshName
      = match last (filter (λ dotmesh, ObjectMeta.Name (Pod.ObjectMeta dotmesh) = dotmeshName)
                           dotmeshes) with
        | Some dotmesh => bool_decide (PodStatus.Phase (Pod.Status dotmesh) = v1.PodRunning)
        | None => false
        end.
Proof.
  intros st. destruct (observePods_phases dotmeshes) as [Hcount Hmap].
  split; [done|]. intros dotmeshName. unfold isRunning. subst st.
  rewrite Hmap. by destruct (last _).
Qed.

(** X10.  What the classification loop leaves in its three sets: the
    names of the pods that fail a check are marked to kill; the nodes
    suspended are those to which a pod is bound that has not exactly one
    container, or another image, or is scheduled on another node, or is
    Failed on a valid node; the nodes left undotted are the valid nodes to
    which no healthy pod is bound.  A pod that suspends a node is itself
    marked. *)
Theorem classification_is_exact (dotmeshes : list Pod.t) :
  let st := observePods DOTMESH_IMAGE validNodes dotmeshes in
  (∀ dotmeshName,
     dotmeshName ∈ dotmeshesToKill st
     ↔ ∃ dotmesh, dotmesh ∈ dotmeshes
         ∧ ObjectMeta.Name (Pod.ObjectMeta dotmesh) = dotmeshName
         ∧ ∀ boundNode, ¬ healthyOn DOTMESH_IMAGE validNodes dotmesh boundNode)
  ∧ (∀ node,
       node ∈ suspendedNodes st
       ↔ ∃ dotmesh, dotmesh ∈ dotmeshes ∧ suspends DOTMESH_IMAGE validNodes dotmesh node)
  ∧ (∀ node,
       node ∈ undottedNodes st
       ↔ node ∈ validNodes
         ∧ ∀ dotmesh, dotmesh ∈ dotmeshes
             → ¬ healthyOn DOTMESH_IMAGE validNodes dotmesh node)
  ∧ (∀ dotmesh node,
       dotmesh ∈ dotmeshes → suspends DOTMESH_IMAGE validNodes dotmesh node →
       ObjectMeta.Name (Pod.ObjectMeta dotmesh) ∈ dotmeshesToKill st).
Proof.
  intros st. subst st. split_and!.
  - apply observePods_toKill.
  - apply observePods_suspends.
  - apply observePods_undotted.
  - intros dotmesh node Hin Hsus. apply observePods_toKill.
    exists dotmesh. split_and!; [done..|]. intros boundNode.
    by eapply suspends_unhealthy.
Qed.

End classification_exact.

(** ** The deletions and the creations of a pass *)

Lemma newDotmesh_inj c node1 node2 :
  newDotmesh DOTMESH_IMAGE c node1 = newDotmesh DOTMESH_IMAGE c node2 → node1 = node2.
Proof.
  intros Heq.
  apply (f_equal (λ pod, PodSpec.NodeSelector (Pod.Spec pod) !! DOTMESH_NODE_LABEL)) in Heq.
  simpl in Heq. rewrite !lookup_singleton_eq in Heq. congruence.
Qed.

Lemma rangeToKill_NoDup ord (names : gset string) : NoDup (rangeToKill ord names).
Proof. rewrite rangeToKill_perm. apply NoDup_elements. Qed.

Lemma rangeUndotted_NoDup ord (nodes : gset string) : NoDup (rangeUndotted ord nodes).
Proof. rewrite rangeUndotted_perm. apply NoDup_elements. Qed.

(** X12.  A pass deletes no pod name twice, and deletes only names of
    listed pods that fail a check. *)
Theorem deletions_are_distinct_unhealthy_pods ord c (nodes : list Node.t)
    (dotmeshes : list Pod.t) :
  nodeLister c = Ret nodes → podLister c = Ret dotmeshes →
  let validNodes := observeNodes nodes in
  let tr := (run DOTMESH_IMAGE ord c).1 in
  NoDup (deletedNames tr)
  ∧ ∀ dotmeshName, dotmeshName ∈ deletedNames tr →
      ∃ dotmesh, dotmesh ∈ dotmeshes
        ∧ ObjectMeta.Name (Pod.ObjectMeta dotmesh) = dotmeshName
        ∧ ∀ boundNode, ¬ healthyOn DOTMESH_IMAGE validNodes dotmesh boundNode.
Proof.
  intros Hnodes Hpods validNodes tr.
  destruct (run_summary DOTMESH_IMAGE c ord nodes dotmeshes Hnodes Hpods)
    as [(_ & Hd & _)|(_ & Hd & _)]; subst tr; rewrite Hd.
  - split.
    + eapply sublist_NoDup; [apply rangeToKill_NoDup|apply doomed_sublist].
    + intros dotmeshName Hin%doomed_subset.
      rewrite rangeToKill_perm in Hin. apply elem_of_elements in Hin.
      by apply observePods_toKill in Hin.
  - split; [apply NoDup_nil_2|]. by intros ? ?%elem_of_nil.
Qed.

(** X15.  In a pass that comes to its end, a pod is created for a node just
    when the node is valid and no listed pod is healthy on it or suspends
    it; every created pod is one that [newDotmesh] builds, and no two
    created pods have the same name. *)
Theorem creations_are_the_uncovered_nodes ord c (nodes : list Node.t)
    (dotmeshes : list Pod.t) :
  nodeLister c = Ret nodes → podLister c = Ret dotmeshes →
  (run DOTMESH_IMAGE ord c).2 = Ret tt →
  let validNodes := observeNodes nodes in
  let tr := (run DOTMESH_IMAGE ord c).1 in
  (∀ node,
     newDotmesh DOTMESH_IMAGE c node ∈ createdPods tr
     ↔ node ∈ validNodes
       ∧ ∀ dotmesh, dotmesh ∈ dotmeshes →
           ¬ healthyOn DOTMESH_IMAGE validNodes dotmesh node
           ∧ ¬ suspends DOTMESH_IMAGE validNodes dotmesh node)
  ∧ (∀ pod, pod ∈ createdPods tr → ∃ node, pod = newDotmesh DOTMESH_IMAGE c node)
  ∧ NoDup (map (λ pod, ObjectMeta.Name (Pod.ObjectMeta pod)) (createdPods tr)).
Proof.
  intros Hnodes Hpods Hret validNodes tr.
  destruct (run_summary DOTMESH_IMAGE c ord nodes dotmeshes Hnodes Hpods)
    as [(_ & _ & Hk)|(Hr & _)]; [|done].
  subst tr. rewrite Hk. fold validNodes.
  set (st := observePods DOTMESH_IMAGE validNodes dotmeshes).
  assert (Hin : ∀ node,
    node ∈ filter (λ node, node ∉ suspendedNodes st) (rangeUndotted ord (undottedNodes st))
    ↔ node ∈ validNodes
      ∧ ∀ dotmesh, dotmesh ∈ dotmeshes →
          ¬ healthyOn DOTMESH_IMAGE validNodes dotmesh node
          ∧ ¬ suspends DOTMESH_IMAGE validNodes dotmesh node).
  { intros node. rewrite list_elem_of_filter, rangeUndotted_perm, elem_of_elements.
    unfold st. rewrite observePods_suspends, observePods_undotted. split.
    - intros (Hs & Hv & Hh). split; [done|]. intros dotmesh Hp.
      split; [by apply Hh|]. intros Hsus. apply Hs. by exists dotmesh.
    - intros (Hv & Hall). split_and!; [|done|].
      + intros (dotmesh & Hp & Hsus). by destruct (Hall dotmesh Hp).
      + intros dotmesh Hp. by destruct (Hall dotmesh Hp). }
  split_and!.
  - intros node. rewrite <- Hin, list_elem_of_fmap. split.
    + by intros (node' & ->%newDotmesh_inj & Hnode).
    + intros Hnode. by exists node.
  - intros pod (node & -> & _)%list_elem_of_fmap. by exists node.
  - rewrite <- list_fmap_compose.
    apply NoDup_fmap_2_strong.
    + intros node1 node2 _ _ Heq. simpl in Heq. by simplify_eq.
    + apply NoDup_filter, rangeUndotted_NoDup.
Qed.

(** X13.  How many pods a pass that comes to its end deletes, whatever the
    order in which it visits the marked names: every marked name that is
    not Running, and of the marked names that are Running as many as the
    Running pods exceed the minimum population. *)
Theorem deletions_are_counted ord c (nodes : list Node.t) (dotmeshes : list Pod.t) :
  nodeLister c = Ret nodes → podLister c = Ret dotmeshes →
  (run DOTMESH_IMAGE ord c).2 = Ret tt →
  let validNodes := observeNodes nodes in
  let st := observePods DOTMESH_IMAGE validNodes dotmeshes in
  let minimum := clusterMinimumPopulation (Z.of_nat (size validNodes)) in
  let tr := (run DOTMESH_IMAGE ord c).1 in
  let markedRunning := runningIn st (elements (dotmeshesToKill st)) in
  runningIn st (deletedNames tr)
  = Z.min markedRunning (Z.max 0 (runningPodCount st - minimum))
  ∧ Z.of_nat (length (deletedNames tr))
    = Z.of_nat (size (dotmeshesToKill st)) - markedRunning
      + Z.min markedRunning (Z.max 0 (runningPodCount st - minimum)).
Proof.
  intros Hnodes Hpods Hret validNodes st minimum tr markedRunning.
  destruct (run_summary DOTMESH_IMAGE c ord nodes dotmeshes Hnodes Hpods)
    as [(_ & Hd & _)|(Hr & _)]; [|done].
  subst tr. rewrite Hd. fold validNodes. fold st. fold minimum.
  rewrite doomed_length, doomed_running_exact.
  rewrite (runningIn_perm st _ _ (rangeToKill_perm ord (dotmeshesToKill st))).
  fold markedRunning. split; [done|].
  by rewrite (Permutation_length (rangeToKill_perm ord (dotmeshesToKill st))).
Qed.

(** X14.  A rolling upgrade makes progress: in a cluster of fewer than
    [2^22] nodes in which more than three quarters as many pods are
    Running as there are valid nodes, a pass that comes to its end and has
    marked a pod deletes at least one. *)
Theorem marked_pods_are_deleted_above_the_minimum ord c (nodes : list Node.t)
    (dotmeshes : list Pod.t) :
  nodeLister c = Ret nodes → podLister c = Ret dotmeshes →
  (run DOTMESH_IMAGE ord c).2 = Ret tt →
  let validNodes := observeNodes nodes in
  let st := observePods DOTMESH_IMAGE validNodes dotmeshes in
  Z.of_nat (size validNodes) < 2 ^ 22 →
  3 * Z.of_nat (size validNodes) < 4 * runningPodCount st →
  dotmeshesToKill st ≠ ∅ →
  deletedNames (run DOTMESH_IMAGE ord c).1 ≠ [].
Proof.
  intros Hnodes Hpods Hret validNodes st Hsmall Habove Hmarked.
  destruct (run_summary DOTMESH_IMAGE c ord nodes dotmeshes Hnodes Hpods)
    as [(_ & Hd & _)|(Hr & _)]; [|done].
  rewrite Hd. fold validNodes. fold st.
  rewrite clusterMinimumPopulation_floor by lia.
  set (minimum := 3 * Z.of_nat (size validNodes) / 4).
  assert (minimum < runningPodCount st) as Hlt.
  { subst minimum. apply Z.div_lt_upper_bound; lia. }
  destruct (rangeToKill ord (dotmeshesToKill st)) as [|name names] eqn:Hnames.
  - destruct Hmarked. apply leibniz_equiv, elements_empty_inv, Permutation_nil_r.
    rewrite <- (rangeToKill_perm ord). by rewrite Hnames.
  - simpl. apply Z.ltb_lt in Hlt. rewrite Hlt, orb_true_r. done.
Qed.

End pass.

Section informers.

Variable DOTMESH_IMAGE : string.

(** X4.  Every pod that the creation step builds is in the namespace
    that the pod informer lists and watches and carries the label that
    its selector asks for, so the operator sees the pods it creates.  The
    informer changes nothing else of the options it is given. *)
Theorem created_pods_are_watched (c : dotmeshController) (node : string)
    (lo : ListOptions.t) :
  let dotmesh := newDotmesh DOTMESH_IMAGE c node in
  ObjectMeta.Namespace (Pod.ObjectMeta dotmesh) = (podListOptions lo).1
  ∧ selectedBy (ListOptions.LabelSelector (podListOptions lo).2)
               (ObjectMeta.Labels (Pod.ObjectMeta dotmesh))
  ∧ ListOptions.FieldSelector (podListOptions lo).2 = ListOptions.FieldSelector lo
  ∧ ListOptions.ResourceVersion (podListOptions lo).2 = ListOptions.ResourceVersion lo.
Proof.
  intros dotmesh. split_and!; [done| |done..].
  exists DOTMESH_POD_ROLE_LABEL, DOTMESH_ROLE_SERVER. split; [done|].
  apply lookup_singleton_eq.
Qed.

(** X3.  The node informer after construction: when the ConfigMap is
    missing, or has no node selector or an empty one, the options are
    passed on as they are, so all nodes are listed; when it has a node
    selector, that replaces the label selector and nothing else. *)
Theorem node_selector_from_the_configuration (client : kubernetes.Interface)
    (nodeIndexer : res (list Node.t)) (podIndexer : res (list Pod.t))
    (d : gmap string string) (lo : ListOptions.t) :
  fetchedData client = Some d →
  ∃ c, newDotmeshController client nodeIndexer podIndexer = Ret c
       ∧ match d !! CONFIG_NODE_SELECTOR with
         | None | Some "" => nodeListOptions c lo = lo
         | Some selector =>
             nodeListOptions c lo
             = ListOptions.mk selector (ListOptions.FieldSelector lo)
                              (ListOptions.ResourceVersion lo)
         end.
Proof.
  intros Hfetch.
  destruct (newDotmeshController_resolved client nodeIndexer podIndexer d Hfetch)
    as (c & Hc & Hdef & _).
  exists c. split; [done|]. unfold nodeListOptions, configValue.
  rewrite (Hdef CONFIG_NODE_SELECTOR "") by (apply list_elem_of_here).
  destruct (d !! CONFIG_NODE_SELECTOR) as [selector|]; simpl; [|done].
  destruct (decide (selector = "")) as [->|Hne]; [done|].
  rewrite bool_decide_true by done. by destruct selector.
Qed.

End informers.

(** ** The nodes that get a pod *)

Section free_nodes.

Variable DOTMESH_IMAGE : string.

(** A pod bound to a node is healthy on it or suspends it, or else the
    node is not valid. *)
Lemma bound_pod_cases (validNodes : gset string) (dotmesh : Pod.t) (node : string) :
  PodSpec.NodeSelector (Pod.Spec dotmesh) !! DOTMESH_NODE_LABEL = Some node →
  healthyOn DOTMESH_IMAGE validNodes dotmesh node
  ∨ suspends DOTMESH_IMAGE validNodes dotmesh node
  ∨ node ∉ validNodes.
Proof.
  intros Hbound. unfold healthyOn, suspends.
  destruct (decide (node ∈ validNodes)) as [Hvalid|]; [|by right; right].
  destruct (PodSpec.Containers (Pod.Spec dotmesh)) as [|container [|c2 cs]] eqn:Hcs.
  - right; left. split; [done|]. by left.
  - destruct (decide (Container.Image container = DOTMESH_IMAGE)) as [Himage|Himage].
    2:{ right; left. split; [done|]. right; left. by exists container. }
    destruct (decide (PodSpec.NodeName (Pod.Spec dotmesh) = "")) as [Hempty|Hset];
      destruct (decide (PodSpec.NodeName (Pod.Spec dotmesh) = node)) as [Hsame|Hother];
      destruct (decide (PodStatus.Phase (Pod.Status dotmesh) = v1.PodFailed))
        as [Hfailed|Hfine].
    all: try (right; left; split; [done|]; do 3 right; done).
    all: try (right; left; split; [done|]; do 2 right; left; done).
    all: left; split_and!; eauto.
  - right; left. split; [done|]. by left.
Qed.

(** X16.  A pass creates pods only for nodes to which no listed pod is
    bound, whatever the state of that pod, so it never starts a
    replacement beside a pod that is still there; and a pass that comes
    to its end creates a pod for every valid node to which no listed pod
    is bound. *)
Theorem pods_are_created_on_free_nodes (ord : RangeOrder) (c : dotmeshController)
    (nodes : list Node.t) (dotmeshes : list Pod.t) :
  nodeLister c = Ret nodes → podLister c = Ret dotmeshes →
  let tr := (run DOTMESH_IMAGE ord c).1 in
  (∀ dotmesh node,
     dotmesh ∈ dotmeshes →
     PodSpec.NodeSelector (Pod.Spec dotmesh) !! DOTMESH_NODE_LABEL = Some node →
     newDotmesh DOTMESH_IMAGE c node ∉ createdPods tr)
  ∧ ((run DOTMESH_IMAGE ord c).2 = Ret tt →
     ∀ node,
       node ∈ observeNodes nodes →
       (∀ dotmesh, dotmesh ∈ dotmeshes →
          PodSpec.NodeSelector (Pod.Spec dotmesh) !! DOTMESH_NODE_LABEL ≠ Some node) →
       newDotmesh DOTMESH_IMAGE c node ∈ createdPods tr).
Proof.
  intros Hnodes Hpods tr. subst tr.
  set (validNodes := observeNodes nodes).
  set (st := observePods DOTMESH_IMAGE validNodes dotmeshes).
  assert (Hin : ∀ node,
    node ∈ filter (λ node, node ∉ suspendedNodes st) (rangeUndotted ord (undottedNodes st))
    ↔ (node ∉ suspendedNodes st) ∧ (node ∈ undottedNodes st)).
  { intros node. by rewrite list_elem_of_filter, rangeUndotted_perm, elem_of_elements. }
  destruct (run_summary DOTMESH_IMAGE c ord nodes dotmeshes Hnodes Hpods)
    as [(Hret & _ & Hk)|(Hr & _ & Hk)]; rewrite Hk.
  - fold validNodes. fold st. split.
    + intros dotmesh node Hpod Hbound
        (node' & <-%(newDotmesh_inj DOTMESH_IMAGE) & [Hsus Hund]%Hin)%list_elem_of_fmap.
      apply observePods_undotted in Hund as [Hvalid Hnone].
      destruct (bound_pod_cases validNodes dotmesh node Hbound) as [Hh|[Hs|Hv]].
      * by apply (Hnone dotmesh).
      * apply Hsus, observePods_suspends. by exists dotmesh.
      * done.
    + intros _ node Hvalid Hfree. apply list_elem_of_fmap. exists node. split; [done|].
      apply Hin. split.
      * intros (dotmesh & Hpod & Hbound & _)%observePods_suspends. by apply (Hfree dotmesh).
      * apply observePods_undotted. split; [done|].
        intros dotmesh Hpod (Hbound & _). by apply (Hfree dotmesh).
  - split; [|done]. by intros ? ? ? ? ?%elem_of_nil.
Qed.

(** X8.  The valid nodes are the values of the identity label on the
    listed nodes as the cache has them, the empty string for a node
    without the label; nodes with the same value count once; and when
    every listed node carries its label, they are the names of the
    nodes. *)
Theorem valid_nodes_are_the_listed_labels (nodes : list Node.t) :
  (∀ node, node ∈ observeNodes nodes ↔ ∃ n, n ∈ nodes ∧ nodeLabel n = node)
  ∧ (size (observeNodes nodes) ≤ length nodes)%nat
  ∧ (Forall labelledOk nodes →
     ∀ node, node ∈ observeNodes nodes
             ↔ ∃ n, n ∈ nodes ∧ ObjectMeta.Name (Node.ObjectMeta n) = node).
Proof.
  assert (Hset : observeNodes nodes = list_to_set (map nodeLabel nodes)).
  { unfold observeNodes. rewrite <- (union_empty_r_L (list_to_set _)).
    generalize (∅ : gset string).
    induction nodes as [|n nodes IH]; intros validNodes; simpl; [set_solver|].
    rewrite IH. set_solver. }
  assert (Hin : ∀ node, node ∈ observeNodes nodes ↔ ∃ n, n ∈ nodes ∧ nodeLabel n = node).
  { intros node. rewrite Hset, elem_of_list_to_set, list_elem_of_fmap. naive_solver. }
  split_and!; [done| |].
  - rewrite Hset. clear. induction nodes as [|n nodes IH].
    { change (size (∅ : gset string) ≤ 0)%nat. by rewrite size_empty. }
    change (size ({[nodeLabel n]} ∪ list_to_set (map nodeLabel nodes) : gset string)
            ≤ S (length nodes))%nat.
    rewrite size_union_alt, size_singleton.
    pose proof (subseteq_size (list_to_set (map nodeLabel nodes) ∖ {[nodeLabel n]})
                  (list_to_set (map nodeLabel nodes) : gset string)) as Hle.
    specialize (Hle ltac:(set_solver)). lia.
  - intros Hall node. rewrite Hin. split; intros (n & Hn & <-); exists n; split; try done.
    + rewrite Forall_forall in Hall. specialize (Hall n Hn).
      unfold nodeLabel, go_index. by rewrite Hall.
    + rewrite Forall_forall in Hall. specialize (Hall n Hn).
      unfold nodeLabel, go_index. by rewrite Hall.
Qed.

End free_nodes.

(** ** The configuration resolver, continued *)

(** On a map that has every key of the table, nothing is inserted. *)
Lemma provideDefaults_present (d : gmap string string) (kvs : list (string * string)) :
  (∀ key, key ∈ kvs.*1 → is_Some (d !! key)) →
  provideDefaults (Some d) kvs = Ret (Some d).
Proof.
  induction kvs as [|[key deflt] kvs IH]; intros Hall; simpl; [done|].
  rewrite provideDefault_Some.
  destruct (Hall key) as [value ->]; [set_solver|].
  apply IH. intros key' Hin. apply Hall. set_solver.
Qed.

(** X1.  When the fetch of the ConfigMap fails, or the fetched map is not
    nil, the constructor returns a controller over the given client and
    caches whose configuration holds every fetched entry unchanged, also
    those under keys that the table of defaults does not know, and for each
    key of the table the fetched value or else the default. *)
Theorem resolver_fills_in_the_defaults (kube : kubernetes.Interface)
    (nodeIndexer : res (list Node.t)) (podIndexer : res (list Pod.t))
    (d : gmap string string) :
  fetchedData kube = Some d →
  ∃ c d',
    newDotmeshController kube nodeIndexer podIndexer = Ret c
    ∧ client c = kube ∧ nodeLister c = nodeIndexer ∧ podLister c = podIndexer
    ∧ ConfigMap.Data (config c) = Some d'
    ∧ (∀ key value, d !! key = Some value → d' !! key = Some value)
    ∧ (∀ key deflt, (key, deflt) ∈ defaults → d' !! key = Some (default deflt (d !! key)))
    ∧ (∀ key, key ∉ defaults.*1 → d' !! key = d !! key).
Proof.
  unfold fetchedData, newDotmeshController. intros Hfetch.
  destruct (provideDefaults_Some d defaults) as (d' & Hd' & Hkeep & Hother & Hdef).
  destruct (kubernetes.ConfigMaps_Get kube DOTMESH_NAMESPACE DOTMESH_CONFIG_MAP)
    as [[data]|e|msg]; simpl in Hfetch; [subst data|injection Hfetch as <-|done].
  all: specialize (Hdef defaults_NoDup).
  all: cbv beta zeta; cbn [ConfigMap.Data]; rewrite Hd'; eexists _, d'.
  all: by split_and!.
Qed.

(** X2.  Resolving is idempotent: when the configuration that the
    constructor resolved is what a later fetch returns, the constructor
    resolves it to itself. *)
Theorem resolving_is_idempotent (client client2 : kubernetes.Interface)
    (nodeIndexer : res (list Node.t)) (podIndexer : res (list Pod.t))
    (c : dotmeshController) :
  newDotmeshController client nodeIndexer podIndexer = Ret c →
  kubernetes.ConfigMaps_Get client2 DOTMESH_NAMESPACE DOTMESH_CONFIG_MAP = Ret (config c) →
  ∃ c2, newDotmeshController client2 nodeIndexer podIndexer = Ret c2
        ∧ config c2 = config c.
Proof.
  intros Hfirst Hfetch.
  destruct (newDotmeshController_returns _ _ _ _ Hfirst) as [d Hd].
  destruct (provideDefaults_Some d defaults) as (d' & Hd' & _ & _ & Hdef).
  assert (config c = ConfigMap.mk (Some d')) as Hconfig.
  { revert Hfirst. unfold newDotmeshController, fetchedData in *.
    destruct (kubernetes.ConfigMaps_Get client DOTMESH_NAMESPACE DOTMESH_CONFIG_MAP)
      as [[data]|e|msg]; simpl in Hd; [subst data|injection Hd as <-|done].
    all: cbv beta zeta; cbn [ConfigMap.Data]; rewrite Hd'; by intros [= <-]. }
  unfold newDotmeshController. rewrite Hfetch, Hconfig. cbn [ConfigMap.Data].
  rewrite provideDefaults_present; [by eexists|].
  intros key [[key' deflt] [-> Hin]]%list_elem_of_fmap.
  simpl. rewrite (Hdef defaults_NoDup key' deflt Hin). by eexists.
Qed.

(** ** The minimum population *)

(** X11.  In a cluster of fewer than [2^22] nodes, the minimum population
    that the pass computes in float32 is the integer part of three
    quarters of the number of nodes, and for a cluster that has a node it
    is below the number of nodes.  The bound matters: for larger numbers
    float32 rounds, and the result can lie above or below the integer
    part. *)
Theorem minimum_population_is_three_quarters :
  (∀ n, 0 ≤ n < 2 ^ 22 →
     4 * clusterMinimumPopulation n ≤ 3 * n < 4 * (clusterMinimumPopulation n + 1)
     ∧ (1 ≤ n → clusterMinimumPopulation n < n))
  ∧ clusterMinimumPopulation 5592409 = 3 * 5592409 / 4 + 1
  ∧ clusterMinimumPopulation 33554434 = 3 * 33554434 / 4 - 1.
Proof.
  split; [|by vm_compute].
  intros n Hn. rewrite clusterMinimumPopulation_floor by done.
  pose proof (Z.div_mod (3 * n) 4) as Hdiv.
  pose proof (Z.mod_pos_bound (3 * n) 4). lia.
Qed.

(** ** The worker *)

Section worker.

Variable DOTMESH_IMAGE : string.

Lemma errorsLogged_failed_call call e :
  errorsLogged [ApiCall call (Some e); LogError e] = true.
Proof. simpl. by rewrite bool_decide_true. Qed.

(** X18.  A tick of the worker clears the dirty flag.  When the flag was
    not set, the tick issues no call and logs nothing.  When it was set,
    the tick runs one pass; an error that the pass returns is logged and
    not returned, so the worker goes on.  After the tick every failed call
    is followed at once by the log of its error, wherever the pass
    stopped.  The next tick does nothing unless a watch event came in
    between, and any number of watch events makes it run one pass. *)
Theorem worker_tick (ord : RangeOrder) (c : dotmeshController) (updatesNeeded : bool)
    (tr0 : list event) :
  let tick := runWorker DOTMESH_IMAGE ord c updatesNeeded in
  tick.1 = false
  ∧ (updatesNeeded = false → tick.2 tr0 = (tr0, Ret tt))
  ∧ (updatesNeeded = true →
     match process DOTMESH_IMAGE ord c tr0 with
     | (tr', Fail e) => tick.2 tr0 = (tr' ++ [LogError e], Ret tt)
     | stopped => tick.2 tr0 = stopped
     end)
  ∧ (∀ e, (tick.2 tr0).2 ≠ Fail e)
  ∧ (errorsLogged tr0 = true → errorsLogged (tick.2 tr0).1 = true)
  ∧ (∀ (events : nat) ord' c',
       (runWorker DOTMESH_IMAGE ord' c' (Nat.iter events scheduleUpdate tick.1)).2
       = match events with
         | O => M_ret tt
         | S _ => (runWorker DOTMESH_IMAGE ord' c' true).2
         end).
Proof.
  intros tick. subst tick. unfold runWorker. cbn [fst snd].
  split; [done|]. split; [by intros ->|].
  split; [intros ->; by destruct (process _ _ _ _) as [tr' [[]|e|msg]]|].
  match goal with
  | |- ?A ∧ ?B ∧ _ =>
      cut (A ∧ B); [intros [? ?]; split_and!; [done..|]; by intros [|events] ord' c'|]
  end.
  destruct updatesNeeded; [|by split].
  destruct (process_cases DOTMESH_IMAGE ord c tr0)
    as (evA & HcA & [(-> & [(e' & Hn & ->)|(msg & Hn & ->)])
                    |(nodes & rA & Hn & HA & Hrest)]).
  - split; [done|]. intros Hlog. by apply errorsLogged_app.
  - by split.
  - destruct rA as [[]|e|msg].
    + destruct Hrest as [Hok Hrest].
      destruct (podLister c) as [dotmeshes|e|msg].
      * destruct Hrest as (evC & evD & -> & _ & _ & Hlog). split; [done|].
        intros Hlog0. cbn [fst]. apply errorsLogged_app; [done|].
        apply errorsLogged_app; [by apply allSucceeded_errorsLogged|done].
      * rewrite Hrest. split; [done|]. intros Hlog0. unfold glog_Error, emit. cbn [fst].
        rewrite <- app_assoc. apply errorsLogged_app; [done|].
        apply errorsLogged_app; [by apply allSucceeded_errorsLogged|done].
      * rewrite Hrest. split; [done|]. intros Hlog0. cbn [fst].
        apply errorsLogged_app; [done|by apply allSucceeded_errorsLogged].
    + destruct Hrest as [(evs' & n2 & -> & Hok) ->]. split; [done|].
      intros Hlog0. unfold glog_Error, emit. cbn [fst].
      rewrite <- !app_assoc. apply errorsLogged_app; [done|].
      apply errorsLogged_app; [by apply allSucceeded_errorsLogged|].
      apply errorsLogged_failed_call.
    + destruct Hrest as [Hok ->]. split; [done|]. intros Hlog0. cbn [fst].
      apply errorsLogged_app; [done|by apply allSucceeded_errorsLogged].
Qed.

End worker.

(** * The client library *)

Section volume_names.

Variable sep : Ascii.ascii.

Lemma strings_Split_cons s :
  ∃ part parts, strings_Split s sep = part :: parts.
Proof.
  destruct s as [|ch s]; simpl; [by eexists _, _|].
  destruct (Ascii.eqb ch sep); [by eexists _, _|].
  destruct (strings_Split s sep); by eexists _, _.
Qed.

(** There is one more piece than there are separators. *)
Lemma strings_Split_length s :
  length (strings_Split s sep) = S (strings_Count s sep).
Proof.
  induction s as [|ch s IH]; simpl; [done|].
  destruct (Ascii.eqb ch sep); simpl; [by rewrite IH|].
  destruct (strings_Split s sep); simpl in *; lia.
Qed.

(** The first piece has no separator; the string is the first piece, or
    the first piece, a separator and a rest that splits into the other
    pieces. *)
Lemma strings_Split_inv s part parts :
  strings_Split s sep = part :: parts →
  strings_Count part sep = 0%nat
  ∧ ((parts = [] ∧ s = part)
     ∨ ∃ rest, s = part +:+ String sep rest ∧ strings_Split rest sep = parts).
Proof.
  revert part parts. induction s as [|ch s IH]; intros part parts; simpl.
  - intros [= <- <-]. split; [done|]. by left.
  - destruct (Ascii.eqb ch sep) eqn:Hch.
    + apply Ascii.eqb_eq in Hch as ->. intros [= <- <-]. split; [done|].
      right. by exists s.
    + destruct (strings_Split_cons s) as (part' & parts' & Hs). rewrite Hs.
      intros [= <- <-]. destruct (IH _ _ Hs) as [Hcount Hrest].
      simpl. rewrite Hch. split; [done|].
      destruct Hrest as [[-> ->]|(rest & -> & Hparts)]; [by left|].
      right. by exists rest.
Qed.

Lemma strings_Split_whole s :
  strings_Count s sep = 0%nat → strings_Split s sep = [s].
Proof.
  induction s as [|ch s IH]; simpl; [done|].
  destruct (Ascii.eqb ch sep); [done|]. intros Hs. by rewrite IH.
Qed.

Lemma strings_Split_app s rest :
  strings_Count s sep = 0%nat →
  strings_Split (s +:+ String sep rest) sep = s :: strings_Split rest sep.
Proof.
  induction s as [|ch s IH]; simpl.
  - by rewrite Ascii.eqb_refl.
  - destruct (Ascii.eqb ch sep); [done|]. intros Hs. by rewrite IH.
Qed.

Lemma strings_Count_app s1 s2 :
  strings_Count (s1 +:+ s2) sep = (strings_Count s1 sep + strings_Count s2 sep)%nat.
Proof. induction s1 as [|ch s1 IH]; simpl; [done|]. rewrite IH. lia. Qed.

End volume_names.

(** X19.  A namespace and a volume name without a slash, joined by a
    slash, parse to that namespace and that name, whatever the default;
    either may be empty.  A name without a slash parses to the default
    namespace and itself. *)
Theorem qualified_name_round_trip (namespace volume defaultNamespace : string) :
  strings_Count namespace "/" = 0%nat →
  strings_Count volume "/" = 0%nat →
  ParseNamespacedVolumeWithDefault (namespace +:+ "/" +:+ volume) defaultNamespace
  = Ret (namespace, volume)
  ∧ ParseNamespacedVolumeWithDefault volume defaultNamespace
    = Ret (defaultNamespace, volume).
Proof.
  intros Hns Hv. unfold ParseNamespacedVolumeWithDefault. split.
  - change ("/" +:+ volume) with (String "/" volume).
    by rewrite strings_Split_app, strings_Split_whole.
  - by rewrite strings_Split_whole.
Qed.

(** X20.  What parsing a volume name returns.  Without a slash: the
    default namespace and the name itself, also for the empty name, for
    which the branch for no parts is never taken.  With one slash: the
    text before the slash and the text after it, which join to the name
    again.  With two slashes or more: the error, which quotes the name.
    It never panics. *)
Theorem parsed_volume_name (name defaultNamespace : string) :
  match ParseNamespacedVolumeWithDefault name defaultNamespace with
  | Ret (namespace, volume) =>
      strings_Count volume "/" = 0%nat
      ∧ ((strings_Count name "/" = 0%nat
          ∧ namespace = defaultNamespace ∧ volume = name)
         ∨ (strings_Count name "/" = 1%nat
            ∧ strings_Count namespace "/" = 0%nat
            ∧ name = namespace +:+ "/" +:+ volume))
  | Fail e =>
      (2 ≤ strings_Count name "/")%nat
      ∧ e = "Volume names must be of the form NAMESPACE/VOLUME or just VOLUME: '"
            +:+ name +:+ "'"
  | Panic _ => False
  end.
Proof.
  unfold ParseNamespacedVolumeWithDefault.
  pose proof (strings_Split_length "/" name) as Hlen.
  destruct (strings_Split name "/") as [|part [|part2 [|part3 parts]]] eqn:Hsplit.
  - done.
  - simpl in Hlen. apply strings_Split_inv in Hsplit as [Hpart [[_ ->]|(rest & _ & Hrest)]].
    + split; [done|]. left. split; [lia|done].
    + destruct (strings_Split_cons "/" rest) as (? & ? & ?); congruence.
  - simpl in Hlen.
    apply strings_Split_inv in Hsplit as [Hpart [[? _]|(rest & -> & Hrest)]]; [done|].
    apply strings_Split_inv in Hrest as [Hpart2 [[_ ->]|(rest' & _ & Hrest')]].
    + split; [done|]. right. split; [lia|done].
    + destruct (strings_Split_cons "/" rest') as (? & ? & ?); congruence.
  - simpl in Hlen. split; [lia|done].
Qed.

(** * Retrying *)

Section retrying.

Context {State : Type}.
Variable f : State → State * option error.
Variable delay : Z.

Lemma stateAfter_S k s : stateAfter f (S k) s = stateAfter f k (f s).1.
Proof. induction k as [|k IH]; [done|]. simpl in *. by rewrite IH. Qed.

Lemma answer_S k s : answer f (S k) s = answer f k (f s).1.
Proof. unfold answer. by rewrite stateAfter_S. Qed.

Lemma retryLoop_spec remaining try err s :
  ∃ k : nat,
    (k ≤ remaining)%nat
    ∧ (retryLoop f delay remaining try err s).1.2
      = map (λ j, int64 ((try + Z.of_nat j) * delay)) (seq 0 k)
    ∧ (∀ j, (j < k)%nat → answer f j s ≠ None)
    ∧ (((k < remaining)%nat ∧ answer f k s = None
        ∧ (retryLoop f delay remaining try err s).1.1 = stateAfter f (S k) s
        ∧ (retryLoop f delay remaining try err s).2 = None)
       ∨ (k = remaining
          ∧ (retryLoop f delay remaining try err s).1.1 = stateAfter f k s
          ∧ (retryLoop f delay remaining try err s).2
            = match k with O => err | S k' => answer f k' s end)).
Proof.
  revert try err s. induction remaining as [|remaining IH]; intros try err s.
  - exists O. simpl. split_and!; [done..|lia|]. right. done.
  - cbn [retryLoop]. destruct (f s) as [s1 [e|]] eqn:Hf.
    + destruct (IH (try + 1) (Some e) s1) as (k & Hk & Hsleeps & Hfail & Hend).
      set (rest := retryLoop f delay remaining (try + 1) (Some e) s1) in *.
      clearbody rest. destruct rest as [[s2 sleeps] r].
      cbn [fst snd] in *. exists (S k).
      assert (Hs1 : s1 = (f s).1) by by rewrite Hf.
      split_and!.
      * lia.
      * rewrite Hsleeps. cbn [seq map]. rewrite Z.add_0_r. f_equal.
        rewrite <- fmap_S_seq, <- list_fmap_compose. apply list_fmap_ext.
        intros _ j _. simpl. f_equal. lia.
      * intros [|j] Hj.
        -- unfold answer. cbn [stateAfter]. by rewrite Hf.
        -- rewrite answer_S, <- Hs1. apply Hfail. lia.
      * destruct Hend as [(Hlt & Hk' & -> & ->)|(-> & -> & ->)].
        -- left. rewrite answer_S, (stateAfter_S (S k)), <- Hs1. split_and!; [lia|done..].
        -- right. rewrite stateAfter_S, <- Hs1. split_and!; [done..|].
           destruct remaining as [|k']; [unfold answer; cbn [stateAfter]; by rewrite Hf|].
           by rewrite answer_S, <- Hs1.
    + exists O. cbn [fst snd seq map]. split_and!; [lia|done|lia|]. left.
      unfold answer. cbn [stateAfter]. rewrite Hf. split_and!; [lia|done..].
Qed.

(** X21.  [retryUntilSucceeds] calls [f] until a call returns nil, at most
    [retries] times, and after failed call number [j] (from 0) it sleeps
    [j] times the delay, also after the last one.  It returns nil when a
    call returned nil, and otherwise the error of the last call; with
    [retries] zero or negative it does not call [f] and returns nil. *)
Theorem retry_until_succeeds (retries : Z) (s : State) :
  let result := retryUntilSucceeds f delay retries s in
  ∃ k : nat,
    Z.of_nat k ≤ Z.max 0 retries
    ∧ result.1.2 = map (λ j, int64 (Z.of_nat j * delay)) (seq 0 k)
    ∧ (∀ j, (j < k)%nat → answer f j s ≠ None)
    ∧ ((Z.of_nat k < retries ∧ answer f k s = None
        ∧ result.1.1 = stateAfter f (S k) s ∧ result.2 = None)
       ∨ (Z.of_nat k = Z.max 0 retries
          ∧ result.1.1 = stateAfter f k s
          ∧ result.2 = match k with O => None | S k' => answer f k' s end)).
Proof.
  intros result. subst result. unfold retryUntilSucceeds.
  destruct (retryLoop_spec (Z.to_nat retries) 0 None s)
    as (k & Hk & Hsleeps & Hfail & Hend).
  exists k. split_and!; [lia|by rewrite Hsleeps|done|].
  destruct Hend as [(Hlt & ? & ? & ?)|(-> & ? & ?)]; [left|right].
  - split_and!; [lia|done..].
  - split_and!; [lia|done..].
Qed.

End retrying.

(** * The second of two passes *)

Section second_pass.

Variable DOTMESH_IMAGE : string.

Implicit Types (c : dotmeshController) (ord : RangeOrder) (st : podsState).
Implicit Types (dotmesh pod : Pod.t) (dotmeshes : list Pod.t).

Abbreviation nameOf dotmesh := (ObjectMeta.Name (Pod.ObjectMeta dotmesh)).
Abbreviation isPodRunning dotmesh := (PodStatus.Phase (Pod.Status dotmesh) = v1.PodRunning).
Abbreviation pending := (λ pod : Pod.t, withPhase pod v1.PodPending).

Lemma List_filter_bool_decide {A} (P : A → Prop) `{∀ x, Decision (P x)} (l : list A) :
  List.filter (λ x, bool_decide (P x)) l = filter P l.
Proof.
  induction l as [|x l IH]; [done|]. simpl. rewrite filter_cons, IH.
  by destruct (decide (P x)); [rewrite bool_decide_true|rewrite bool_decide_false].
Qed.

Lemma filter_split {A} (P Q : A → Prop) `{∀ x, Decision (P x)} `{∀ x, Decision (Q x)}
    (l : list A) :
  length (filter P l)
  = (length (filter (λ x, P x ∧ Q x) l) + length (filter (λ x, P x ∧ ¬ Q x) l))%nat.
Proof.
  induction l as [|x l IH]; [done|]. rewrite !filter_cons.
  destruct (decide (P x)), (decide (Q x)).
  all: repeat (rewrite decide_True by tauto); repeat (rewrite decide_False by tauto).
  all: repeat (destruct (decide _); [tauto || idtac|tauto || idtac]).
  all: simpl; lia.
Qed.

Lemma filter_none {A} (P : A → Prop) `{∀ x, Decision (P x)} (l : list A) :
  (∀ x, x ∈ l → ¬ P x) → filter P l = [].
Proof.
  induction l as [|x l IH]; intros Hnone; [done|].
  rewrite filter_cons_False by (apply Hnone; by left).
  apply IH. intros y Hy. apply Hnone. by right.
Qed.

Lemma filter_nil_iff {A} (P : A → Prop) `{∀ x, Decision (P x)} (l : list A) :
  filter P l = [] ↔ ∀ x, x ∈ l → ¬ P x.
Proof.
  split; [|apply filter_none].
  intros Hnil x Hin HP. by apply (filter_nil_not_elem_of P l x).
Qed.

Lemma map_nil_iff {A B} (f : A → B) (l : list A) : map f l = [] ↔ l = [].
Proof. by destruct l. Qed.

Lemma NoDup_fmap_eq {A B} (f : A → B) (l : list A) x y :
  NoDup (map f l) → x ∈ l → y ∈ l → f x = f y → x = y.
Proof.
  induction l as [|z l IH]; simpl; [by intros _ ?%elem_of_nil|].
  intros [Hz Hl]%NoDup_cons [->|Hx]%elem_of_cons [->|Hy]%elem_of_cons Heq; [done|..].
  - destruct Hz. rewrite Heq. apply list_elem_of_fmap. by exists y.
  - destruct Hz. rewrite <- Heq. apply list_elem_of_fmap. by exists x.
  - by apply IH.
Qed.

(** ** The caches after a pass *)

Lemma echo_app tr1 tr2 caches : echo (tr1 ++ tr2) caches = echo tr2 (echo tr1 caches).
Proof. apply foldl_app. Qed.

(** After a trace of successful deletions, the pods of the deleted names
    are gone. *)
Lemma echo_deletions tr nodes dotmeshes names :
  allSucceeded tr →
  calls tr = map deletePod names →
  echo tr (nodes, dotmeshes)
  = (nodes, filter (λ dotmesh, nameOf dotmesh ∉ names) dotmeshes).
Proof.
  unfold echo. revert dotmeshes names.
  induction tr as [|ev tr IH]; intros dotmeshes names Hok Hcalls.
  - destruct names; [|done]. simpl. f_equal. symmetry. apply filter_all.
    intros dotmesh. set_solver.
  - assert (Hok' : allSucceeded tr) by (intros call e ?; eapply Hok; by right).
    destruct ev as [call [e|]|e].
    + destruct (Hok call e). by left.
    + change (calls (ApiCall call None :: tr)) with (call :: calls tr) in Hcalls.
      destruct names as [|name names]; [done|]. injection Hcalls as -> Hcalls.
      simpl. rewrite (IH _ names) by done. f_equal.
      unfold removePod. rewrite (List_filter_bool_decide (λ pod, nameOf pod ≠ name)).
      rewrite list_filter_filter. apply list_filter_iff.
      intros dotmesh. rewrite not_elem_of_cons. tauto.
    + simpl. by apply IH.
Qed.

(** ** When a pass deletes nothing *)

Lemma doomed_nil st minimum names population :
  doomed st minimum names population = []
  ↔ ∀ dotmeshName, dotmeshName ∈ names →
      isRunning st dotmeshName = true ∧ population ≤ minimum.
Proof.
  induction names as [|name names IH]; simpl.
  - split; [by intros _ ? ?%elem_of_nil|done].
  - destruct (isRunning st name) eqn:Hname; simpl.
    + destruct (minimum <? population) eqn:Hlt.
      * apply Z.ltb_lt in Hlt. split; [done|]. intros Hall.
        destruct (Hall name) as [_ ?]; [by left|lia].
      * apply Z.ltb_ge in Hlt. rewrite IH. split.
        -- intros Hall n [->|Hn]%elem_of_cons; [done|by apply Hall].
        -- intros Hall n Hn. apply Hall. by right.
    + split; [done|]. intros Hall. destruct (Hall name) as [? _]; [by left|congruence].
Qed.

(** ** The nodes that have a healthy pod *)

Lemma observePods_dotted (validNodes : gset string) dotmeshes node :
  node ∈ validNodes →
  node ∉ undottedNodes (observePods DOTMESH_IMAGE validNodes dotmeshes) →
  ∃ dotmesh, dotmesh ∈ dotmeshes ∧ healthyOn DOTMESH_IMAGE validNodes dotmesh node.
Proof.
  intros Hvalid.
  apply (observePods_ind DOTMESH_IMAGE validNodes (λ dotmeshes st,
    node ∉ undottedNodes st →
    ∃ dotmesh, dotmesh ∈ dotmeshes ∧ healthyOn DOTMESH_IMAGE validNodes dotmesh node)).
  - simpl. done.
  - intros seen st dotmesh IH Hnot.
    assert (Hseen : (∃ d, d ∈ seen ∧ healthyOn DOTMESH_IMAGE validNodes d node) →
                    ∃ d, d ∈ seen ++ [dotmesh] ∧ healthyOn DOTMESH_IMAGE validNodes d node).
    { intros (d & Hd & Hh). exists d. split; [|done]. apply elem_of_app. by left. }
    destruct (observePod_cases DOTMESH_IMAGE validNodes st dotmesh)
      as [(b & Hh & Heq)|(_ & [Heq|(b & _ & Heq)])]; rewrite Heq in Hnot; simpl in Hnot.
    + destruct (decide (node = b)) as [->|Hne].
      * exists dotmesh. split; [|done]. apply elem_of_app. right. by left.
      * apply Hseen, IH. set_solver.
    + by apply Hseen, IH.
    + by apply Hseen, IH.
Qed.

(** ** The Running pods that a pass leaves *)

(** Each deleted name that counts as Running is the name of a listed pod
    in the Running phase. *)
Lemma running_names_bound (validNodes : gset string) dotmeshes names :
  NoDup names →
  runningIn (observePods DOTMESH_IMAGE validNodes dotmeshes) names
  ≤ Z.of_nat (length (filter (λ dotmesh, isPodRunning dotmesh ∧ nameOf dotmesh ∈ names)
                             dotmeshes)).
Proof.
  intros Hnodup. unfold runningIn. apply Nat2Z.inj_le.
  set (st := observePods DOTMESH_IMAGE validNodes dotmeshes).
  rewrite <- (length_fmap (λ dotmesh, nameOf dotmesh)
                (filter (λ dotmesh, isPodRunning dotmesh ∧ nameOf dotmesh ∈ names) dotmeshes)).
  apply submseteq_length, NoDup_submseteq.
  - by apply NoDup_ListNoDup, List.NoDup_filter, NoDup_ListNoDup.
  - intros name [Hin Hrun]%list_elem_of_In%List.filter_In.
    apply list_elem_of_In in Hin.
    destruct (observePods_phases DOTMESH_IMAGE validNodes dotmeshes) as [_ Hmap].
    unfold isRunning in Hrun. fold st in Hmap. rewrite Hmap in Hrun.
    destruct (last _) as [dotmesh|] eqn:Hlast; [|done]. simpl in Hrun.
    apply bool_decide_eq_true in Hrun.
    apply last_Some in Hlast as [l' Hl'].
    assert (dotmesh ∈ filter (λ d, nameOf d = name) dotmeshes) as [Hname Hd]%list_elem_of_filter.
    { rewrite Hl'. apply elem_of_app. right. by left. }
    apply list_elem_of_fmap. exists dotmesh. split; [done|].
    apply list_elem_of_filter. by rewrite Hname.
Qed.


(** ** The classification of the caches that a pass leaves

    The pods that were listed, without those of the deleted [names], and
    a Pending pod for each node of [created], which are valid nodes. *)

Section after_a_pass.

Variable c : dotmeshController.
Variable validNodes : gset string.
Variable dotmeshes : list Pod.t.
Variable names : list string.
Variable created : list string.
Hypothesis created_valid : ∀ node, node ∈ created → node ∈ validNodes.

Local Abbreviation st := (observePods DOTMESH_IMAGE validNodes dotmeshes).

Local Abbreviation dotmeshes2 :=
  (filter (λ dotmesh, nameOf dotmesh ∉ names) dotmeshes
   ++ map (λ node, pending (newDotmesh DOTMESH_IMAGE c node)) created).

Local Abbreviation st2 := (observePods DOTMESH_IMAGE validNodes dotmeshes2).

Lemma elem_of_dotmeshes2 dotmesh :
  dotmesh ∈ dotmeshes2
  ↔ (dotmesh ∈ dotmeshes ∧ nameOf dotmesh ∉ names)
    ∨ (∃ node, node ∈ created ∧ dotmesh = pending (newDotmesh DOTMESH_IMAGE c node)).
Proof.
  rewrite elem_of_app, list_elem_of_filter, list_elem_of_fmap.
  naive_solver.
Qed.

Lemma created_healthy node :
  node ∈ created →
  healthyOn DOTMESH_IMAGE validNodes (pending (newDotmesh DOTMESH_IMAGE c node)) node.
Proof. intros Hin. apply newDotmesh_healthy; [by apply created_valid|done]. Qed.

Lemma created_healthy_inv node node' :
  healthyOn DOTMESH_IMAGE validNodes (pending (newDotmesh DOTMESH_IMAGE c node)) node' →
  node' = node.
Proof.
  intros (Hbound & _). simpl in Hbound. rewrite lookup_singleton_eq in Hbound. congruence.
Qed.

Lemma toKill_after dotmeshName :
  dotmeshName ∈ dotmeshesToKill st2
  ↔ dotmeshName ∈ dotmeshesToKill st ∧ dotmeshName ∉ names.
Proof.
  rewrite !observePods_toKill. split.
  - intros (dotmesh & [[Hin Hkept]|(node & Hnode & ->)]%elem_of_dotmeshes2 & Hname & Hbad).
    + split; [by exists dotmesh|by rewrite <- Hname].
    + destruct (Hbad node). by apply created_healthy.
  - intros [(dotmesh & Hin & Hname & Hbad) Hkept]. exists dotmesh.
    split_and!; [|done..]. apply elem_of_dotmeshes2. left. by rewrite Hname.
Qed.

Lemma suspended_after node :
  node ∈ suspendedNodes st2
  ↔ ∃ dotmesh, (dotmesh ∈ dotmeshes ∧ nameOf dotmesh ∉ names)
               ∧ suspends DOTMESH_IMAGE validNodes dotmesh node.
Proof.
  rewrite observePods_suspends. split.
  - intros (dotmesh & [Hkept|(node' & Hnode & ->)]%elem_of_dotmeshes2 & Hsus).
    + by exists dotmesh.
    + destruct (suspends_unhealthy DOTMESH_IMAGE validNodes _ node node' Hsus).
      by apply created_healthy.
  - intros (dotmesh & Hkept & Hsus). exists dotmesh. split; [|done].
    apply elem_of_dotmeshes2. by left.
Qed.

Lemma undotted_after node :
  node ∈ undottedNodes st2
  ↔ node ∈ validNodes ∧ (node ∉ created)
    ∧ ∀ dotmesh, dotmesh ∈ dotmeshes → nameOf dotmesh ∉ names →
        ¬ healthyOn DOTMESH_IMAGE validNodes dotmesh node.
Proof.
  rewrite observePods_undotted. split.
  - intros (Hvalid & Hnone). split_and!; [done|..].
    + intros Hin. apply (Hnone (pending (newDotmesh DOTMESH_IMAGE c node))).
      * apply elem_of_dotmeshes2. right. by exists node.
      * by apply created_healthy.
    + intros dotmesh Hin Hkept. apply Hnone, elem_of_dotmeshes2. by left.
  - intros (Hvalid & Hfree & Hnone). split; [done|].
    intros dotmesh [[Hin Hkept]|(node' & Hnode & ->)]%elem_of_dotmeshes2.
    + by apply Hnone.
    + intros <-%created_healthy_inv. done.
Qed.

(** A valid node that is not left undotted has a pod that is healthy on
    it: a listed one that is still there, or the one just created. *)
Lemma dotted_after node :
  node ∈ validNodes → node ∉ undottedNodes st2 →
  node ∈ created
  ∨ ∃ dotmesh, (dotmesh ∈ dotmeshes ∧ nameOf dotmesh ∉ names)
               ∧ healthyOn DOTMESH_IMAGE validNodes dotmesh node.
Proof.
  intros Hvalid Hnot.
  destruct (observePods_dotted validNodes dotmeshes2 node Hvalid Hnot)
    as (dotmesh & [Hkept|(node' & Hnode & ->)]%elem_of_dotmeshes2 & Hh).
  - right. by exists dotmesh.
  - left. by rewrite (created_healthy_inv _ _ Hh).
Qed.

(** The phases recorded for the caches that the pass leaves. *)
Lemma isRunning_after dotmeshName :
  dotmeshName ∉ names →
  isRunning st2 dotmeshName
  = if bool_decide (dotmeshName ∈ map (λ node, "dotmesh-" +:+ node) created)
    then false else isRunning st dotmeshName.
Proof.
  intros Hkept. unfold isRunning.
  rewrite (proj2 (observePods_phases DOTMESH_IMAGE validNodes dotmeshes2)).
  rewrite (proj2 (observePods_phases DOTMESH_IMAGE validNodes dotmeshes)).
  rewrite filter_app, list_filter_filter.
  rewrite (list_filter_iff _ (λ dotmesh, nameOf dotmesh = dotmeshName) dotmeshes).
  2:{ intros dotmesh. split; [tauto|]. intros ->. done. }
  case_bool_decide as Htaken.
  - apply list_elem_of_fmap in Htaken as (node & -> & Hnode).
    assert (pending (newDotmesh DOTMESH_IMAGE c node)
            ∈ filter (λ dotmesh, nameOf dotmesh = "dotmesh-" +:+ node)
                (map (λ node, pending (newDotmesh DOTMESH_IMAGE c node)) created)) as Hin.
    { apply list_elem_of_filter. split; [done|]. apply list_elem_of_fmap. by exists node. }
    destruct (filter _ (map _ created)) as [|pod pods] eqn:Hfilter using rev_ind.
    { by apply elem_of_nil in Hin. }
    rewrite app_assoc, last_snoc.
    assert (pod ∈ filter (λ dotmesh, nameOf dotmesh = "dotmesh-" +:+ node)
                    (map (λ node, pending (newDotmesh DOTMESH_IMAGE c node)) created))
      as [_ (node' & -> & _)%list_elem_of_fmap]%list_elem_of_filter.
    { rewrite Hfilter. apply elem_of_app. right. by left. }
    done.
  - rewrite (filter_none _ (map _ created)), app_nil_r; [done|].
    intros pod (node & -> & Hnode)%list_elem_of_fmap Hname.
    apply Htaken. apply list_elem_of_fmap. exists node. by rewrite <- Hname.
Qed.

(** The Running pods left are no more than the population at the end of
    the deletion loop. *)
Lemma runningPodCount_after :
  NoDup names →
  runningPodCount st2 + runningIn st names ≤ runningPodCount st.
Proof.
  intros Hnodup.
  rewrite (proj1 (observePods_phases DOTMESH_IMAGE validNodes dotmeshes2)).
  rewrite (proj1 (observePods_phases DOTMESH_IMAGE validNodes dotmeshes)).
  pose proof (running_names_bound validNodes dotmeshes names Hnodup) as Hbound.
  rewrite (filter_split (λ dotmesh, isPodRunning dotmesh)
             (λ dotmesh, nameOf dotmesh ∈ names) dotmeshes).
  rewrite filter_app, list_filter_filter, length_app.
  rewrite (filter_none _ (map _ created)).
  2:{ by intros pod (node & -> & _)%list_elem_of_fmap. }
  simpl. lia.
Qed.

End after_a_pass.


(** ** The two passes *)

(** C4, as amended.  Every listed node carries its identity label and no
    call of the first pass fails.  Then a second pass, run on the caches
    that differ from those of the first by the deletions and creations of
    the first, returns no error and updates no node.  It creates nothing
    just when every valid node is covered after the first pass: a pod was
    created for it, or a listed pod that was not deleted is healthy on it
    or suspends it.  It deletes nothing just when no created pod has the
    name of a marked pod that the first pass spared.  It issues no call at
    all just when both hold, and with pod names that are distinct and
    differ from those of the created pods, just when every valid node
    without a healthy pod that the first pass found suspended still has a
    pod that suspends it.  In particular it issues no call when the first
    pass marked no pod. *)
Theorem C4_second_pass_is_quiet (ord1 ord2 : RangeOrder) (c : dotmeshController)
    (nodes : list Node.t) (dotmeshes : list Pod.t) :
  nodeLister c = Ret nodes →
  podLister c = Ret dotmeshes →
  Forall labelledOk nodes →
  allSucceeded (run DOTMESH_IMAGE ord1 c).1 →
  let validNodes := observeNodes nodes in
  let st := observePods DOTMESH_IMAGE validNodes dotmeshes in
  let tr1 := (run DOTMESH_IMAGE ord1 c).1 in
  let c2 := withCaches c (echo tr1 (nodes, dotmeshes)) in
  let tr2 := (run DOTMESH_IMAGE ord2 c2).1 in
  let kept dotmesh := dotmesh ∈ dotmeshes ∧ nameOf dotmesh ∉ deletedNames tr1 in
  let covered node :=
    newDotmesh DOTMESH_IMAGE c node ∈ createdPods tr1
    ∨ ∃ dotmesh, kept dotmesh
        ∧ (healthyOn DOTMESH_IMAGE validNodes dotmesh node
           ∨ suspends DOTMESH_IMAGE validNodes dotmesh node) in
  let spared dotmeshName :=
    dotmeshName ∈ dotmeshesToKill st ∧ dotmeshName ∉ deletedNames tr1 in
  (run DOTMESH_IMAGE ord2 c2).2 = Ret tt
  ∧ updatedNodes tr2 = []
  ∧ (createdPods tr2 = [] ↔ ∀ node, node ∈ validNodes → covered node)
  ∧ (deletedNames tr2 = []
     ↔ ∀ dotmeshName pod, spared dotmeshName → pod ∈ createdPods tr1 →
         nameOf pod ≠ dotmeshName)
  ∧ (calls tr2 = []
     ↔ (∀ node, node ∈ validNodes → covered node)
       ∧ (∀ dotmeshName pod, spared dotmeshName → pod ∈ createdPods tr1 →
            nameOf pod ≠ dotmeshName))
  ∧ (NoDup (map (λ dotmesh, nameOf dotmesh) dotmeshes) →
     (∀ pod dotmesh, pod ∈ createdPods tr1 → dotmesh ∈ dotmeshes →
        nameOf pod ≠ nameOf dotmesh) →
     (calls tr2 = []
      ↔ ∀ node, node ∈ undottedNodes st → node ∈ suspendedNodes st →
          ∃ dotmesh, kept dotmesh ∧ suspends DOTMESH_IMAGE validNodes dotmesh node))
  ∧ (dotmeshesToKill st = ∅ → calls tr2 = []).
Proof.
  intros Hnodes Hpods Hlabelled Hok validNodes st tr1 c2 tr2 kept covered spared.
  set (minimum := clusterMinimumPopulation (Z.of_nat (size validNodes))).
  (* the first pass: no update, then the deletions, then the creations *)
  destruct (process_spec DOTMESH_IMAGE c ord1 nodes dotmeshes Hnodes Hpods)
    as (evA & rA & HA & _ & _ & Hrun).
  rewrite labelNodes_labelled in HA by done. injection HA as <- <-.
  destruct Hrun as (evC & evD & Hrun & HcC & HcD & _).
  fold validNodes st minimum in HcC, HcD.
  set (names := doomed st minimum (rangeToKill ord1 (dotmeshesToKill st))
                       (runningPodCount st)) in HcC.
  set (created := filter (λ node, node ∉ suspendedNodes st)
                         (rangeUndotted ord1 (undottedNodes st))) in HcD.
  assert (Htr1 : tr1 = evC ++ evD) by (subst tr1; by rewrite Hrun).
  fold tr1 in Hok. rewrite Htr1 in Hok. apply allSucceeded_app in Hok as [HokC HokD].
  destruct (deletions_only _ _ HcC) as (_ & HdC & HkC).
  destruct (creations_only _ _ _ HcD) as (_ & HdD & HkD).
  assert (Hdeleted : deletedNames tr1 = names).
  { by rewrite Htr1, deletedNames_app, HdC, HdD, app_nil_r. }
  assert (Hcreated : createdPods tr1 = map (newDotmesh DOTMESH_IMAGE c) created).
  { by rewrite Htr1, createdPods_app, HkC, HkD. }
  assert (Hnodup : NoDup names).
  { eapply sublist_NoDup; [apply rangeToKill_NoDup|apply doomed_sublist]. }
  assert (Hin_created : ∀ node,
            node ∈ created ↔ (node ∉ suspendedNodes st) ∧ (node ∈ undottedNodes st)).
  { intros node. subst created. by rewrite list_elem_of_filter, elem_of_rangeUndotted. }
  assert (Hvalid : ∀ node, node ∈ created → node ∈ validNodes).
  { intros node [_ Hund]%Hin_created. by apply observePods_undotted in Hund as [? _]. }
  assert (Hin_K : ∀ node, newDotmesh DOTMESH_IMAGE c node ∈ createdPods tr1
                          ↔ node ∈ created).
  { intros node. rewrite Hcreated, list_elem_of_fmap. split.
    - by intros (node' & ->%(newDotmesh_inj DOTMESH_IMAGE) & Hnode).
    - intros Hnode. by exists node. }
  assert (Htaken : ∀ dotmeshName,
            dotmeshName ∈ map (λ node, "dotmesh-" +:+ node) created
            ↔ ∃ pod, pod ∈ createdPods tr1 ∧ nameOf pod = dotmeshName).
  { intros dotmeshName. rewrite Hcreated, list_elem_of_fmap. split.
    - intros (node & -> & Hnode). exists (newDotmesh DOTMESH_IMAGE c node).
      split; [|done]. apply list_elem_of_fmap. by exists node.
    - intros (pod & (node & -> & Hnode)%list_elem_of_fmap & <-). by exists node. }
  (* the caches of the second pass *)
  set (dotmeshes2 := filter (λ dotmesh, nameOf dotmesh ∉ names) dotmeshes
                     ++ map (λ node, pending (newDotmesh DOTMESH_IMAGE c node)) created).
  assert (Hecho : echo tr1 (nodes, dotmeshes) = (nodes, dotmeshes2)).
  { rewrite Htr1, echo_app, (echo_deletions evC nodes dotmeshes names HokC HcC).
    rewrite echo_creations; [|done|].
    - by rewrite HkD, map_map.
    - rewrite HcD. apply Forall_forall. intros call (node & -> & _)%list_elem_of_fmap.
      eauto. }
  assert (Hnodes2 : nodeLister c2 = Ret nodes) by (subst c2; by rewrite Hecho).
  assert (Hpods2 : podLister c2 = Ret dotmeshes2) by (subst c2; by rewrite Hecho).
  set (st2 := observePods DOTMESH_IMAGE validNodes dotmeshes2).
  destruct (process_spec DOTMESH_IMAGE c2 ord2 nodes dotmeshes2 Hnodes2 Hpods2)
    as (evA2 & rA2 & HA2 & _ & _ & Hrun2).
  rewrite labelNodes_labelled in HA2 by done. injection HA2 as <- <-.
  destruct Hrun2 as (evC2 & evD2 & Hrun2 & HcC2 & HcD2 & _).
  fold validNodes st2 minimum in HcC2, HcD2.
  set (names2 := doomed st2 minimum (rangeToKill ord2 (dotmeshesToKill st2))
                        (runningPodCount st2)) in HcC2.
  set (created2 := filter (λ node, node ∉ suspendedNodes st2)
                          (rangeUndotted ord2 (undottedNodes st2))) in HcD2.
  assert (Htr2 : tr2 = evC2 ++ evD2) by (subst tr2; by rewrite Hrun2).
  destruct (deletions_only _ _ HcC2) as (HuC2 & HdC2 & HkC2).
  destruct (creations_only _ _ _ HcD2) as (HuD2 & HdD2 & HkD2).
  assert (Hdeleted2 : deletedNames tr2 = names2).
  { by rewrite Htr2, deletedNames_app, HdC2, HdD2, app_nil_r. }
  assert (Hcreated2 : createdPods tr2 = map (newDotmesh DOTMESH_IMAGE c2) created2).
  { by rewrite Htr2, createdPods_app, HkC2, HkD2. }
  assert (Hcalls2 : calls tr2 = [] ↔ createdPods tr2 = [] ∧ deletedNames tr2 = []).
  { rewrite Hdeleted2, Hcreated2, Htr2, calls_app, HcC2, HcD2.
    rewrite app_nil, !map_nil_iff. tauto. }
  (* what the second pass creates *)
  assert (Hcre : createdPods tr2 = [] ↔ ∀ node, node ∈ validNodes → covered node).
  { rewrite Hcreated2, map_nil_iff. unfold created2.
    rewrite filter_nil_iff. setoid_rewrite elem_of_rangeUndotted. split.
    - intros Hall node Hnode.
      destruct (decide (node ∈ undottedNodes st2)) as [Hund|Hdot].
      + specialize (Hall node Hund). apply dec_stable in Hall.
        apply (suspended_after c validNodes dotmeshes names created Hvalid) in Hall
          as (dotmesh & Hkept & Hsus).
        right. exists dotmesh. unfold kept. rewrite Hdeleted. split; [done|by right].
      + destruct (dotted_after c validNodes dotmeshes names created node Hnode Hdot)
          as [Hnew|(dotmesh & Hkept & Hh)].
        * left. by apply Hin_K.
        * right. exists dotmesh. unfold kept. rewrite Hdeleted. split; [done|by left].
    - intros Hall node Hund Hsus. apply Hsus.
      apply (undotted_after c validNodes dotmeshes names created Hvalid) in Hund
        as (Hnode & Hnew & Hnone).
      apply (suspended_after c validNodes dotmeshes names created Hvalid).
      destruct (Hall node Hnode) as [Hk|(dotmesh & [Hin Hkept] & [Hh|Hs])].
      + by apply Hin_K in Hk.
      + rewrite Hdeleted in Hkept. by destruct (Hnone dotmesh).
      + rewrite Hdeleted in Hkept. by exists dotmesh. }
  (* what the second pass deletes *)
  assert (Hdel : deletedNames tr2 = []
                 ↔ ∀ dotmeshName pod, spared dotmeshName → pod ∈ createdPods tr1 →
                     nameOf pod ≠ dotmeshName).
  { rewrite Hdeleted2. unfold names2. rewrite doomed_nil.
    setoid_rewrite elem_of_rangeToKill. unfold st2, dotmeshes2.
    setoid_rewrite (toKill_after c validNodes dotmeshes names created Hvalid).
    unfold spared. rewrite Hdeleted. split.
    - intros Hall dotmeshName pod [Hmarked Hkept] Hpod Hname.
      destruct (Hall dotmeshName (conj Hmarked Hkept)) as [Hrunning _].
      rewrite (isRunning_after c validNodes dotmeshes names created dotmeshName Hkept)
        in Hrunning.
      rewrite bool_decide_true in Hrunning; [done|]. apply Htaken. by exists pod.
    - intros Hfree dotmeshName [Hmarked Hkept].
      assert (isRunning st dotmeshName = true) as Hrunning.
      { destruct (isRunning st dotmeshName) eqn:Hr; [done|]. destruct Hkept.
        apply doomed_not_running; [|done]. by apply elem_of_rangeToKill. }
      split.
      + rewrite (isRunning_after c validNodes dotmeshes names created dotmeshName Hkept).
        rewrite bool_decide_false; [done|].
        intros (pod & Hpod & Hname)%Htaken. by apply (Hfree dotmeshName pod).
      + assert (runningPodCount st2 + runningIn st names ≤ runningPodCount st) as Hcount
          by exact (runningPodCount_after c validNodes dotmeshes names created Hnodup).
        assert (runningPodCount st - runningIn st names ≤ minimum) as Hspared.
        { apply (doomed_spared st minimum (rangeToKill ord1 (dotmeshesToKill st))
                   (runningPodCount st) dotmeshName); [|done..].
          by apply elem_of_rangeToKill. }
        change (runningPodCount st2 ≤ minimum). lia. }
  split_and!.
  - by rewrite Hrun2.
  - by rewrite Htr2, updatedNodes_app, HuC2, HuD2.
  - done.
  - done.
  - rewrite Hcalls2, Hcre, Hdel. done.
  - intros Hunique Hfresh. rewrite Hcalls2, Hcre, Hdel. split.
    + intros [Hcov _] node Hund Hsus.
      apply observePods_undotted in Hund as [Hnode Hnone].
      destruct (Hcov node Hnode) as [Hk|(dotmesh & [Hin Hkept] & [Hh|Hs])].
      * apply Hin_K, Hin_created in Hk as [? _]. done.
      * by destruct (Hnone dotmesh).
      * by exists dotmesh.
    + intros Hstill. split.
      * intros node Hnode.
        destruct (decide (node ∈ undottedNodes st)) as [Hund|Hdot].
        -- destruct (decide (node ∈ suspendedNodes st)) as [Hsus|Hfree].
           ++ destruct (Hstill node Hund Hsus) as (dotmesh & Hkept & Hs).
              right. exists dotmesh. split; [done|by right].
           ++ left. by apply Hin_K, Hin_created.
        -- destruct (observePods_dotted validNodes dotmeshes node Hnode Hdot)
             as (dotmesh & Hin & Hh).
           right. exists dotmesh. split; [|by left]. split; [done|].
           rewrite Hdeleted. intros Hgone%doomed_subset%elem_of_rangeToKill.
           apply observePods_toKill in Hgone as (other & Hother & Hname & Hbad).
           rewrite (NoDup_fmap_eq (λ dotmesh, nameOf dotmesh) dotmeshes other dotmesh)
             in Hbad by done.
           by destruct (Hbad node).
      * intros dotmeshName pod [Hmarked _] Hpod Hname.
        apply observePods_toKill in Hmarked as (dotmesh & Hin & Hd & _).
        apply (Hfresh pod dotmesh); [done..|congruence].
  - intros Hnone. rewrite Hcalls2, Hcre, Hdel. split.
    + assert (Hnames : names = []).
      { subst names. by rewrite Hnone, rangeToKill_empty. }
      intros node Hnode.
      destruct (decide (node ∈ undottedNodes st)) as [Hund|Hdot].
      * left. apply Hin_K, Hin_created. split; [|done].
        intros (dotmesh & _ & _ & Hk)%observePods_suspended.
        fold validNodes st in Hk. rewrite Hnone in Hk. set_solver.
      * destruct (observePods_dotted validNodes dotmeshes node Hnode Hdot)
          as (dotmesh & Hin & Hh).
        right. exists dotmesh. split; [|by left]. split; [done|].
        rewrite Hdeleted, Hnames. set_solver.
    + intros dotmeshName pod [Hmarked _]. rewrite Hnone in Hmarked. set_solver.
Qed.

End second_pass.

(** * The further properties on concrete clusters *)

(** A cluster whose ConfigMap sets the pool name and a key that the
    operator does not know: both are kept, the other keys get their
    defaults. *)
Lemma resolver_fills_in_the_defaults_witness :
  let d : gmap string string := {[ CONFIG_POOL_NAME := "tank"; "colour" := "blue" ]} in
  let client := kubernetes.mk (λ _ _, Ret (ConfigMap.mk (Some d))) (λ _ _, None) in
  fetchedData client = Some d
  ∧ ∃ c d',
      newDotmeshController client (Ret []) (Ret []) = Ret c
      ∧ ConfigMap.Data (config c) = Some d'
      ∧ d' !! CONFIG_POOL_NAME = Some "tank"
      ∧ d' !! "colour" = Some "blue"
      ∧ d' !! CONFIG_LOCAL_POOL_SIZE_PER_NODE = Some "10G".
Proof.
  intros d client. split; [reflexivity|].
  destruct (resolver_fills_in_the_defaults client (Ret []) (Ret []) d eq_refl)
    as (c & d' & Hc & _ & _ & _ & Hd' & Hkeep & Hdef & _).
  exists c, d'. split_and!; [exact Hc|exact Hd'|..].
  - apply Hkeep. vm_compute. reflexivity.
  - apply Hkeep. vm_compute. reflexivity.
  - rewrite (Hdef CONFIG_LOCAL_POOL_SIZE_PER_NODE "10G"); [vm_compute; reflexivity|].
    by_evaluation.
Defined.

(** The configuration resolved without a ConfigMap, stored as the
    ConfigMap: the next start resolves it to itself. *)
Lemma resolving_is_idempotent_witness :
  let c := cluster [] [] in
  let client2 := kubernetes.mk (λ _ _, Ret (config c)) (λ _ _, None) in
  newDotmeshController reliable (Ret []) (Ret []) = Ret c
  ∧ ∃ c2, newDotmeshController client2 (Ret []) (Ret []) = Ret c2
          ∧ config c2 = config c.
Proof.
  intros c client2.
  assert (Hfirst : newDotmeshController reliable (Ret []) (Ret []) = Ret c)
    by (vm_compute; reflexivity).
  split; [exact Hfirst|].
  exact (resolving_is_idempotent reliable client2 (Ret []) (Ret []) c Hfirst eq_refl).
Defined.

(** One node, without the label and with a nil label map: the pass
    panics before any call. *)
Lemma pass_panics_on_nil_labels_witness :
  let node := Node.mk (ObjectMeta.mk "n1" "" None None) in
  let c := cluster [node] [] in
  run "dotmesh:new" sortedOrder c = ([], Panic "assignment to entry in nil map").
Proof.
  intros node c.
  exact (proj1 (pass_panics_on_nil_labels "dotmesh:new" sortedOrder c [] [] node []
                  eq_refl eq_refl eq_refl)).
Defined.

(** One labelled node and a pod cache that cannot be listed: the pass
    returns the error of the lister. *)
Lemma lister_error_ends_the_pass_witness :
  let nodes := [labelledNode "n1"] in
  let c := mkController reliable (Ret nodes) (Fail "pod cache is gone") defaultConfig in
  (run "dotmesh:new" sortedOrder c).2 = Fail "pod cache is gone"
  ∧ createdPods (run "dotmesh:new" sortedOrder c).1 = [].
Proof.
  intros nodes c.
  destruct (lister_error_ends_the_pass "dotmesh:new" sortedOrder c "pod cache is gone"
              (or_intror (ex_intro _ nodes (conj eq_refl (conj eq_refl eq_refl)))))
    as (Hr & _ & Hk & _).
  split; [exact Hr|exact Hk].
Defined.

(** A rolling upgrade on four labelled nodes with four Running pods of an
    old image: the names deleted are distinct. *)
Lemma deletions_are_distinct_unhealthy_pods_witness :
  let nodes := [labelledNode "n1"; labelledNode "n2"; labelledNode "n3"; labelledNode "n4"] in
  let dotmeshes := [runningPod "dotmesh:old" "n1"; runningPod "dotmesh:old" "n2";
                    runningPod "dotmesh:old" "n3"; runningPod "dotmesh:old" "n4"] in
  let c := cluster nodes dotmeshes in
  NoDup (deletedNames (run "dotmesh:new" sortedOrder c).1).
Proof.
  intros nodes dotmeshes c.
  exact (proj1 (deletions_are_distinct_unhealthy_pods "dotmesh:new" sortedOrder c
                  nodes dotmeshes eq_refl eq_refl)).
Defined.

(** A cold start on two labelled nodes: the pass comes to its end, and
    the names of the pods it creates are distinct. *)
Lemma creations_are_the_uncovered_nodes_witness :
  let nodes := [labelledNode "n1"; labelledNode "n2"] in
  let c := cluster nodes [] in
  (run "dotmesh:new" sortedOrder c).2 = Ret tt
  ∧ NoDup (map (λ pod, ObjectMeta.Name (Pod.ObjectMeta pod))
               (createdPods (run "dotmesh:new" sortedOrder c).1)).
Proof.
  intros nodes c.
  assert (Hret : (run "dotmesh:new" sortedOrder c).2 = Ret tt) by (vm_compute; reflexivity).
  split; [exact Hret|].
  exact (proj2 (proj2 (creations_are_the_uncovered_nodes "dotmesh:new" sortedOrder c
                         nodes [] eq_refl eq_refl Hret))).
Defined.

(** The rolling upgrade on four nodes again: four marked Running pods, a
    minimum population of three, one deletion. *)
Lemma deletions_are_counted_witness :
  let nodes := [labelledNode "n1"; labelledNode "n2"; labelledNode "n3"; labelledNode "n4"] in
  let dotmeshes := [runningPod "dotmesh:old" "n1"; runningPod "dotmesh:old" "n2";
                    runningPod "dotmesh:old" "n3"; runningPod "dotmesh:old" "n4"] in
  let c := cluster nodes dotmeshes in
  let st := observePods "dotmesh:new" (observeNodes nodes) dotmeshes in
  (run "dotmesh:new" sortedOrder c).2 = Ret tt
  ∧ Z.of_nat (length (deletedNames (run "dotmesh:new" sortedOrder c).1)) = 1.
Proof.
  intros nodes dotmeshes c st.
  assert (Hret : (run "dotmesh:new" sortedOrder c).2 = Ret tt) by (vm_compute; reflexivity).
  split; [exact Hret|].
  rewrite (proj2 (deletions_are_counted "dotmesh:new" sortedOrder c nodes dotmeshes
                    eq_refl eq_refl Hret)).
  vm_compute. reflexivity.
Defined.

(** And it makes progress: something is deleted. *)
Lemma marked_pods_are_deleted_above_the_minimum_witness :
  let nodes := [labelledNode "n1"; labelledNode "n2"; labelledNode "n3"; labelledNode "n4"] in
  let dotmeshes := [runningPod "dotmesh:old" "n1"; runningPod "dotmesh:old" "n2";
                    runningPod "dotmesh:old" "n3"; runningPod "dotmesh:old" "n4"] in
  let c := cluster nodes dotmeshes in
  deletedNames (run "dotmesh:new" sortedOrder c).1 ≠ [].
Proof.
  intros nodes dotmeshes c.
  assert (Hret : (run "dotmesh:new" sortedOrder c).2 = Ret tt) by (vm_compute; reflexivity).
  assert (Hsmall : Z.of_nat (size (observeNodes nodes)) < 2 ^ 22) by (vm_compute; reflexivity).
  assert (Habove : 3 * Z.of_nat (size (observeNodes nodes))
                   < 4 * runningPodCount (observePods "dotmesh:new" (observeNodes nodes)
                                            dotmeshes)) by (vm_compute; reflexivity).
  assert (Hmarked : dotmeshesToKill (observePods "dotmesh:new" (observeNodes nodes) dotmeshes)
                    ≠ ∅).
  { by_evaluation. }
  exact (marked_pods_are_deleted_above_the_minimum "dotmesh:new" sortedOrder c nodes dotmeshes
           eq_refl eq_refl Hret Hsmall Habove Hmarked).
Defined.

(** The volume [apples] of the namespace [bob]. *)
Lemma qualified_name_round_trip_witness :
  ParseNamespacedVolume "bob/apples" = Ret ("bob", "apples")
  ∧ ParseNamespacedVolume "apples" = Ret ("admin", "apples").
Proof.
  exact (qualified_name_round_trip "bob" "apples" "admin" eq_refl eq_refl).
Defined.

(** A cluster whose ConfigMap selects the nodes of one zone. *)
Lemma node_selector_from_the_configuration_witness :
  let d : gmap string string := {[ CONFIG_NODE_SELECTOR := "zone=a" ]} in
  let client := kubernetes.mk (λ _ _, Ret (ConfigMap.mk (Some d))) (λ _ _, None) in
  let lo := ListOptions.mk "" "" "7" in
  ∃ c, newDotmeshController client (Ret []) (Ret []) = Ret c
       ∧ nodeListOptions c lo = ListOptions.mk "zone=a" "" "7".
Proof.
  intros d client lo.
  exact (node_selector_from_the_configuration client (Ret []) (Ret []) d lo eq_refl).
Defined.

(** One labelled node with a Running pod of an old image, and a second
    labelled node without a pod: no pod is created for the first. *)
Lemma pods_are_created_on_free_nodes_witness :
  let nodes := [labelledNode "n1"; labelledNode "n2"] in
  let dotmesh := runningPod "dotmesh:old" "n1" in
  let c := cluster nodes [dotmesh] in
  newDotmesh "dotmesh:new" c "n1" ∉ createdPods (run "dotmesh:new" sortedOrder c).1.
Proof.
  intros nodes dotmesh c.
  assert (Hin : dotmesh ∈ [dotmesh]) by (apply list_elem_of_here).
  exact (proj1 (pods_are_created_on_free_nodes "dotmesh:new" sortedOrder c nodes [dotmesh]
                  eq_refl eq_refl) dotmesh "n1" Hin eq_refl).
Defined.

(** * The second pass on concrete clusters *)

(** C4 on two clusters.  In the first, one labelled node has a healthy
    Running pod and there is a Pending pod bound to a node that is gone:
    the first pass deletes that pod, and the second pass issues no call.
    In the second, of two labelled nodes the first has a Running pod of an
    old image: the first pass marks it, spares it for the minimum
    population and creates a pod for the second node, and the second pass
    issues no call. *)
Lemma C4_witness :
  let nodesA := [labelledNode "n1"] in
  let dotmeshesA := [runningPod "dotmesh:new" "n1";
                     withPhase (newDotmesh "dotmesh:new" (cluster [] []) "n9")
                               v1.PodPending] in
  let cA := cluster nodesA dotmeshesA in
  let trA := (run "dotmesh:new" sortedOrder cA).1 in
  let cA2 := withCaches cA (echo trA (nodesA, dotmeshesA)) in
  let nodesB := [labelledNode "n1"; labelledNode "n2"] in
  let dotmeshesB := [runningPod "dotmesh:old" "n1"] in
  let cB := cluster nodesB dotmeshesB in
  let trB := (run "dotmesh:new" sortedOrder cB).1 in
  let cB2 := withCaches cB (echo trB (nodesB, dotmeshesB)) in
  (deletedNames trA = ["dotmesh-n9"]
   ∧ calls (run "dotmesh:new" sortedOrder cA2).1 = []
   ∧ (run "dotmesh:new" sortedOrder cA2).2 = Ret tt)
  ∧ ("dotmesh-n1" ∈ dotmeshesToKill (observePods "dotmesh:new" (observeNodes nodesB)
                                                  dotmeshesB)
     ∧ deletedNames trB = []
     ∧ createdPods trB = [newDotmesh "dotmesh:new" cB "n2"]
     ∧ calls (run "dotmesh:new" sortedOrder cB2).1 = []
     ∧ (run "dotmesh:new" sortedOrder cB2).2 = Ret tt).
Proof.
  intros nodesA dotmeshesA cA trA cA2 nodesB dotmeshesB cB trB cB2.
  assert (Hrunning : v1.PodRunning ≠ v1.PodFailed) by discriminate.
  split.
  - assert (Hlabelled : Forall labelledOk nodesA).
    { repeat (constructor; [reflexivity|]). constructor. }
    assert (Hok : allSucceeded (run "dotmesh:new" sortedOrder cA).1).
    { apply allSucceeded_forallb. vm_compute. reflexivity. }
    assert (Hvalid : observeNodes nodesA = {[ "n1" ]}).
    { by_evaluation. }
    assert (Hdeleted : deletedNames (run "dotmesh:new" sortedOrder cA).1 = ["dotmesh-n9"])
      by (vm_compute; reflexivity).
    assert (Hcreated : createdPods (run "dotmesh:new" sortedOrder cA).1 = [])
      by (vm_compute; reflexivity).
    destruct (C4_second_pass_is_quiet "dotmesh:new" sortedOrder sortedOrder cA
                nodesA dotmeshesA eq_refl eq_refl Hlabelled Hok)
      as (Hret & _ & _ & _ & Hquiet & _).
    split_and!; [exact Hdeleted| |exact Hret].
    apply Hquiet. rewrite Hdeleted, Hcreated, Hvalid. split.
    + intros node ->%elem_of_singleton. right.
      exists (runningPod "dotmesh:new" "n1"). split.
      * split; [apply list_elem_of_here|by_evaluation].
      * left. apply (newDotmesh_healthy "dotmesh:new" (cluster [] [])); [|exact Hrunning].
        by apply elem_of_singleton.
    + intros dotmeshName pod _ Hpod. destruct (not_elem_of_nil pod Hpod).
  - assert (Hlabelled : Forall labelledOk nodesB).
    { repeat (constructor; [reflexivity|]). constructor. }
    assert (Hok : allSucceeded (run "dotmesh:new" sortedOrder cB).1).
    { apply allSucceeded_forallb. vm_compute. reflexivity. }
    assert (Hvalid : observeNodes nodesB = {[ "n1"; "n2" ]}).
    { by_evaluation. }
    assert (Hmarked : dotmeshesToKill (observePods "dotmesh:new" (observeNodes nodesB)
                                         dotmeshesB) = {[ "dotmesh-n1" ]}).
    { by_evaluation. }
    assert (Hdeleted : deletedNames (run "dotmesh:new" sortedOrder cB).1 = [])
      by (vm_compute; reflexivity).
    assert (Hcreated : createdPods (run "dotmesh:new" sortedOrder cB).1
                       = [newDotmesh "dotmesh:new" cB "n2"])
      by (vm_compute; reflexivity).
    destruct (C4_second_pass_is_quiet "dotmesh:new" sortedOrder sortedOrder cB
                nodesB dotmeshesB eq_refl eq_refl Hlabelled Hok)
      as (Hret & _ & _ & _ & Hquiet & _).
    split_and!; [rewrite Hmarked; by apply elem_of_singleton|exact Hdeleted|exact Hcreated
                | |exact Hret].
    apply Hquiet. rewrite Hdeleted, Hcreated, Hmarked, Hvalid. split.
    + intros node [->%elem_of_singleton| ->%elem_of_singleton]%elem_of_union.
      * right. exists (runningPod "dotmesh:old" "n1"). split.
        -- split; [apply list_elem_of_here|apply not_elem_of_nil].
        -- right. split; [reflexivity|]. right; left.
           eexists. split; [reflexivity|]. discriminate.
      * left. apply list_elem_of_here.
    + intros dotmeshName pod [->%elem_of_singleton _] ->%list_elem_of_singleton.
      discriminate.
Defined.

(** The two conditions of C4 on the first pass are needed.  After a cold
    start on a node without its label, the second pass deletes the pod that
    the first created for the empty label and creates the pod of the node.
    And when the server refuses the creation of the first pass, the second
    pass creates again. *)
Lemma second_pass_after_relabelling_or_refusal :
  let e := "the server refused the request" in
  let nodes := [unlabelledNode "n1"] in
  let c := cluster nodes [] in
  let tr1 := (run "dotmesh:new" sortedOrder c).1 in
  let c2 := withCaches c (echo tr1 (nodes, [])) in
  let nodes' := [labelledNode "n1"] in
  let c' := mkController (refusing (λ call, negb (isNodesUpdate call)) e)
                         (Ret nodes') (Ret []) defaultConfig in
  let tr1' := (run "dotmesh:new" sortedOrder c').1 in
  let c2' := withCaches c' (echo tr1' (nodes', [])) in
  (forallb succeeded tr1 = true
   ∧ calls tr1 = [Nodes_Update (relabelled (unlabelledNode "n1"));
                  Pods_Create DOTMESH_NAMESPACE (newDotmesh "dotmesh:new" c "")]
   ∧ calls (run "dotmesh:new" sortedOrder c2).1
     = [deletePod "dotmesh-";
        Pods_Create DOTMESH_NAMESPACE (newDotmesh "dotmesh:new" c "n1")])
  ∧ (forallb succeeded tr1' = false
     ∧ calls tr1' = [Pods_Create DOTMESH_NAMESPACE (newDotmesh "dotmesh:new" c' "n1")]
     ∧ calls (run "dotmesh:new" sortedOrder c2').1
       = [Pods_Create DOTMESH_NAMESPACE (newDotmesh "dotmesh:new" c' "n1")]).
Proof. vm_compute. repeat split. Qed.
